(** * MCQ engine: row model, shuffle, validator, generator, parser

    A shallow embedding of the TypeScript services of the repository and the
    properties of the specification proved or refuted against them:
    - the shuffle service, src/services/shuffle.ts;
    - the validator ([isNum], [validateParsedMcq]), found in the second part
      of src/services/preferences.ts;
    - the generator, src/services/generator.ts ([generateAnswerKey]);
    - the parser ([parseMcq], [parseAnswerKey], [applyAnswerKey]), found in
      src/unnamed/part_002.

    Conventions of the embedding.
    - A JavaScript string is the list of its UTF-16 code units ([list N]).
    - An array is a dense [list]; indices are [nat].
    - [Math.random] is an oracle: a stream of naturals from which the index
      [Math.floor(Math.random() * (i + 1))] is drawn as [r mod (i + 1)], so
      every index the real generator can return is covered by some stream.
    - A [number] holding an integer is a [Z]. *)

From Stdlib Require Import ZArith NArith Lia String Ascii.
From stdpp Require Import base tactics option list sorting gmap pretty.

Local Open Scope nat_scope.

(** ** Strings *)

Abbreviation jsstring := (list N).

(** A string literal, one code unit per character. *)
Definition js (s : string) : jsstring :=
  map N_of_ascii (list_ascii_of_string s).

(** ** The row model ([src/types/mcq.ts]) *)

Inductive ParsedRowType : Set :=
  | section | question | answer | empty | error.

Global Instance ParsedRowType_eq_dec : EqDecision ParsedRowType.
Proof. solve_decision. Defined.

Record ParsedRow : Set := mkRow {
  id : Z;
  type : ParsedRowType;
  label : jsstring;
  text : jsstring;
  isKey : option bool;          (* [isKey?: boolean] *)
  locked : bool;
  originalNumber : option Z     (* [originalNumber?: number] *)
}.

Global Instance ParsedRow_eq_dec : EqDecision ParsedRow.
Proof. solve_decision. Defined.

(** Truthiness of an optional boolean field ([if (row.isKey)]). *)
Definition truthy (b : option bool) : bool :=
  match b with Some true => true | _ => false end.

Definition set_label (l : jsstring) (r : ParsedRow) : ParsedRow :=
  mkRow (id r) (type r) l (text r) (isKey r) (locked r) (originalNumber r).
Definition set_type (t : ParsedRowType) (r : ParsedRow) : ParsedRow :=
  mkRow (id r) t (label r) (text r) (isKey r) (locked r) (originalNumber r).
Definition set_isKey (k : option bool) (r : ParsedRow) : ParsedRow :=
  mkRow (id r) (type r) (label r) (text r) k (locked r) (originalNumber r).
Definition set_id (i : Z) (r : ParsedRow) : ParsedRow :=
  mkRow i (type r) (label r) (text r) (isKey r) (locked r) (originalNumber r).

(** ** The random source *)

Definition Rng := nat → nat.

(** One call of [Math.random]: the head of the stream and the rest. *)
Definition next (g : Rng) : nat * Rng := (g 0, λ n, g (S n)).

(** ** [src/services/shuffle.ts] *)

Module Shuffle.

Section shuffleArray.
Context {T : Type}.

(** [array.splice(idx, 0, element)]: a start past the end is clamped. *)
Definition splice_insert (idx : nat) (element : T) (array : list T) : list T :=
  take idx array ++ element :: drop idx array.

(** The swap of one Fisher-Yates step, guarded as in the source. *)
Definition swap (i j : nat) (array : list T) : list T :=
  match array !! i, array !! j with
  | Some temp, Some swp => <[j:=temp]> (<[i:=swp]> array)
  | _, _ => array
  end.

(** [for (let i = array.length - 1; i > 0; i--)], entered at [i]. *)
Fixpoint fisherYates (i : nat) (array : list T) (g : Rng) : list T * Rng :=
  match i with
  | 0 => (array, g)
  | S i' =>
      let '(r, g') := next g in
      let j := r mod (i + 1) in
      fisherYates i' (swap i j array) g'
  end.

(** [sorted.forEach((originalIndex, i) => ...)], entered at position [i]. *)
Fixpoint restore (sorted : list nat) (i : nat) (lockedElements : list T)
    (array : list T) : list T :=
  match sorted with
  | [] => array
  | originalIndex :: rest =>
      restore rest (S i) lockedElements
        match lockedElements !! i with
        | Some element => splice_insert originalIndex element array
        | None => array
        end
  end.

Definition shuffleArray (array : list T) (lockedIndexes : list nat) (g : Rng)
    : list T * Rng :=
  let sorted := merge_sort (≤) lockedIndexes in
  (* extract locked elements *)
  let lockedElements := omap (λ idx, array !! idx) sorted in
  (* remove them, last index first: [array.splice(idx, 1)] *)
  let array := foldr (λ idx a, delete idx a) array sorted in
  (* Fisher-Yates over what is left *)
  let '(array, g) := fisherYates (length array - 1) array g in
  (* put the locked elements back *)
  (restore sorted 0 lockedElements array, g).
End shuffleArray.

(** [arr.push(x)] on the last element of an array of arrays. *)
Definition push_to_last {A} (x : A) (ls : list (list A)) : list (list A) :=
  alter (λ l, l ++ [x]) (length ls - 1) ls.

(** The callback of [rows.forEach] in [splitIntoSections]. *)
Definition sectionStep (sections : list (list ParsedRow)) (row : ParsedRow)
    : list (list ParsedRow) :=
  if decide (type row = section) then sections ++ [[row]]
  else
    let sections := if decide (length sections = 0) then sections ++ [[]]
                    else sections in
    push_to_last row sections.

Definition splitIntoSections (rows : list ParsedRow) : list (list ParsedRow) :=
  foldl sectionStep [] rows.

Definition has_type (t : ParsedRowType) (r : option ParsedRow) : bool :=
  match r with Some r => bool_decide (type r = t) | None => false end.

(** The callback of the two [forEach] loops of [splitSectionIntoQuestions]:
    a row that is not a question joins the current block when
    [questions.length > floor], with [floor = 1] after a header block and
    [floor = 0] otherwise; else it is dropped. *)
Definition questionStep (floor : nat) (questions : list (list ParsedRow))
    (row : ParsedRow) : list (list ParsedRow) :=
  if decide (type row = question) then questions ++ [[row]]
  else if decide (floor < length questions) then push_to_last row questions
  else questions.

Definition splitSectionIntoQuestions (sec : list ParsedRow)
    : list (list ParsedRow) :=
  if bool_decide (0 < length sec) && has_type section (sec !! 0) then
    let header := take 2 sec in
    foldl (questionStep 1) [header] (drop 2 sec)
  else
    foldl (questionStep 0) [] sec.

Definition splitIntoSectionsAndQuestions (rows : list ParsedRow)
    : list (list (list ParsedRow)) :=
  map splitSectionIntoQuestions (splitIntoSections rows).

Definition letters : list jsstring :=
  [js "A"; js "B"; js "C"; js "D"; js "E"].

(** [letters[letterIndex] || 'A'] *)
Definition letterAt (letterIndex : nat) : jsstring :=
  default (js "A") (letters !! letterIndex).

(** [rows.map(row => ...)] with the captured counter [letterIndex]. *)
Fixpoint reletterFrom (letterIndex : nat) (rows : list ParsedRow)
    : list ParsedRow :=
  match rows with
  | [] => []
  | row :: rest =>
      if decide (type row = question) then row :: reletterFrom 0 rest
      else if decide (type row = answer) then
        set_label (letterAt letterIndex) row :: reletterFrom (S letterIndex) rest
      else row :: reletterFrom letterIndex rest
  end.

Definition reletterAnswers (rows : list ParsedRow) : list ParsedRow :=
  reletterFrom 0 rows.

(** The indices pushed by a [forEach((x, index) => { if (p) push(index) })],
    counted from [i]. *)
Fixpoint indexesWhere {A} (p : nat → A → bool) (i : nat) (l : list A)
    : list nat :=
  match l with
  | [] => []
  | x :: l' => (if p i x then [i] else []) ++ indexesWhere p (S i) l'
  end.

(** [block[0]?.locked] *)
Definition firstLocked (block : list ParsedRow) : bool :=
  match block !! 0 with Some r => locked r | None => false end.

Definition sectionLocks (sections : list (list ParsedRow)) : list nat :=
  indexesWhere (λ _ sec, firstLocked sec) 0 sections.

(** The sections after [shuffleArray(sections, lockedIndexes)]. *)
Definition shuffledSections (rows : list ParsedRow) (g : Rng)
    : list (list ParsedRow) * Rng :=
  let sections := splitIntoSections rows in
  shuffleArray sections (sectionLocks sections) g.

Definition shuffleSections (rows : list ParsedRow) (g : Rng)
    : list ParsedRow * Rng :=
  let '(sections, g) := shuffledSections rows g in
  (concat sections, g).

(** [xs.forEach(x => f(x))] where [f] draws from the random source and
    updates [x] in place. *)
Fixpoint forEachRng {A} (f : A → Rng → A * Rng) (l : list A) (g : Rng)
    : list A * Rng :=
  match l with
  | [] => ([], g)
  | x :: l' =>
      let '(y, g) := f x g in
      let '(l'', g) := forEachRng f l' g in
      (y :: l'', g)
  end.

Definition questionLocks (sec : list (list ParsedRow)) : list nat :=
  indexesWhere (λ index questionBlock,
    if bool_decide (index = 0) && has_type section (questionBlock !! 0)
    then true
    else firstLocked questionBlock) 0 sec.

Definition shuffleSectionBlocks (sec : list (list ParsedRow)) (g : Rng)
    : list (list ParsedRow) * Rng :=
  shuffleArray sec (questionLocks sec) g.

(** The nested structure after the loop of [shuffleQuestions]. *)
Definition shuffledQuestions (rows : list ParsedRow) (g : Rng)
    : list (list (list ParsedRow)) * Rng :=
  forEachRng shuffleSectionBlocks (splitIntoSectionsAndQuestions rows) g.

Definition shuffleQuestions (rows : list ParsedRow) (g : Rng)
    : list ParsedRow * Rng :=
  let '(sectionsByQuestion, g) := shuffledQuestions rows g in
  (concat (concat sectionsByQuestion), g).

Definition answerLocks (questionBlock : list ParsedRow) : list nat :=
  let questionRow := 0 in
  let emptyRow := length questionBlock - 1 in
  [questionRow; emptyRow] ++
  indexesWhere (λ index row,
    negb (bool_decide (index = questionRow)) &&
    negb (bool_decide (index = emptyRow)) && locked row) 0 questionBlock.

Definition shuffleBlock (questionBlock : list ParsedRow) (g : Rng)
    : list ParsedRow * Rng :=
  if has_type section (questionBlock !! 0) then (questionBlock, g)
  else shuffleArray questionBlock (answerLocks questionBlock) g.

(** The nested structure after the loop of [shuffleAnswers].  The blocks of
    [allQuestions = sectionsByQuestion.flat()] are the very arrays held by
    [sectionsByQuestion], visited section by section, so updating them in
    place is this nested traversal. *)
Definition shuffledAnswers (rows : list ParsedRow) (g : Rng)
    : list (list (list ParsedRow)) * Rng :=
  forEachRng (forEachRng shuffleBlock) (splitIntoSectionsAndQuestions rows) g.

Definition shuffleAnswers (rows : list ParsedRow) (g : Rng)
    : list ParsedRow * Rng :=
  let '(sectionsByQuestion, g) := shuffledAnswers rows g in
  (reletterAnswers (concat (concat sectionsByQuestion)), g).

Inductive mode : Set := sections | questions | answers.

(** The exported [shuffle(rows, mode)]: a copy of the array, then the
    shuffle of the mode. *)
Definition shuffle (rows : list ParsedRow) (md : mode) (g : Rng)
    : list ParsedRow * Rng :=
  let result := rows in
  match md with
  | sections => shuffleSections result g
  | questions => shuffleQuestions result g
  | answers => shuffleAnswers result g
  end.

End Shuffle.

(** ** Regular expressions

    The fragment of ECMAScript regular expressions the services use, with
    the backtracking semantics of the language specification: a matcher
    takes a state and a continuation, alternatives are tried left to right,
    quantifiers are greedy, and an iteration of a quantifier that consumes
    nothing once the minimum is reached is rejected. *)

Module Regex.

Inductive regex : Type :=
  | Empty
  | Char (p : N → bool)             (* a character, an escape or a class *)
  | Seq (r1 r2 : regex)
  | Alt (r1 r2 : regex)             (* r1|r2 *)
  | Repeat (min : nat) (max : option nat) (r : regex)  (* r{min,max} *)
  | Group (n : nat) (r : regex)     (* the n-th capturing group *)
  | NotAhead (r : regex)            (* (?!r) *)
  | Bol (multiline : bool)          (* ^ *)
  | Eol (multiline : bool).         (* $ *)

Definition Star := Repeat 0 None.           (* r* *)
Definition Plus := Repeat 1 None.           (* r+ *)
Definition Opt := Repeat 0 (Some 1).        (* r? *)
Definition Seqs (rs : list regex) : regex := foldr Seq Empty rs.

(** Character classes, on code units. *)
Definition chr (s : string) : N :=
  match s with String a _ => N_of_ascii a | EmptyString => 0%N end.
Definition oneOf (s : string) (c : N) : bool := bool_decide (c ∈ js s).
Definition range (lo hi : string) (c : N) : bool :=
  ((chr lo <=? c) && (c <=? chr hi))%N.
Definition noneOf (s : string) (c : N) : bool := negb (oneOf s c).
Definition either (p q : N → bool) (c : N) : bool := p c || q c.

(** LineTerminator: LF, CR, LS, PS. *)
Definition isLineTerminator (c : N) : bool :=
  bool_decide (c ∈ [10; 13; 8232; 8233]%N).

(** [\s]: WhiteSpace and LineTerminator. *)
Definition isSpace (c : N) : bool :=
  bool_decide (c ∈ [9; 10; 11; 12; 13; 32; 160; 5760; 8232; 8233; 8239; 8287;
                    12288; 65279]%N) || ((8192 <=? c) && (c <=? 8202))%N.

(** [\d] *)
Definition isDigit : N → bool := range "0" "9".

(** [.] *)
Definition dot (c : N) : bool := negb (isLineTerminator c).

(** The state of a match: what is left of the input, the index reached, the
    code unit before it, and the captures as (start, end) index pairs. *)
Record mstate : Type := MState {
  rest : list N;
  pos : nat;
  prev : option N;
  caps : nat → option (nat * nat)
}.

Definition set_cap (n : nat) (se : nat * nat) (st : mstate) : mstate :=
  MState (rest st) (pos st) (prev st)
         (λ i, if decide (i = n) then Some se else caps st i).

Definition atLineStart (multiline : bool) (st : mstate) : bool :=
  match prev st with
  | None => true
  | Some c => multiline && isLineTerminator c
  end.

Definition atLineEnd (multiline : bool) (st : mstate) : bool :=
  match rest st with
  | [] => true
  | c :: _ => multiline && isLineTerminator c
  end.

(** The matcher of a quantifier [r{min,max}], greedy, given the matcher
    [mr] of [r] and the continuation [k].  The number of iterations left is
    bounded by [fuel]: an iteration either counts towards [min] or consumes
    input, so [min] plus the length of the input, plus one, is enough. *)
Fixpoint rep (mr : mstate → (mstate → option mstate) → option mstate)
    (k : mstate → option mstate) (fuel min : nat) (max : option nat)
    (st : mstate) {struct fuel} : option mstate :=
  match fuel with
  | 0 => None
  | S fuel =>
      if decide (max = Some 0) then k st
      else
        let again :=
          mr st (λ st',
            if decide (min = 0 ∧ pos st' = pos st) then None
            else rep mr k fuel (pred min) (pred <$> max) st') in
        if decide (min = 0) then
          match again with
          | Some res => Some res
          | None => k st
          end
        else again
  end.

Fixpoint m (r : regex) (st : mstate) (k : mstate → option mstate)
    {struct r} : option mstate :=
  match r with
  | Empty => k st
  | Char p =>
      match rest st with
      | c :: cs =>
          if p c then k (MState cs (S (pos st)) (Some c) (caps st)) else None
      | [] => None
      end
  | Seq r1 r2 => m r1 st (λ st', m r2 st' k)
  | Alt r1 r2 =>
      match m r1 st k with
      | Some res => Some res
      | None => m r2 st k
      end
  | Repeat min max r => rep (m r) k (S (min + length (rest st))) min max st
  | Group n r => m r st (λ st', k (set_cap n (pos st, pos st') st'))
  | NotAhead r =>
      match m r st Some with
      | Some _ => None
      | None => k st
      end
  | Bol multiline => if atLineStart multiline st then k st else None
  | Eol multiline => if atLineEnd multiline st then k st else None
  end.

(** A successful match: where it starts, where it ends, its captures. *)
Record matched : Type := Matched {
  index : nat;
  stop : nat;
  groups : nat → option (nat * nat)
}.

(** Try the pattern at the current index, then at each later one. *)
Fixpoint scan (r : regex) (suffix : list N) (i : nat) (before : option N)
    : option matched :=
  match m r (MState suffix i before (λ _, None)) Some with
  | Some st => Some (Matched i (pos st) (caps st))
  | None =>
      match suffix with
      | [] => None
      | c :: suffix' => scan r suffix' (S i) (Some c)
      end
  end.

(** [s.substring(from, to)] for [from <= to]. *)
Definition substring (from to : nat) (s : jsstring) : jsstring :=
  take (to - from) (drop from s).

(** [r.exec(s)] with [r.lastIndex = lastIndex] for a global pattern, and
    [s.match(r)] for a pattern without flags when [lastIndex = 0]. *)
Definition exec (r : regex) (s : jsstring) (lastIndex : nat) : option matched :=
  if decide (length s < lastIndex) then None
  else scan r (drop lastIndex s) lastIndex (last (take lastIndex s)).

(** [match[n]]: the text of a capture. *)
Definition group (s : jsstring) (mt : matched) (n : nat) : option jsstring :=
  match n with
  | 0 => Some (substring (index mt) (stop mt) s)
  | _ => (λ se, substring se.1 se.2 s) <$> groups mt n
  end.

Definition test (r : regex) (s : jsstring) : bool :=
  bool_decide (is_Some (exec r s 0)).

(** [s.replace(r, '')] for a pattern without the global flag. *)
Definition remove_first (r : regex) (s : jsstring) : jsstring :=
  match exec r s 0 with
  | Some mt => take (index mt) s ++ drop (stop mt) s
  | None => s
  end.

End Regex.

(** ** String built-ins *)

Module Str.
Import Regex.

Fixpoint dropWhile {A} (p : A → bool) (l : list A) : list A :=
  match l with
  | x :: l' => if p x then dropWhile p l' else l
  | [] => []
  end.

Fixpoint takeWhile {A} (p : A → bool) (l : list A) : list A :=
  match l with
  | x :: l' => if p x then x :: takeWhile p l' else []
  | [] => []
  end.

(** [s.trim()]: white space and line terminators off both ends. *)
Definition trim (s : jsstring) : jsstring :=
  reverse (dropWhile isSpace (reverse (dropWhile isSpace s))).

(** A string in a condition: only the empty string is falsy. *)
Definition nonEmpty (s : jsstring) : bool :=
  match s with [] => false | _ => true end.

(** [!!s] for a string that may be [undefined]. *)
Definition truthyStr (s : option jsstring) : bool :=
  match s with Some s => nonEmpty s | None => false end.

(** [s.toUpperCase()], on the letters a-z; the services apply it to text
    made of [A-Ea-e], commas and white space only. *)
Definition toUpperCase (s : jsstring) : jsstring :=
  (λ c, if range "a" "z" c then (c - 32)%N else c) <$> s.

(** [s.split(sep)] for a one-unit separator: never an empty array. *)
Fixpoint split (sep : N) (s : jsstring) : list jsstring :=
  match s with
  | [] => [[]]
  | c :: s' =>
      if decide (c = sep) then [] :: split sep s'
      else match split sep s' with
           | piece :: pieces => (c :: piece) :: pieces
           | [] => [[c]]
           end
  end.

(** [parts.join(sep)] *)
Fixpoint join (sep : jsstring) (parts : list jsstring) : jsstring :=
  match parts with
  | [] => []
  | [p] => p
  | p :: ps => p ++ sep ++ join sep ps
  end.

(** The value of a digit in a radix, if it is one. *)
Definition digitValue (radix : Z) (c : N) : option Z :=
  let v := if range "0" "9" c then Some (Z.of_N c - 48)%Z
           else if range "a" "z" c then Some (Z.of_N c - 87)%Z
           else if range "A" "Z" c then Some (Z.of_N c - 55)%Z
           else None in
  v ≫= λ d, if decide (d < radix)%Z then Some d else None.

(** [parseInt(s)]: leading white space, a sign, an optional [0x], then the
    longest run of digits; [None] is [NaN].  The value is the exact
    integer, which is what the code returns up to 2^53; a longer run is
    rounded to a double there.  The services parse runs of at most three
    digits, or pass the value on as a key. *)
Definition parseInt (s : jsstring) : option Z :=
  let s := dropWhile isSpace s in
  let '(sign, s) :=
    match s with
    | c :: s' => if decide (c = chr "-") then ((-1)%Z, s')
                 else if decide (c = chr "+") then (1%Z, s')
                 else (1%Z, s)
    | [] => (1%Z, s)
    end in
  let '(radix, s) :=
    match s with
    | z :: x :: s' =>
        if bool_decide (z = chr "0") && oneOf "xX" x then (16%Z, s') else (10%Z, s)
    | _ => (10%Z, s)
    end in
  let digits := omap (digitValue radix) (takeWhile (λ c, bool_decide (is_Some (digitValue radix c))) s) in
  match digits with
  | [] => None
  | _ => Some (sign * foldl (λ acc d, acc * radix + d) 0 digits)%Z
  end.

(** [String(n)] for an integer: its decimal numeral.  This is what the
    code writes for the integers below 1e21 in magnitude; from there on it
    writes an exponent, which is not modelled. *)
Definition ofNumber (n : Z) : jsstring := js (pretty n).

End Str.

(** ** The validator service *)

Module Validator.
Import Regex Str.

(** [/^\d+$/] *)
Definition numPattern : regex :=
  Seqs [Bol false; Plus (Char isDigit); Eol false].

Definition isNum (label : jsstring) : bool := test numPattern label.

Record ValidationResult : Type := mkResult {
  isValid : bool;
  firstErrorRowId : option Z;
  validatedRows : list ParsedRow
}.

(** [validatedRows[i]?.label || ''] *)
Definition labelAt (rows : list ParsedRow) (i : nat) : jsstring :=
  default [] (label <$> rows !! i).

(** [hasError] for the row at [index]; only labels are read. *)
Definition hasError (rows : list ParsedRow) (index : nat) (lbl : jsstring)
    : bool :=
  let previousLabel := if decide (0 < index) then labelAt rows (index - 1) else [] in
  let nextLabel :=
    if decide (index < length rows - 1) then labelAt rows (index + 1) else [] in
  let nextNextLabel :=
    if decide (index < length rows - 2) then labelAt rows (index + 2) else [] in
  let eq s t := bool_decide (s = js t) in
  let ne s t := negb (eq s t) in
  (eq lbl "S" &&
     (ne previousLabel "" || ne nextLabel "" || negb (isNum nextNextLabel)))
  || (eq lbl "" &&
     (eq previousLabel "A" || isNum previousLabel ||
      bool_decide (nextLabel ∈ [js "A"; js "B"; js "C"; js "D"; js "E"])))
  || (isNum lbl && (ne previousLabel "" || ne nextLabel "A"))
  || (eq lbl "A" && (negb (isNum previousLabel) || ne nextLabel "B"))
  || (eq lbl "B" &&
     (ne previousLabel "A" || (ne nextLabel "C" && ne nextLabel "")))
  || (eq lbl "C" &&
     (ne previousLabel "B" || (ne nextLabel "D" && ne nextLabel "")))
  || (eq lbl "D" &&
     (ne previousLabel "C" || (ne nextLabel "E" && ne nextLabel "")))
  || (eq lbl "E" && (ne previousLabel "D" || ne nextLabel "")).

(** The reset of [row.type] for a row that was not an error. *)
Definition resetType (t : ParsedRowType) : ParsedRowType :=
  if decide (t = section) then section
  else if decide (t = question) then question
  else if decide (t = answer) then answer
  else empty.

(** The body of [validatedRows.forEach((row, index) => ...)] on one row: the
    row after it and whether it is in error.  The loop writes [type] only
    and reads [label] only, so the labels it reads are those of the input. *)
Definition validateRow (rows : list ParsedRow) (index : nat) (row : ParsedRow)
    : ParsedRow * bool :=
  let wasError := bool_decide (type row = error) in
  let row := if wasError then row else set_type (resetType (type row)) row in
  if wasError || hasError rows index (label row)
  then (set_type error row, true) else (row, false).

(** [if (!firstErrorRowId) firstErrorRowId = row.id], over the rows in
    error: an id of 0 is falsy and is overwritten by the next one. *)
Definition noteError (first : option Z) (rowId : Z) : option Z :=
  match first with
  | None => Some rowId
  | Some f => if decide (f = 0%Z) then Some rowId else first
  end.

Definition validateParsedMcq (rows : list ParsedRow) : ValidationResult :=
  if decide (length rows = 0) then mkResult true None []
  else
    let checked := imap (validateRow rows) rows in
    let firstErrorRowId :=
      foldl (λ first (rb : ParsedRow * bool),
               if rb.2 then noteError first (id rb.1) else first)
            None checked in
    mkResult (bool_decide (firstErrorRowId = None)) firstErrorRowId
             (fst <$> checked).

(** The loop of [findQuestionsWithoutKeys].  [currentQuestionNum] is [null]
    ([None]) or the result of [parseInt], a number that may be [NaN]
    ([Some None]); the numbers pushed are results of [parseInt] too. *)
Fixpoint withoutKeysLoop (rows : list ParsedRow)
    (questionsWithoutKeys : list (option Z))
    (currentQuestionNum : option (option Z)) (currentQuestionHasKey : bool)
    : list (option Z) :=
  match rows with
  | [] =>
      match currentQuestionNum with
      | Some n => if negb currentQuestionHasKey
                  then questionsWithoutKeys ++ [n] else questionsWithoutKeys
      | None => questionsWithoutKeys
      end
  | row :: rows =>
      if decide (type row = question) then
        let questionsWithoutKeys :=
          match currentQuestionNum with
          | Some n => if negb currentQuestionHasKey
                      then questionsWithoutKeys ++ [n] else questionsWithoutKeys
          | None => questionsWithoutKeys
          end in
        withoutKeysLoop rows questionsWithoutKeys
          (Some (parseInt (label row))) false
      else if bool_decide (type row = answer) && truthy (isKey row) then
        withoutKeysLoop rows questionsWithoutKeys currentQuestionNum true
      else
        withoutKeysLoop rows questionsWithoutKeys currentQuestionNum
          currentQuestionHasKey
  end.

Definition findQuestionsWithoutKeys (rows : list ParsedRow)
    : list (option Z) :=
  withoutKeysLoop rows [] None false.

End Validator.

(** ** The exam configuration ([src/types/mcq.ts]) *)

Module Config.

Record FormatSettings : Type := mkFormat {
  questionPrefix : list jsstring;
  questionPostfix : list jsstring;
  answerPrefix : list jsstring;
  answerPostfix : list jsstring;
  answerLowercase : bool;
  correctPrefix : list jsstring
}.

Record ExamConfig : Type := mkConfig {
  shuffleSections : bool;
  shuffleQuestions : bool;
  shuffleAnswers : bool;
  startNumber : Z;
  format : FormatSettings
}.

(** [DEFAULT_FORMAT_SETTINGS] and [DEFAULT_EXAM_CONFIG]. *)
Definition DEFAULT_FORMAT_SETTINGS : FormatSettings :=
  mkFormat [js "("; []] [js ")"; js "). "] [js "("; []] [js ")"; js "). "]
           false [js "*"].

Definition DEFAULT_EXAM_CONFIG : ExamConfig :=
  mkConfig false false false 1 DEFAULT_FORMAT_SETTINGS.

End Config.

(** ** The generator service *)

Module Generator.
Import Str.

(** [`${n}. ${answers.join(', ')}`] *)
Definition keyLine (n : Z) (answers : list jsstring) : jsstring :=
  ofNumber n ++ js ". " ++ join (js ", ") answers.

(** The loop of [generateAnswerKey]: the lines pushed so far, the running
    question number and the letters collected for the current question.
    [currentQuestionNum++] and [currentQuestionNum - 1] are taken in [Z],
    as the code computes them while the counter is a safe integer. *)
Fixpoint answerKeyLoop (rows : list ParsedRow) (answerKey : list jsstring)
    (currentQuestionNum : Z) (currentAnswers : list jsstring)
    : list jsstring :=
  match rows with
  | [] =>
      if decide (0 < length currentAnswers)
      then answerKey ++ [keyLine (currentQuestionNum - 1) currentAnswers]
      else answerKey
  | row :: rows =>
      if decide (type row = question) then
        if decide (0 < length currentAnswers)
        then answerKeyLoop rows
               (answerKey ++ [keyLine (currentQuestionNum - 1) currentAnswers])
               (currentQuestionNum + 1) []
        else answerKeyLoop rows answerKey (currentQuestionNum + 1)
               currentAnswers
      else if bool_decide (type row = answer) && truthy (isKey row) then
        answerKeyLoop rows answerKey currentQuestionNum
          (currentAnswers ++ [label row])
      else answerKeyLoop rows answerKey currentQuestionNum currentAnswers
  end.

Definition generateAnswerKey (rows : list ParsedRow) (startNumber : Z)
    : list jsstring :=
  answerKeyLoop rows [] startNumber [].

(** [xs[0] || d]: the first entry, unless it is missing or the empty
    string. *)
Definition firstOr (xs : list jsstring) (d : jsstring) : jsstring :=
  match xs !! 0 with
  | Some x => if nonEmpty x then x else d
  | None => d
  end.

(** The line break. *)
Definition nl : jsstring := [10%N].

Section exam.
(** [String.prototype.toLowerCase] follows the Unicode case mappings; the
    exam generators are modelled for any such function. *)
Variable toLowerCase : jsstring → jsstring.

(** The loop of [generateExamOutput]: the text so far and the running
    question number, stepped in [Z] as the code steps it while the counter
    is a safe integer.  A row of type [error] adds nothing. *)
Fixpoint examLoop (config : Config.ExamConfig) (rows : list ParsedRow)
    (output : jsstring) (currentQuestionNum : Z) : jsstring :=
  match rows with
  | [] => output
  | row :: rows =>
      let fmt := Config.format config in
      match type row with
      | section =>
          examLoop config rows (output ++ nl ++ text row ++ nl ++ nl)
            currentQuestionNum
      | question =>
          let prefix := firstOr (Config.questionPrefix fmt) [] in
          let postfix := firstOr (Config.questionPostfix fmt) (js ") ") in
          examLoop config rows
            (output ++ prefix ++ ofNumber currentQuestionNum ++ postfix ++
             text row ++ nl)
            (currentQuestionNum + 1)
      | answer =>
          let letter := if Config.answerLowercase fmt
                        then toLowerCase (label row) else label row in
          let prefix := firstOr (Config.answerPrefix fmt) [] in
          let postfix := firstOr (Config.answerPostfix fmt) (js ") ") in
          examLoop config rows
            (output ++ js "   " ++ prefix ++ letter ++ postfix ++ text row ++ nl)
            currentQuestionNum
      | empty => examLoop config rows (output ++ nl) currentQuestionNum
      | error => examLoop config rows output currentQuestionNum
      end
  end.

Definition generateExamOutput (rows : list ParsedRow)
    (config : Config.ExamConfig) : jsstring :=
  trim (examLoop config rows [] (Config.startNumber config)).
End exam.

(** [rows.map(row => ...)] with the captured counter [questionNum],
    stepped in [Z] as the code steps it while the counter is a safe
    integer. *)
Fixpoint renumberFrom (questionNum : Z) (rows : list ParsedRow)
    : list ParsedRow :=
  match rows with
  | [] => []
  | row :: rows =>
      if decide (type row = question)
      then set_label (ofNumber questionNum) row ::
           renumberFrom (questionNum + 1) rows
      else row :: renumberFrom questionNum rows
  end.

Definition renumberQuestions (rows : list ParsedRow) (startNumber : Z)
    : list ParsedRow :=
  renumberFrom startNumber rows.

End Generator.

(** ** The parser service *)

Module Parser.
Import Regex Str.

(** What a call produces: a value, an exception, or a loop that did not
    stop within its budget of iterations. *)
Inductive result (A : Type) : Type :=
  | Value (a : A)
  | Thrown
  | Diverged.
Global Arguments Value {A} a.
Global Arguments Thrown {A}.
Global Arguments Diverged {A}.

Definition createRow (id : Z) (type : ParsedRowType) (label text : jsstring)
    (originalNumber : option Z) : ParsedRow :=
  mkRow id type label text (Some false) false originalNumber.

(** [/[\u000a\u000b\u000c\u000d\u0085  ]/g] *)
Definition isLineBreak (c : N) : bool :=
  bool_decide (c ∈ [10; 11; 12; 13; 133; 8232; 8233]%N).

Definition normalize (input : jsstring) : jsstring :=
  (λ c, if isLineBreak c then 10%N else c) <$> trim input.

Definition letterAE : N → bool := either (range "A" "E") (range "a" "e").

(** The block start, with flags [gm]: [^\s*] then either [(\d{1,3})[.)]]
    (group 1, a question) or [###] and the rest of the line (group 2, a
    section). *)
Definition blockStartPattern : regex :=
  Seqs [ Bol true; Star (Char isSpace);
         Alt (Seqs [Group 1 (Repeat 1 (Some 3) (Char isDigit));
                    Char (oneOf ".)")])
             (Group 2 (Seqs [Char (oneOf "#"); Char (oneOf "#");
                             Char (oneOf "#"); Star (Char dot)])) ].

(** [/^###\s*/] *)
Definition sectionPrefix : regex :=
  Seqs [ Bol false; Char (oneOf "#"); Char (oneOf "#"); Char (oneOf "#");
         Star (Char isSpace) ].

(** [/^\s*(\d{1,3})[.)]\s*(\([^)]*\))?\s*/] *)
Definition questionPattern : regex :=
  Seqs [ Bol false; Star (Char isSpace);
         Group 1 (Repeat 1 (Some 3) (Char isDigit)); Char (oneOf ".)");
         Star (Char isSpace);
         Opt (Group 2 (Seqs [Char (oneOf "("); Star (Char (noneOf ")"));
                             Char (oneOf ")")]));
         Star (Char isSpace) ].

(** [/\s*[*]?\s*[Aa][.)]\s+/] *)
Definition answerStartPattern : regex :=
  Seqs [ Star (Char isSpace); Opt (Char (oneOf "*")); Star (Char isSpace);
         Char (oneOf "Aa"); Char (oneOf ".)"); Plus (Char isSpace) ].

(** [/([*])?\s*([A-Ea-e])[.)]\s+((?:(?!\s[*]?\s*[A-Ea-e][.)]).)+)/g] *)
Definition answerPattern : regex :=
  Seqs [ Opt (Group 1 (Char (oneOf "*"))); Star (Char isSpace);
         Group 2 (Char letterAE); Char (oneOf ".)"); Plus (Char isSpace);
         Group 3 (Plus (Seq
           (NotAhead (Seqs [Char isSpace; Opt (Char (oneOf "*"));
                            Star (Char isSpace); Char letterAE;
                            Char (oneOf ".)")]))
           (Char dot))) ].

(** [/(\d+)[.):\s]+([A-Ea-e,\s]+)/] *)
Definition keyLinePattern : regex :=
  Seqs [ Group 1 (Plus (Char isDigit));
         Plus (Char (either (oneOf ".):") isSpace));
         Group 2 (Plus (Char (either letterAE (either (oneOf ",") isSpace)))) ].

(** The [while] loop over [answerPattern.exec(answersText)], entered with
    [answerPattern.lastIndex = lastIndex]. *)
Fixpoint answersLoop (fuel : nat) (answersText : jsstring) (lastIndex : nat)
    (startId : Z) (rows : list ParsedRow) : result (list ParsedRow) :=
  match fuel with
  | 0 => Diverged
  | S fuel =>
      match exec answerPattern answersText lastIndex with
      | None => Value rows
      | Some answerMatch =>
          let g := group answersText answerMatch in
          let lastIndex := stop answerMatch in
          if negb (truthyStr (g 2)) || negb (truthyStr (g 3))
          then answersLoop fuel answersText lastIndex startId rows
          else
            let isCorrect := truthyStr (g 1) in
            let answerLetter := toUpperCase (default [] (g 2)) in
            let answerText := trim (default [] (g 3)) in
            let row := createRow (startId + Z.of_nat (length rows) + 1)
                         answer answerLetter answerText None in
            let row := if isCorrect then set_isKey (Some true) row else row in
            answersLoop fuel answersText lastIndex startId (rows ++ [row])
      end
  end.

Definition parseQuestionBlockFlexible (block : jsstring) (startId : Z)
    : result (list ParsedRow) :=
  let rows : list ParsedRow := [] in
  match exec questionPattern block 0 with
  | None => Thrown
  | Some questionMatch =>
      let g := group block questionMatch in
      if negb (truthyStr (g 1)) || negb (truthyStr (g 0)) then Thrown
      else
            let questionNumber := default [] (g 1) in
            let remainingText := drop (length (default [] (g 0))) block in
            let '(questionText, answersText) :=
              match exec answerStartPattern remainingText 0 with
              | Some answerStartMatch =>
                  (trim (substring 0 (index answerStartMatch) remainingText),
                   drop (index answerStartMatch) remainingText)
              | None => (trim remainingText, [])
              end in
            let rows := rows ++
              [createRow (startId + Z.of_nat (length rows) + 1) question
                 questionNumber questionText (parseInt questionNumber)] in
            if nonEmpty answersText
            then answersLoop (S (length answersText)) answersText 0 startId rows
            else Value rows
  end.

Inductive blockType : Set := questionBlock | sectionBlock.

Record block : Type := mkBlock {
  btext : jsstring;
  btype : blockType;
  bmatch : matched
}.

(** The rows pushed and the running [rowId]. *)
Definition output : Type := list ParsedRow * Z.

Definition push (mk : Z → ParsedRow) (out : output) : output :=
  let rowId := (out.2 + 1)%Z in (out.1 ++ [mk rowId], rowId).

Definition pushSection (title : jsstring) (out : output) : output :=
  push (λ i, createRow i empty [] [] None)
    (push (λ i, createRow i section (js "S") title None) out).

(** The [while] loop that cuts the text into blocks, entered with
    [blockStartPattern.lastIndex = lastIndex]. *)
Fixpoint blocksLoop (fuel : nat) (normalized : jsstring) (lastIndex : nat)
    (blocks : list block) (out : output) : result (list block * output) :=
  match fuel with
  | 0 => Diverged
  | S fuel =>
      match exec blockStartPattern normalized lastIndex with
      | None => Value (blocks, out)
      | Some mt =>
          let out :=
            if bool_decide (length blocks = 0) && bool_decide (0 < index mt) then
              let headerText := trim (substring 0 (index mt) normalized) in
              if nonEmpty headerText then pushSection headerText out else out
            else out in
          let nextMatch := exec blockStartPattern normalized (stop mt) in
          let end_ := match nextMatch with
                      | Some nm => index nm
                      | None => length normalized
                      end in
          let blockText := substring (index mt) end_ normalized in
          let isSection := truthyStr (group normalized mt 2) in
          let blocks := blocks ++
            [mkBlock blockText (if isSection then sectionBlock else questionBlock) mt] in
          match nextMatch with
          | Some nm => blocksLoop fuel normalized (index nm) blocks out
          | None => Value (blocks, out)
          end
      end
  end.

(** The body of [blocks.forEach(block => ...)]; [normalized] is the string
    the block's match refers to. *)
Definition processBlock (normalized : jsstring) (out : result output)
    (b : block) : result output :=
  match out with
  | Value out =>
      match btype b with
      | sectionBlock =>
          let sectionTitle :=
            match group normalized (bmatch b) 2 with
            | Some g2 => trim (remove_first sectionPrefix g2)
            | None => []
            end in
          Value (pushSection sectionTitle out)
      | questionBlock =>
          match parseQuestionBlockFlexible (btext b) out.2 with
          | Value questionRows =>
              let out := foldl (λ out row, push (λ i, set_id i row) out)
                               out questionRows in
              Value (push (λ i, createRow i empty [] [] None) out)
          | Thrown =>
              Value (push (λ i, createRow i empty [] [] None)
                      (push (λ i, createRow i error (js "error") (btext b) None)
                            out))
          | Diverged => Diverged
          end
      end
  | _ => out
  end.

(** The second parameter of the source, [_formatSettings], is not used. *)
Definition parseMcq (input : jsstring) : result (list ParsedRow) :=
  let normalized := normalize input in
  if negb (nonEmpty normalized) then Value []
  else
    match blocksLoop (S (length normalized)) normalized 0 [] ([], 0%Z) with
    | Value (blocks, out) =>
        if decide (length blocks = 0) then
          if nonEmpty (trim normalized)
          then Value (pushSection normalized out).1
          else Value out.1
        else
          match foldl (processBlock normalized) (Value out) blocks with
          | Value out => Value out.1
          | Thrown => Thrown
          | Diverged => Diverged
          end
    | Thrown => Thrown
    | Diverged => Diverged
    end.

(** [string[]] of single letters, keyed by question number. *)
Abbreviation keyMap := (gmap Z (list jsstring)).

(** The body of [for (const line of lines)] in [parseAnswerKey]. *)
Definition keyStep (answerKey : keyMap) (line : jsstring) : keyMap :=
  match exec keyLinePattern line 0 with
  | None => answerKey
  | Some mt =>
      let g := group line mt in
      if negb (truthyStr (g 1)) || negb (truthyStr (g 2)) then answerKey
      else
        match parseInt (default [] (g 1)) with
        | Some questionNum =>
            let answersStr := filter (λ c, range "A" "E" c = true)
                                     (toUpperCase (default [] (g 2))) in
            if decide (length answersStr = 0) then answerKey
            else
              let answers :=
                filter (λ c, test (Char (range "A" "E")) c = true)
                       ((λ c, [c]) <$> answersStr) in
              <[questionNum := answers]> answerKey
        | None => answerKey       (* not reached: group 1 is [\d+] *)
        end
  end.

Definition parseAnswerKey (input : jsstring) : keyMap :=
  if negb (nonEmpty (trim input)) then ∅
  else
    let lines := filter (λ line, nonEmpty (trim line) = true)
                        (split 10%N input) in
    foldl keyStep ∅ lines.

End Parser.

(** ** Rows as shared objects

    [applyAnswerKey] assigns to fields of the rows it is given, so for it a
    row is an object in a store and an array holds references.  [parseMcq]
    and the other services above build new rows and new arrays and assign to
    no field of a row they were given, which is why they are functions on
    row values. *)

Module Store.
Import Str Parser.

Abbreviation ref := positive.
Abbreviation store := (gmap positive ParsedRow).

(** [row.isKey = b] on the object at [l]. *)
Definition writeKey (l : ref) (b : bool) (h : store) : store :=
  alter (set_isKey (Some b)) l h.

(** [rows.forEach(row => { if (row.type === 'answer') row.isKey = false })] *)
Definition resetKeys (h : store) (rows : list ref) : store :=
  foldl (λ h l,
    match h !! l with
    | Some row => if decide (type row = answer) then writeKey l false h else h
    | None => h
    end) h rows.

(** The question number the walk is at: [null], or the result of
    [parseInt], which may be [NaN]. *)
Inductive current : Set :=
  | Null
  | Num (n : option Z).

(** [currentQuestionNum !== null] *)
Definition notNull (cur : current) : bool :=
  match cur with Null => false | Num _ => true end.

(** [(answerKey.get(currentQuestionNum) || []).includes(label)] *)
Definition listed (answerKey : keyMap) (cur : current) (lbl : jsstring) : bool :=
  match cur with
  | Num (Some n) => bool_decide (lbl ∈ default [] (answerKey !! n))
  | _ => false
  end.

(** The body of [for (const row of rows)]. *)
Definition markStep (answerKey : keyMap) (st : store * current) (l : ref)
    : store * current :=
  let '(h, cur) := st in
  match h !! l with
  | Some row =>
      if decide (type row = question) then (h, Num (parseInt (label row)))
      else if bool_decide (type row = answer) && notNull cur then
        if listed answerKey cur (label row) then (writeKey l true h, cur)
        else (h, cur)
      else (h, cur)
  | None => (h, cur)
  end.

(** The store after the call, and the array returned. *)
Definition applyAnswerKey (h : store) (rows : list ref) (answerKey : keyMap)
    : store * list ref :=
  let h := resetKeys h rows in
  let h := (foldl (markStep answerKey) (h, Null) rows).1 in
  (h, rows).

End Store.

(** * Vocabulary of the properties *)

Import Shuffle Regex Str Validator Generator Parser.

(** ** Rows and blocks under a shuffle *)

(** Two rows that differ at most in their label. *)
Definition sameButLabel (r r' : ParsedRow) : Prop :=
  set_label [] r = set_label [] r'.

(** [b'] has the length of [b] and every locked row of [b] at its index. *)
Definition keepsLocked (b b' : list ParsedRow) : Prop :=
  length b' = length b ∧
  ∀ k r, b !! k = Some r → locked r = true → b' !! k = Some r.

(** A block [shuffleAnswers] leaves alone (a header) or can pin at both
    ends (at least a question row and a closing row). *)
Definition shufflableBlock (block : list ParsedRow) : bool :=
  has_type section (block !! 0) || bool_decide (2 ≤ length block).

(** Segmentation drops no row and every block is [shufflableBlock]. *)
Definition wellSegmented (rows : list ParsedRow) : bool :=
  let nested := splitIntoSectionsAndQuestions rows in
  bool_decide (concat (concat nested) = rows) &&
  forallb (forallb shufflableBlock) nested.

(** The lock invariant read on rows: a locked row of the input is found, by
    its [id], at the same index of the output. *)
Definition keepsLockedRows
    (f : list ParsedRow → Rng → list ParsedRow * Rng) : Prop :=
  ∀ rows g i row, rows !! i = Some row → locked row = true →
    ∃ row', (f rows g).1 !! i = Some row' ∧ id row' = id row.

(** The lock invariant at the granularity of a shuffle of blocks: the
    blocks of [sec] that [pinned] selects are at their index in [sec']. *)
Definition keepsPinned (pinned : nat → list ParsedRow → bool)
    (sec sec' : list (list ParsedRow)) : Prop :=
  length sec' = length sec ∧
  ∀ b block, sec !! b = Some block → pinned b block = true →
    sec' !! b = Some block.

(** What [shuffleSections] pins: the sections whose first row is locked. *)
Definition pinnedSection (_ : nat) (sec : list ParsedRow) : bool :=
  firstLocked sec.

(** What [shuffleQuestions] pins in a section: the header block and the
    blocks whose first row is locked. *)
Definition pinnedBlock (b : nat) (block : list ParsedRow) : bool :=
  (bool_decide (b = 0) && has_type section (block !! 0)) || firstLocked block.

(** ** Letters of the answers *)

(** The labels of the answer rows of a run of rows, in order. *)
Definition answerLabels (blk : list ParsedRow) : list jsstring :=
  label <$> filter (λ r, type r = answer) blk.

(** The [k]-th capital letter: A, B, C, ... *)
Definition alphabet (k : nat) : jsstring := [N.of_nat (65 + k)].

(** The letter cursor of [reletterAnswers] after a run of rows. *)
Definition cursorAfter (letterIndex : nat) (rows : list ParsedRow) : nat :=
  foldl (λ n row,
    if decide (type row = question) then 0
    else if decide (type row = answer) then S n else n) letterIndex rows.

(** The relettering claim read on an output: after every question row, the
    answer rows up to the next question row are labelled by [letter 0],
    [letter 1], ... *)
Definition letteredBy (letter : nat → jsstring) (out : list ParsedRow) : Prop :=
  ∀ pre q blk post,
    out = pre ++ q :: blk ++ post → type q = question →
    Forall (λ r, type r ≠ question) blk →
    answerLabels blk = letter <$> seq 0 (length (answerLabels blk)).

(** ** Lines of the answer key *)

(** The rows cut at each question row: the rows before the first question,
    then, for each question, the rows after it up to the next one. *)
Fixpoint segments (rows : list ParsedRow) : list (list ParsedRow) :=
  match rows with
  | [] => [[]]
  | row :: rows =>
      if decide (type row = question) then [] :: segments rows
      else match segments rows with
           | seg :: segs => (row :: seg) :: segs
           | [] => [[row]]
           end
  end.

(** The labels of the keyed answer rows of a segment. *)
Definition keyedLetters (seg : list ParsedRow) : list jsstring :=
  label <$> filter (λ r, type r = answer ∧ truthy (isKey r) = true) seg.

(** One line for each group of letters that is not empty, numbered by the
    position of the group counted from [n]. *)
Fixpoint emit (n : Z) (groups : list (list jsstring)) : list jsstring :=
  match groups with
  | [] => []
  | g :: gs =>
      (if decide (g = []) then [] else [keyLine n g]) ++ emit (n + 1) gs
  end.

(** The letters collected so far join the first group. *)
Definition prepend (cur : list jsstring) (groups : list (list jsstring))
    : list (list jsstring) :=
  match groups with
  | g :: gs => (cur ++ g) :: gs
  | [] => [cur]
  end.

(** ** The parsing scenario *)

(** The kind and the label of a row. *)
Definition kindAndLabel (r : ParsedRow) : ParsedRowType * jsstring :=
  (type r, label r).

(** The scenario as the specification tells it: an implicit section and a
    blank, then the two question blocks with one blank between them, and
    nothing but blank rows after. *)
Definition scenario_as_told (rows : list ParsedRow) : Prop :=
  ∃ tail,
    kindAndLabel <$> rows =
      [ (section, js "S"); (empty, []);
        (question, js "1"); (answer, js "A"); (answer, js "B"); (empty, []);
        (question, js "2"); (answer, js "A"); (answer, js "B") ] ++ tail ∧
    Forall (λ kl, kl.1 = empty) tail.

(** ** Matches of a pattern *)

(** The matches of a pattern, as a relation: [Matches r st st'] when [r] can
    take the state [st] to [st'].  The matcher [m] finds the first of them,
    in its order of preference, that the continuation accepts. *)
Inductive Matches : regex → mstate → mstate → Prop :=
  | Matches_Empty st : Matches Empty st st
  | Matches_Char p c cs i pv cp :
      p c = true →
      Matches (Char p) (MState (c :: cs) i pv cp) (MState cs (S i) (Some c) cp)
  | Matches_Seq r1 r2 st st' st'' :
      Matches r1 st st' → Matches r2 st' st'' → Matches (Seq r1 r2) st st''
  | Matches_Alt_l r1 r2 st st' : Matches r1 st st' → Matches (Alt r1 r2) st st'
  | Matches_Alt_r r1 r2 st st' : Matches r2 st st' → Matches (Alt r1 r2) st st'
  | Matches_Repeat_done mn mx r st :
      mn = 0 ∨ mx = Some 0 → Matches (Repeat mn mx r) st st
  | Matches_Repeat_step mn mx r st st' st'' :
      mx ≠ Some 0 → Matches r st st' → (mn = 0 → pos st' ≠ pos st) →
      Matches (Repeat (pred mn) (pred <$> mx) r) st' st'' →
      Matches (Repeat mn mx r) st st''
  | Matches_Group n r st st' :
      Matches r st st' → Matches (Group n r) st (set_cap n (pos st, pos st') st')
  | Matches_NotAhead r st : m r st Some = None → Matches (NotAhead r) st st
  | Matches_Bol ml st : atLineStart ml st = true → Matches (Bol ml) st st
  | Matches_Eol ml st : atLineEnd ml st = true → Matches (Eol ml) st st.

(** The least number of code units a match of the pattern consumes. *)
Fixpoint minLen (r : regex) : nat :=
  match r with
  | Empty | NotAhead _ | Bol _ | Eol _ => 0
  | Char _ => 1
  | Seq r1 r2 => minLen r1 + minLen r2
  | Alt r1 r2 => minLen r1 `min` minLen r2
  | Repeat mn mx r => (match mx with Some M => mn `min` M | None => mn end) * minLen r
  | Group _ r => minLen r
  end.

(** Whether the capturing group [n] occurs in a pattern. *)
Fixpoint mentions (n : nat) (r : regex) : bool :=
  match r with
  | Empty | Char _ | Bol _ | Eol _ | NotAhead _ => false
  | Seq r1 r2 | Alt r1 r2 => mentions n r1 || mentions n r2
  | Repeat _ _ r => mentions n r
  | Group k r => bool_decide (k = n) || mentions n r
  end.

(** The code unit before the index once [cs] has been consumed. *)
Definition prevAfter (pv : option N) (cs : list N) : option N :=
  match last cs with Some c => Some c | None => pv end.

(** ** Blocks of the parser *)

(** The rows [parseQuestionBlockFlexible] builds. *)
Definition questionOrAnswer (r : ParsedRow) : Prop :=
  type r = question ∨ type r = answer.

(** A text that starts as a question block does: white space, one to three
    digits, then a dot or a closing parenthesis. *)
Definition questionLike (t : jsstring) : Prop :=
  ∃ ws ds c tl,
    t = ws ++ ds ++ c :: tl ∧
    Forall (λ c, isSpace c = true) ws ∧ Forall (λ c, isDigit c = true) ds ∧
    1 ≤ length ds ≤ 3 ∧ oneOf ".)" c = true.

(** A block typed as a question starts as one. *)
Definition okBlock (b : block) : Prop :=
  btype b = questionBlock → questionLike (btext b).

(** A row that is not an error row. *)
Definition noError (r : ParsedRow) : Prop := type r ≠ error.

(** The two rows that stand for a block that failed to parse. *)
Definition errorRows (b : block) (rowId : Z) : list ParsedRow :=
  [ createRow (rowId + 1) error (js "error") (btext b) None;
    createRow (rowId + 2) empty [] [] None ].

(** ** Rows in the store *)

(** Two rows that differ at most in [isKey]. *)
Definition sameButKey (r r' : ParsedRow) : Prop :=
  set_isKey None r = set_isKey None r'.

(** What a call may do to a row: rewrite the [isKey] of an answer row. *)
Definition keyRewritten (r r' : ParsedRow) : Prop :=
  sameButKey r r' ∧ (type r ≠ answer → r' = r).

(** The flags as the specification tells them: first every answer row is
    cleared, then a walk marks the answer rows whose letter is listed under
    the number of the latest question row. *)
Definition clearKeys (rows : list ParsedRow) : list ParsedRow :=
  (λ r, if decide (type r = answer) then set_isKey (Some false) r else r)
    <$> rows.

Fixpoint markKeys (answerKey : keyMap) (cur : Store.current)
    (rows : list ParsedRow) : list ParsedRow :=
  match rows with
  | [] => []
  | row :: rows =>
      if decide (type row = question)
      then row :: markKeys answerKey (Store.Num (parseInt (label row))) rows
      else if bool_decide (type row = answer) &&
              Store.listed answerKey cur (label row)
      then set_isKey (Some true) row :: markKeys answerKey cur rows
      else row :: markKeys answerKey cur rows
  end.

Definition keysAsSpecified (answerKey : keyMap) (rows : list ParsedRow)
    : list ParsedRow :=
  markKeys answerKey Store.Null (clearKeys rows).

(** Every object of [h] is in [h'], with at most the key of an answer
    rewritten, and [h'] holds nothing else. *)
Definition keysRewritten (h h' : gmap positive ParsedRow) : Prop :=
  ∀ l, option_Forall2 keyRewritten (h !! l) (h' !! l).

(** The rows an array of references holds, read from the store. *)
Definition readRows (h : gmap positive ParsedRow) (rows : list positive)
    : list ParsedRow :=
  omap (λ l, h !! l) rows.

(** ** The layout of the rows that the parser returns *)

(** A section row and the blank row after it. *)
Definition isSectionPair (g : list ParsedRow) : Prop :=
  ∃ s e, g = [s; e] ∧ type s = section ∧ type e = empty.

(** A question row, its answer rows and the blank row that closes them. *)
Definition isQuestionGroup (g : list ParsedRow) : Prop :=
  ∃ q ans e, g = q :: ans ++ [e] ∧ type q = question ∧
             Forall (λ r, type r = answer) ans ∧ type e = empty.

(** Rows made of section pairs and question groups, as [parseMcq] lays
    them out. *)
Definition grouped (rows : list ParsedRow) : Prop :=
  ∃ groups, rows = concat groups ∧
            Forall (λ g, isSectionPair g ∨ isQuestionGroup g) groups.

(** The groups of one section: an optional section pair, then question
    groups. *)
Definition isSectionChunk (chunk : list (list ParsedRow)) : Prop :=
  ∃ g gs, chunk = g :: gs ∧ (isSectionPair g ∨ isQuestionGroup g) ∧
          Forall isQuestionGroup gs.

(** ** Numbering of the questions *)

(** The services count in JavaScript numbers, which are doubles; the
    embedding counts in [Z].  The two agree on the safe integers
    ([Number.isSafeInteger]): there [n + 1] and [n - 1] are exact, [String]
    writes the decimal numeral and [parseInt] reads it back.  Beyond them
    the code no longer counts ([n++] is absorbed from 2^53 on, and [String]
    writes an exponent from 1e21 on), so the properties that depend on the
    value of a counter are stated for safe counters only. *)
Definition safeInteger (n : Z) : Prop :=
  (- 9007199254740991 ≤ n ≤ 9007199254740991)%Z.

(** A counter started at [startNumber] and stepped once for each question
    row of [rows] stays safe, and so does the number before it, which the
    answer key prints. *)
Definition safeCounter (startNumber : Z) (rows : list ParsedRow) : Prop :=
  safeInteger (startNumber - 1) ∧
  safeInteger
    (startNumber +
     Z.of_nat (length (filter (λ r, type r = question) rows))).

(** The number of question rows among the first [i] rows. *)
Definition questionsBefore (i : nat) (rows : list ParsedRow) : nat :=
  length (filter (λ r, type r = question) (take i rows)).

(** Rows that agree on what the exam prints: the type and the text, and
    the label for an answer row. *)
Definition printsAlike (r r' : ParsedRow) : Prop :=
  type r = type r' ∧ text r = text r' ∧ (type r = answer → label r = label r').

(** The line of a question row in the exam, with its number. *)
Definition questionLine (config : Config.ExamConfig) (n : Z) (q : ParsedRow)
    : jsstring :=
  firstOr (Config.questionPrefix (Config.format config)) [] ++ ofNumber n ++
  firstOr (Config.questionPostfix (Config.format config)) (js ") ") ++
  text q ++ nl.

(** ** Questions and their keyed answers *)

(** Each question row with the rows after it, up to the next question
    row. *)
Definition questionBlocks (rows : list ParsedRow)
    : list (ParsedRow * list ParsedRow) :=
  zip (filter (λ r, type r = question) rows) (tail (segments rows)).

(** What the loop of [findQuestionsWithoutKeys] still owes for the question
    it is at. *)
Definition pending (currentQuestionNum : option (option Z)) (hasKey : bool)
    : list (option Z) :=
  match currentQuestionNum with
  | Some n => if negb hasKey then [n] else []
  | None => []
  end.

(** ** Ids and blank input *)

(** The rows pushed so far carry the ids 1, 2, ... and the counter is the
    last of them. *)
Definition numbered (out : output) : Prop :=
  out.2 = Z.of_nat (length out.1) ∧ id <$> out.1 = seqZ 1 out.2.

(** A code unit that [parseMcq] takes for blank: white space, or the line
    break U+0085, which [trim] keeps and the normalisation turns into a
    line feed. *)
Definition blankUnit (c : N) : Prop := isSpace c = true ∨ c = 133%N.

(** ** Numbers and letters of an answer key *)

(** The number a run of decimal digits writes. *)
Definition decimal (ds : jsstring) : Z :=
  foldl (λ acc c, acc * 10 + (Z.of_N c - 48))%Z 0%Z ds.

(** The labels of the answer rows of [seg] that the key lists under the
    question number [cur]. *)
Definition listedLetters (answerKey : keyMap) (cur : Store.current)
    (seg : list ParsedRow) : list jsstring :=
  label <$> filter (λ r, type r = answer ∧
                         Store.listed answerKey cur (label r) = true) seg.

(** ** What segmentation keeps *)

(** A row that does not start a question block. *)
Definition notQuestion (r : ParsedRow) : bool :=
  negb (bool_decide (type r = question)).

(** The sections of [splitIntoSections]: none is empty, a section row is
    found only at the head of a section, and every section after the first
    starts with one. *)
Definition sectioned (sections : list (list ParsedRow)) : Prop :=
  Forall (λ sec, sec ≠ [] ∧ Forall (λ r, type r ≠ section) (tail sec)) sections ∧
  ∀ i sec, sections !! i = Some sec → 0 < i →
           has_type section (sec !! 0) = true.

(** ** The lines of a generated key, parsed back *)

(** The separators between the number and the letters of a key line. *)
Definition keySeparator : N → bool := either (oneOf ".):") isSpace.

(** The code units of the letters part of a key line. *)
Definition keyLetterUnit : N → bool :=
  either letterAE (either (oneOf ",") isSpace).

(** The key map that holds the groups of letters that are not empty, the
    [k]-th group under the number [n + k]. *)
Fixpoint keyed (answerKey : keyMap) (n : Z) (groups : list (list jsstring))
    : keyMap :=
  match groups with
  | [] => answerKey
  | g :: gs =>
      keyed (if decide (g = []) then answerKey else <[n := g]> answerKey)
            (n + 1) gs
  end.

(** ** The fields of the rows that the parser builds *)

(** What the parser puts in a row, by its type; the id is left out. *)
Definition parsedFields (r : ParsedRow) : Prop :=
  locked r = false ∧
  match type r with
  | section =>
      label r = js "S" ∧ isKey r = Some false ∧ originalNumber r = None
  | question =>
      Forall (λ c, isDigit c = true) (label r) ∧ 1 ≤ length (label r) ≤ 3 ∧
      originalNumber r = parseInt (label r) ∧
      originalNumber r = Some (decimal (label r)) ∧ isKey r = Some false
  | answer =>
      label r ∈ letters ∧ is_Some (isKey r) ∧ originalNumber r = None
  | empty =>
      label r = [] ∧ text r = [] ∧ isKey r = Some false ∧
      originalNumber r = None
  | error => False
  end.

(** ** The pattern of labels that validation accepts *)

(** The test of [hasError] on a label and the three labels around it. *)
Definition misplaced (previousLabel lbl nextLabel nextNextLabel : jsstring)
    : bool :=
  let eq s t := bool_decide (s = js t) in
  let ne s t := negb (eq s t) in
  (eq lbl "S" &&
     (ne previousLabel "" || ne nextLabel "" || negb (isNum nextNextLabel)))
  || (eq lbl "" &&
     (eq previousLabel "A" || isNum previousLabel ||
      bool_decide (nextLabel ∈ [js "A"; js "B"; js "C"; js "D"; js "E"])))
  || (isNum lbl && (ne previousLabel "" || ne nextLabel "A"))
  || (eq lbl "A" && (negb (isNum previousLabel) || ne nextLabel "B"))
  || (eq lbl "B" &&
     (ne previousLabel "A" || (ne nextLabel "C" && ne nextLabel "")))
  || (eq lbl "C" &&
     (ne previousLabel "B" || (ne nextLabel "D" && ne nextLabel "")))
  || (eq lbl "D" &&
     (ne previousLabel "C" || (ne nextLabel "E" && ne nextLabel "")))
  || (eq lbl "E" && (ne previousLabel "D" || ne nextLabel "")).

(** No label of a run is misplaced, [prev] being the label before the
    run. *)
Fixpoint inPlace (prev : jsstring) (labels : list jsstring) : bool :=
  match labels with
  | [] => true
  | lbl :: rest =>
      negb (misplaced prev lbl (default [] (rest !! 0)) (default [] (rest !! 1)))
      && inPlace lbl rest
  end.

(** The labels that validation tests: blank, S, a number or a letter. *)
Definition knownLabel (l : jsstring) : Prop :=
  l = [] ∨ l = js "S" ∨ isNum l = true ∨ l ∈ letters.

(** The units of the accepted pattern: a blank row, a section row with its
    blank row, or a question number with the first [k] letters. *)
Inductive labelUnit : Type :=
  | blankRow
  | sectionUnit
  | questionUnit (n : jsstring) (k : nat).

Definition unitLabels (u : labelUnit) : list jsstring :=
  match u with
  | blankRow => [[]]
  | sectionUnit => [js "S"; []]
  | questionUnit n k => n :: take k letters
  end.

(** A question unit has a numeric label and two to five letters, and a
    blank row or nothing after it; a section unit is followed by a question
    unit. *)
Fixpoint wellFormed (us : list labelUnit) : Prop :=
  match us with
  | [] => True
  | blankRow :: rest => wellFormed rest
  | sectionUnit :: rest =>
      match rest with questionUnit _ _ :: _ => True | _ => False end ∧
      wellFormed rest
  | questionUnit n k :: rest =>
      isNum n = true ∧ 2 ≤ k ≤ 5 ∧
      match rest with [] | blankRow :: _ => True | _ => False end ∧
      wellFormed rest
  end.

Definition followsPattern (labels : list jsstring) : Prop :=
  ∃ us, wellFormed us ∧ labels = concat (unitLabels <$> us).

Definition closes (us : list labelUnit) : Prop :=
  match us with [] | blankRow :: _ => True | _ => False end.

(** ** Rows that validation cannot tell apart *)

(** Rows with the same id, type and label. *)
Definition readsAlike (r r' : ParsedRow) : Prop :=
  id r = id r' ∧ type r = type r' ∧ label r = label r'.

(** ** The shape of a key line *)

(** A number, then separators, then a tail of the code units [unit]: runs
    of digits, of [.):] or white space, and of [unit], none of them
    empty. *)
Definition numberThenLetters (unit : N → bool) (t : jsstring) : Prop :=
  ∃ ds seps tail,
    t = ds ++ seps ++ tail ∧
    ds ≠ [] ∧ Forall (λ c, isDigit c = true) ds ∧
    seps ≠ [] ∧ Forall (λ c, keySeparator c = true) seps ∧
    tail ≠ [] ∧ Forall (λ c, unit c = true) tail.

(** Following the words of the specification: the line has a leading
    decimal number, then one or more of [.):] or white space, then a tail
    of letters, commas and spaces.  Any letter counts for the tail and
    anything may follow it, which is the widest reading of those words. *)
Definition specKeyLine (line : jsstring) : Prop :=
  ∃ t post,
    line = t ++ post ∧
    numberThenLetters
      (either (either (range "A" "Z") (range "a" "z"))
              (either (oneOf ",") isSpace)) t.

(** What [line.match(/(\d+)[.):\s]+([A-Ea-e,\s]+)/)] looks for: the shape
    with a tail of [A-Ea-e], commas and white space, anywhere in the
    line. *)
Definition holdsKeyShape (line : jsstring) : Prop :=
  ∃ pre t post,
    line = pre ++ t ++ post ∧ numberThenLetters keyLetterUnit t.

(** ** What a block contributes *)

(** Rows without their ids. *)
Definition anonymous (rows : list ParsedRow) : list ParsedRow :=
  set_id 0 <$> rows.

(** The blocks [parseMcq] cuts from the normalized text, with the rows
    pushed while cutting. *)
Definition cutBlocks (normalized : jsstring) : result (list block * output) :=
  blocksLoop (S (length normalized)) normalized 0 [] ([], 0%Z).

(** The rows the loop over the blocks pushes for a block that is the only
    one. *)
Definition blockRows (normalized : jsstring) (b : block) : list ParsedRow :=
  match processBlock normalized (Value ([], 0%Z)) b with
  | Value out => out.1
  | _ => []
  end.

(** Two outcomes of block parsing that agree up to the ids of the rows. *)
Definition sameOutcome (res res' : result (list ParsedRow)) : Prop :=
  match res, res' with
  | Value rows, Value rows' => anonymous rows = anonymous rows'
  | Thrown, Thrown | Diverged, Diverged => True
  | _, _ => False
  end.

(** A question block whose parsing throws. *)
Definition failsToParse (b : block) : Prop :=
  btype b = questionBlock ∧
  parseQuestionBlockFlexible (btext b) 0 = Thrown.

(** The rows that stand for the block [b] in the output: up to ids, those
    the block gives on its own, whatever came before it; and for a block
    that fails to parse, one error row with the text of the block and one
    empty row. *)
Definition contributes (normalized : jsstring) (b : block)
    (part : list ParsedRow) : Prop :=
  anonymous part = anonymous (blockRows normalized b) ∧
  (failsToParse b →
   ∃ e blank, part = [e; blank] ∧ type e = error ∧ text e = btext b ∧
              type blank = empty).

(** ** Sample inputs *)

(** A locked question inside an unlocked section, followed by a section. *)
Definition moved_rows : list ParsedRow :=
  [ mkRow 1 section (js "S") (js "Part one") (Some false) false None;
    mkRow 2 question (js "1") (js "Q1?") (Some false) true (Some 1%Z);
    mkRow 3 section (js "S") (js "Part two") (Some false) false None ].

(** A section with one question whose answer B is locked and keyed. *)
Definition one_block : list ParsedRow :=
  [ mkRow 1 section (js "S") (js "Part one") (Some false) false None;
    mkRow 2 empty [] [] (Some false) false None;
    mkRow 3 question (js "1") (js "Pick one") (Some false) false (Some 1%Z);
    mkRow 4 answer (js "A") (js "a1") (Some false) false None;
    mkRow 5 answer (js "B") (js "a2") (Some true) true None;
    mkRow 6 answer (js "C") (js "a3") (Some false) false None;
    mkRow 7 empty [] [] (Some false) false None ].

(** A question with six answer rows. *)
Definition six_answers : list ParsedRow :=
  [ mkRow 1 question (js "1") (js "Pick one") (Some false) false (Some 1%Z);
    mkRow 2 answer (js "A") (js "a1") (Some false) false None;
    mkRow 3 answer (js "B") (js "a2") (Some false) false None;
    mkRow 4 answer (js "C") (js "a3") (Some true) false None;
    mkRow 5 answer (js "D") (js "a4") (Some false) false None;
    mkRow 6 answer (js "E") (js "a5") (Some false) false None;
    mkRow 7 answer (js "A") (js "a6") (Some false) false None;
    mkRow 8 empty [] [] (Some false) false None ].

(** A question without any answer. *)
Definition lone_question : list ParsedRow :=
  [ mkRow 1 question (js "1") (js "Q1?") (Some false) false (Some 1%Z) ].

(** Two questions, each with keyed answers. *)
Definition keyed_questions : list ParsedRow :=
  [ mkRow 1 question (js "1") (js "Q1?") (Some false) false (Some 1%Z);
    mkRow 2 answer (js "A") (js "a1") (Some false) false None;
    mkRow 3 answer (js "B") (js "a2") (Some true) false None;
    mkRow 4 empty [] [] (Some false) false None;
    mkRow 5 question (js "2") (js "Q2?") (Some false) false (Some 2%Z);
    mkRow 6 answer (js "A") (js "a1") (Some true) false None;
    mkRow 7 answer (js "B") (js "a2") (Some false) false None;
    mkRow 8 answer (js "C") (js "a3") (Some true) false None;
    mkRow 9 empty [] [] (Some false) false None ].

(** The text of the parsing scenario. *)
Definition two_questions : jsstring := js "1. Q1? A. a1 B. a2
2. Q2? A. a1 B. a2".

(** A block typed as a question whose text has no question number. *)
Definition unparsed_block : block :=
  mkBlock (js "abc") questionBlock (Matched 0 0 (λ _, None)).

(** A store holding a question and its answer A, not keyed. *)
Definition keyed_store : gmap positive ParsedRow :=
  {[ 1%positive := mkRow 1 question (js "1") (js "Q1?") (Some false) false (Some 1%Z);
     2%positive := mkRow 2 answer (js "A") (js "a1") (Some false) false None ]}.

(** A locked answer row with no question row before it. *)
Definition stray_answer : list ParsedRow :=
  [ mkRow 1 answer (js "A") (js "a1") (Some false) true None;
    mkRow 2 question (js "1") (js "Q1?") (Some false) false (Some 1%Z);
    mkRow 3 answer (js "A") (js "a1") (Some false) false None;
    mkRow 4 empty [] [] (Some false) false None ].

(** Sample: a configuration that prints [Q10: ] before a question and [(A) ]
    before an answer. *)
Definition sample_config : Config.ExamConfig :=
  Config.mkConfig false false false 10
    (Config.mkFormat [js "Q"] [js ": "] [js "("] [js ") "] false [js "*"]).

(** Sample: a question block that parses. *)
Definition parsed_block : block :=
  mkBlock (js "2. Q2? A. a1 B. a2") questionBlock (Matched 0 0 (λ _, None)).

(** * Properties *)

(** ** The locked Fisher-Yates primitive *)

Section shuffleArray_facts.
Context {T : Type}.
Implicit Types (array arr : list T) (sorted idxs : list nat).

Lemma swap_length i j arr : length (swap i j arr) = length arr.
Proof.
  unfold swap. destruct (arr !! i), (arr !! j); auto.
  by rewrite !length_insert.
Qed.

Lemma swap_perm i j arr : swap i j arr ≡ₚ arr.
Proof.
  unfold swap.
  destruct (arr !! i) as [t|] eqn:Hi, (arr !! j) as [s|] eqn:Hj; auto.
  by apply Permutation_insert_swap.
Qed.

Lemma fisherYates_perm i arr g : (fisherYates i arr g).1 ≡ₚ arr.
Proof.
  revert arr g. induction i as [|i IH]; intros arr g; simpl; [done|].
  rewrite IH. apply swap_perm.
Qed.

Lemma fisherYates_length i arr g :
  length (fisherYates i arr g).1 = length arr.
Proof. by rewrite fisherYates_perm. Qed.

Lemma splice_insert_length idx x arr :
  length (splice_insert idx x arr) = S (length arr).
Proof.
  unfold splice_insert.
  rewrite length_app, length_take; simpl; rewrite length_drop. lia.
Qed.

Lemma splice_insert_perm idx x arr : splice_insert idx x arr ≡ₚ x :: arr.
Proof.
  unfold splice_insert.
  by rewrite <-Permutation_middle, take_drop.
Qed.

Lemma splice_insert_lookup_lt idx x arr i :
  i < idx → i < length arr → splice_insert idx x arr !! i = arr !! i.
Proof.
  intros ??. unfold splice_insert.
  rewrite lookup_app_l by (rewrite length_take; lia).
  by rewrite lookup_take_lt.
Qed.

Lemma splice_insert_lookup_eq idx x arr :
  idx ≤ length arr → splice_insert idx x arr !! idx = Some x.
Proof.
  intros ?. unfold splice_insert.
  rewrite lookup_app_r by (rewrite length_take; lia).
  rewrite length_take. by replace (idx - idx `min` length arr) with 0 by lia.
Qed.

Lemma restore_length sorted k els arr :
  (∀ j, j < length sorted → is_Some (els !! (k + j))) →
  length (restore sorted k els arr) = length arr + length sorted.
Proof.
  revert k arr. induction sorted as [|x rest IH]; intros k arr Hel; simpl.
  { lia. }
  destruct (Hel 0) as [el Hel0]; [simpl; lia|].
  rewrite Nat.add_0_r in Hel0. rewrite Hel0, IH, splice_insert_length; [lia|].
  intros j ?. replace (S k + j) with (k + S j) by lia.
  apply Hel. simpl. lia.
Qed.

Lemma restore_lookup_lt sorted k els arr i :
  Forall (λ x, i < x) sorted → i < length arr →
  restore sorted k els arr !! i = arr !! i.
Proof.
  revert k arr. induction sorted as [|x rest IH]; intros k arr Hlt ?;
    simpl; [done|].
  inversion_clear Hlt.
  destruct (els !! k) as [el|]; [|by apply IH].
  rewrite IH; [|done|rewrite splice_insert_length; lia].
  by apply splice_insert_lookup_lt.
Qed.

Lemma restore_perm sorted k els arr :
  restore sorted k els arr ≡ₚ take (length sorted) (drop k els) ++ arr.
Proof.
  revert k arr. induction sorted as [|x rest IH]; intros k arr; simpl.
  { done. }
  rewrite IH.
  destruct (els !! k) as [el|] eqn:Hk.
  - rewrite (drop_S els el k) by done. simpl.
    by rewrite splice_insert_perm, Permutation_middle.
  - rewrite !drop_ge by (apply lookup_ge_None in Hk; lia).
    by rewrite take_nil.
Qed.
End shuffleArray_facts.

Section shuffleArray_locked.
Context {T : Type}.
Implicit Types (array arr : list T) (sorted idxs : list nat).

Lemma ascending_bound idxs n :
  StronglySorted lt idxs → Forall (λ x, x < n) idxs →
  ∀ j x, idxs !! j = Some x → x + (length idxs - j) ≤ n.
Proof.
  induction 1 as [|y rest Hss IH Hlt]; intros Hn j x Hj; [done|].
  inversion_clear Hn as [|?? Hy Hrest].
  destruct j as [|j]; simplify_eq/=.
  - destruct rest as [|z rest]; simpl; [lia|].
    inversion_clear Hlt. specialize (IH Hrest 0 z eq_refl). simpl in IH. lia.
  - by apply IH.
Qed.

Lemma removed_lookup_lt idxs arr i :
  Forall (λ y, i < y) idxs →
  foldr (λ idx a, delete idx a) arr idxs !! i = arr !! i.
Proof.
  induction 1 as [|y rest ? ? IH]; simpl; [done|].
  by rewrite list_lookup_delete_lt.
Qed.

Lemma removed_length idxs arr :
  StronglySorted lt idxs → Forall (λ x, x < length arr) idxs →
  length (foldr (λ idx a, delete idx a) arr idxs) = length arr - length idxs.
Proof.
  intros Hss Hn. induction Hss as [|y rest Hss IH Hlt]; simpl; [lia|].
  pose proof (ascending_bound (y :: rest) _ (SSorted_cons _ Hss Hlt) Hn 0 y eq_refl)
    as Hb. simpl in Hb.
  inversion_clear Hn. rewrite length_delete, IH; [lia|done|].
  apply lookup_lt_is_Some. rewrite IH by done. lia.
Qed.

Lemma extract_lookup idxs arr :
  Forall (λ x, x < length arr) idxs →
  length (omap (λ idx, arr !! idx) idxs) = length idxs ∧
  ∀ j x, idxs !! j = Some x → omap (λ idx, arr !! idx) idxs !! j = arr !! x.
Proof.
  induction 1 as [|y rest Hy ? [IHl IH]]; csimpl; [by split|].
  apply lookup_lt_is_Some in Hy as [e He]. rewrite He. csimpl. split; [lia|].
  intros [|j] x ?; simplify_eq/=; [done|]. by apply IH.
Qed.

Lemma removed_perm idxs arr :
  StronglySorted lt idxs → Forall (λ x, x < length arr) idxs →
  arr ≡ₚ omap (λ idx, arr !! idx) idxs ++
         foldr (λ idx a, delete idx a) arr idxs.
Proof.
  intros Hss Hn. induction Hss as [|y rest Hss IH Hlt]; csimpl; [done|].
  inversion_clear Hn as [|?? Hy Hrest].
  apply lookup_lt_is_Some in Hy as [e He]. rewrite He. csimpl.
  etrans; [by apply IH|].
  etrans; [apply Permutation_app_head, (delete_Permutation _ y e);
           by rewrite removed_lookup_lt|].
  symmetry. apply Permutation_middle.
Qed.

Lemma restore_lookup_locked idxs k els arr :
  StronglySorted lt idxs →
  (∀ j x, idxs !! j = Some x → x ≤ length arr + j) →
  (∀ j, j < length idxs → is_Some (els !! (k + j))) →
  ∀ j x, idxs !! j = Some x → restore idxs k els arr !! x = els !! (k + j).
Proof.
  intros Hss. revert k arr.
  induction Hss as [|y rest Hss IH Hlt]; intros k arr Hb Hel j x Hj; [done|].
  destruct (Hel 0) as [el Hel0]; [simpl; lia|].
  rewrite Nat.add_0_r in Hel0. simpl. rewrite Hel0.
  pose proof (Hb 0 y eq_refl) as Hy.
  destruct j as [|j]; simplify_eq/=.
  - rewrite restore_lookup_lt; [|done|rewrite splice_insert_length; lia].
    rewrite Nat.add_0_r, Hel0. apply splice_insert_lookup_eq. lia.
  - replace (k + S j) with (S k + j) by lia. apply IH; [| |done].
    + intros j' x' ?. rewrite splice_insert_length.
      specialize (Hb (S j') x'). simpl in Hb. specialize (Hb ltac:(done)). lia.
    + intros j' ?. replace (S k + j') with (k + S j') by lia.
      apply Hel. simpl. lia.
Qed.

Lemma sorted_locks (lockedIndexes : list nat) :
  NoDup lockedIndexes → StronglySorted lt (merge_sort (≤) lockedIndexes).
Proof.
  intros Hnd.
  assert (NoDup (merge_sort (≤) lockedIndexes)) as Hnd'
    by by rewrite merge_sort_Permutation.
  pose proof (StronglySorted_merge_sort (≤) lockedIndexes) as Hss.
  induction Hss as [|y rest Hss IH Hle]; [constructor|].
  apply NoDup_cons in Hnd' as [Hy ?]. constructor; [by apply IH|].
  apply Forall_forall. intros z Hz.
  rewrite Forall_forall in Hle. specialize (Hle z Hz).
  assert (y ≠ z) by (intros ->; done). lia.
Qed.

Lemma shuffleArray_spec arr lockedIndexes g :
  NoDup lockedIndexes → Forall (λ x, x < length arr) lockedIndexes →
  let res := (shuffleArray arr lockedIndexes g).1 in
  length res = length arr ∧ res ≡ₚ arr ∧
  ∀ i, i ∈ lockedIndexes → res !! i = arr !! i.
Proof.
  intros Hnd Hn. unfold shuffleArray.
  set (sorted := merge_sort (≤) lockedIndexes).
  assert (StronglySorted lt sorted) as Hss by by apply sorted_locks.
  assert (Forall (λ x, x < length arr) sorted) as Hn'
    by by (unfold sorted; rewrite merge_sort_Permutation).
  set (els := omap (λ idx, arr !! idx) sorted).
  set (removed := foldr (λ idx a, delete idx a) arr sorted).
  destruct (fisherYates (length removed - 1) removed g) as [shuffled g'] eqn:Hfy.
  assert (shuffled ≡ₚ removed) as Hperm.
  { pose proof (fisherYates_perm (length removed - 1) removed g) as Hp.
    by rewrite Hfy in Hp. }
  destruct (extract_lookup sorted arr Hn') as [Hlen Hels]. fold els in Hlen, Hels.
  assert (length shuffled = length arr - length sorted) as Hlsh.
  { rewrite Hperm. by apply removed_length. }
  assert (length sorted ≤ length arr) as Hle.
  { destruct sorted as [|y rest] eqn:Hs; [simpl; lia|].
    pose proof (ascending_bound _ _ Hss Hn' 0 y eq_refl). simpl in *. lia. }
  simpl. split_and!.
  - rewrite restore_length; [lia|]. intros j ?. apply lookup_lt_is_Some. simpl. lia.
  - rewrite restore_perm, drop_0, take_ge by lia.
    rewrite Hperm. symmetry. by apply removed_perm.
  - intros i Hi.
    assert (i ∈ sorted) as [j Hj]%list_elem_of_lookup
      by by (unfold sorted; rewrite merge_sort_Permutation).
    rewrite (restore_lookup_locked sorted 0 els shuffled Hss) with (j := j);
      [by apply Hels| | |done].
    + intros j' x' Hj'. pose proof (ascending_bound _ _ Hss Hn' j' x' Hj').
      apply lookup_lt_Some in Hj'. lia.
    + intros j' ?. apply lookup_lt_is_Some. simpl. lia.
Qed.
End shuffleArray_locked.

(** ** Index collection *)

Lemma indexesWhere_bounds {A} (p : nat → A → bool) i (l : list A) :
  Forall (λ j, i ≤ j < i + length l) (indexesWhere p i l).
Proof.
  revert i. induction l as [|x l IH]; intros i; simpl; [constructor|].
  apply Forall_app. split.
  - destruct (p i x); repeat constructor; lia.
  - eapply Forall_impl; [apply IH|]. simpl. intros; lia.
Qed.

Lemma indexesWhere_NoDup {A} (p : nat → A → bool) i (l : list A) :
  NoDup (indexesWhere p i l).
Proof.
  revert i. induction l as [|x l IH]; intros i; simpl; [constructor|].
  destruct (p i x); simpl; [|apply IH].
  constructor; [|apply IH].
  intros Hi. pose proof (indexesWhere_bounds p (S i) l) as Hb.
  rewrite Forall_forall in Hb. apply Hb in Hi. lia.
Qed.

Lemma indexesWhere_elem {A} (p : nat → A → bool) i (l : list A) k x :
  l !! k = Some x → p (i + k) x = true → i + k ∈ indexesWhere p i l.
Proof.
  revert i k. induction l as [|y l IH]; intros i k Hk Hp; [done|].
  simpl. destruct k as [|k]; simplify_eq/=.
  - rewrite Nat.add_0_r in *. rewrite Hp. by constructor.
  - apply elem_of_app. right. replace (i + S k) with (S i + k) in * by lia.
    by apply IH.
Qed.

Lemma indexesWhere_elem_inv {A} (p : nat → A → bool) i (l : list A) j :
  j ∈ indexesWhere p i l →
  ∃ x, l !! (j - i) = Some x ∧ i ≤ j ∧ p j x = true.
Proof.
  revert i. induction l as [|y l IH]; intros i; simpl.
  { by intros ?%elem_of_nil. }
  intros [Hin|Hin]%elem_of_app.
  - destruct (p i y) eqn:Hp; [|by apply elem_of_nil in Hin].
    apply list_elem_of_singleton in Hin as ->. exists y.
    by rewrite Nat.sub_diag.
  - apply IH in Hin as (x & Hx & ? & ?). exists x. split_and!; [|lia|done].
    by replace (j - i) with (S (j - S i)) by lia.
Qed.

Lemma pinned_keeps {T} (p : nat → T → bool) (sec : list T) g :
  let sec' := (shuffleArray sec (indexesWhere p 0 sec) g).1 in
  length sec' = length sec ∧ sec' ≡ₚ sec ∧
  ∀ b block, sec !! b = Some block → p b block = true → sec' !! b = Some block.
Proof.
  assert (Forall (λ x, x < length sec) (indexesWhere p 0 sec)) as Hin.
  { eapply Forall_impl; [apply indexesWhere_bounds|]. simpl. intros; lia. }
  destruct (shuffleArray_spec sec _ g (indexesWhere_NoDup p 0 sec) Hin)
    as (Hlen & Hperm & Hkeep).
  split_and!; [done|done|]. intros b block Hb Hp. rewrite Hkeep; [done|].
  by apply (indexesWhere_elem p 0 sec b block).
Qed.

(** ** Segmentation and the loops over blocks *)

Lemma push_to_last_snoc {A} (x : A) ls l :
  push_to_last x (ls ++ [l]) = ls ++ [l ++ [x]].
Proof.
  unfold push_to_last. rewrite length_app. simpl.
  replace (length ls + 1 - 1) with (length ls + 0) by lia.
  by rewrite alter_app_r.
Qed.

Lemma concat_push_to_last {A} (x : A) ls :
  ls ≠ [] → concat (push_to_last x ls) = concat ls ++ [x].
Proof.
  intros Hne. destruct ls as [|l ls' _] using rev_ind; [done|].
  rewrite push_to_last_snoc, !concat_app. simpl.
  by rewrite !app_nil_r, app_assoc.
Qed.

Lemma concat_sectionStep sections row :
  concat (sectionStep sections row) = concat sections ++ [row].
Proof.
  unfold sectionStep. case_decide.
  { rewrite concat_app. by simpl. }
  case_decide.
  - by destruct sections.
  - apply concat_push_to_last. by destruct sections.
Qed.

Lemma concat_foldl_sectionStep sections rows :
  concat (foldl sectionStep sections rows) = concat sections ++ rows.
Proof.
  revert sections. induction rows as [|row rows IH]; intros sections; simpl.
  { by rewrite app_nil_r. }
  by rewrite IH, concat_sectionStep, <-app_assoc.
Qed.

Lemma concat_splitIntoSections rows : concat (splitIntoSections rows) = rows.
Proof. apply concat_foldl_sectionStep. Qed.

Lemma questionStep_subset floor questions row x :
  x ∈ concat (questionStep floor questions row) →
  x ∈ concat questions ∨ x = row.
Proof.
  unfold questionStep. repeat case_decide.
  - rewrite concat_app. simpl.
    intros [?|?%list_elem_of_singleton]%elem_of_app; auto.
  - rewrite concat_push_to_last by (by destruct questions; simpl in *; try lia).
    intros [?|?%list_elem_of_singleton]%elem_of_app; auto.
  - auto.
Qed.

Lemma foldl_questionStep_subset floor questions rows x :
  x ∈ concat (foldl (questionStep floor) questions rows) →
  x ∈ concat questions ∨ x ∈ rows.
Proof.
  revert questions. induction rows as [|row rows IH]; intros questions; simpl.
  { auto. }
  intros [[?| ->]%questionStep_subset|?]%IH; auto using list_elem_of_here, list_elem_of_further.
Qed.

Lemma splitSectionIntoQuestions_subset sec x :
  x ∈ concat (splitSectionIntoQuestions sec) → x ∈ sec.
Proof.
  unfold splitSectionIntoQuestions.
  destruct (_ && _); intros [Hx|Hx]%foldl_questionStep_subset.
  - simpl in Hx. rewrite ?app_nil_r in Hx.
    apply elem_of_take in Hx as (i & Hx & _). by eapply list_elem_of_lookup_2.
  - rewrite <-(take_drop 2 sec). apply elem_of_app. by right.
  - by apply elem_of_nil in Hx.
  - done.
Qed.

Lemma segmentation_subset rows x :
  x ∈ concat (concat (splitIntoSectionsAndQuestions rows)) → x ∈ rows.
Proof.
  unfold splitIntoSectionsAndQuestions.
  rewrite <-(concat_splitIntoSections rows) at 2.
  induction (splitIntoSections rows) as [|sec secs IH]; simpl; [done|].
  rewrite concat_app.
  intros [?%splitSectionIntoQuestions_subset|?%IH]%elem_of_app;
    apply elem_of_app; auto.
Qed.

Lemma concat_Permutation {A} (ls ls' : list (list A)) :
  ls ≡ₚ ls' → concat ls ≡ₚ concat ls'.
Proof.
  induction 1; simpl; try done.
  - by f_equiv.
  - by rewrite !app_assoc, (comm (++) y x).
  - etrans; eauto.
Qed.

Lemma Forall2_concat_nested {A} (P : A → A → Prop) (ls ls' : list (list A)) :
  Forall2 (Forall2 P) ls ls' → Forall2 P (concat ls) (concat ls').
Proof. induction 1; simpl; [constructor|]. by apply Forall2_app. Qed.

Lemma Forall2_perm_concat {A} (ls ls' : list (list A)) :
  Forall2 (≡ₚ) ls ls' → concat ls ≡ₚ concat ls'.
Proof. induction 1; simpl; [done|]. by f_equiv. Qed.

Lemma Forall2_subset_concat {A} (ls ls' : list (list A)) :
  Forall2 (λ l l', ∀ x, x ∈ l' → x ∈ l) ls ls' →
  ∀ x, x ∈ concat ls' → x ∈ concat ls.
Proof.
  induction 1 as [|l l' ls ls' Hl _ IH]; simpl; [done|].
  intros x [?%Hl|?%IH]%elem_of_app; apply elem_of_app; auto.
Qed.

Lemma forEachRng_Forall2 {A} (f : A → Rng → A * Rng) (Q : A → Prop)
    (P : A → A → Prop) :
  (∀ x g, Q x → P x (f x g).1) →
  ∀ l g, Forall Q l → Forall2 P l (forEachRng f l g).1.
Proof.
  intros Hf l. induction l as [|x l IH]; intros g Hl; simpl; [constructor|].
  inversion_clear Hl as [|?? Hx Hl'].
  specialize (Hf x g Hx). destruct (f x g) as [y g1].
  specialize (IH g1 Hl'). destruct (forEachRng f l g1) as [l' g2].
  by constructor.
Qed.

(** ** Sections are permuted *)

Lemma sectionLocks_ok (sections : list (list ParsedRow)) :
  NoDup (sectionLocks sections) ∧
  Forall (λ x, x < length sections) (sectionLocks sections).
Proof.
  split; [apply indexesWhere_NoDup|].
  eapply Forall_impl; [apply indexesWhere_bounds|]. simpl. intros; lia.
Qed.

(** C10: [shuffleSections] returns a permutation of its input, made of the
    input's sections, each kept whole and in its own order. *)
Theorem shuffleSections_permutation rows g :
  (shuffleSections rows g).1 ≡ₚ rows ∧
  ∃ sections',
    sections' ≡ₚ splitIntoSections rows ∧
    concat (splitIntoSections rows) = rows ∧
    (shuffleSections rows g).1 = concat sections'.
Proof.
  unfold shuffleSections.
  destruct (shuffledSections rows g) as [sections' g'] eqn:Hsh. simpl.
  assert (sections' ≡ₚ splitIntoSections rows) as Hperm.
  { destruct (sectionLocks_ok (splitIntoSections rows)) as [Hnd Hin].
    destruct (shuffleArray_spec (splitIntoSections rows) _ g Hnd Hin)
      as (_ & Hp & _).
    unfold shuffledSections in Hsh. by rewrite Hsh in Hp. }
  split.
  - etrans; [by apply concat_Permutation|]. by rewrite concat_splitIntoSections.
  - exists sections'. split_and!; [done|apply concat_splitIntoSections|done].
Qed.

(** ** The lock invariant *)

Lemma keepsLocked_app b1 b1' b2 b2' :
  keepsLocked b1 b1' → keepsLocked b2 b2' → keepsLocked (b1 ++ b2) (b1' ++ b2').
Proof.
  intros [Hl1 H1] [Hl2 H2]. split; [rewrite !length_app; lia|].
  intros k r Hk Hr. apply lookup_app_Some in Hk as [Hk|[? Hk]].
  - apply lookup_app_Some. left. by apply H1.
  - apply lookup_app_Some. right. rewrite Hl1. split; [done|]. by apply H2.
Qed.

Lemma keepsLocked_concat bs bs' :
  Forall2 keepsLocked bs bs' → keepsLocked (concat bs) (concat bs').
Proof.
  induction 1; simpl; [by split|]. by apply keepsLocked_app.
Qed.

Lemma answerLocks_ok block :
  2 ≤ length block →
  NoDup (answerLocks block) ∧
  Forall (λ x, x < length block) (answerLocks block) ∧
  ∀ k r, block !! k = Some r → locked r = true → k ∈ answerLocks block.
Proof.
  intros Hlen. unfold answerLocks. simpl.
  set (p := λ (index : nat) (row : ParsedRow),
    negb (bool_decide (index = 0)) &&
    negb (bool_decide (index = length block - 1)) && locked row).
  assert (∀ j, j ∈ indexesWhere p 0 block → j ≠ 0 ∧ j ≠ length block - 1 ∧
                                             j < length block) as Hj.
  { intros j Hin. pose proof (indexesWhere_bounds p 0 block) as Hb.
    rewrite Forall_forall in Hb. specialize (Hb j Hin).
    apply indexesWhere_elem_inv in Hin as (x & _ & _ & Hp). unfold p in Hp.
    apply andb_prop in Hp as [[H0 H1]%andb_prop _].
    apply negb_true_iff, bool_decide_eq_false in H0, H1. split_and!; [done|done|lia]. }
  split_and!.
  - apply NoDup_cons_2; [|apply NoDup_cons_2; [|apply indexesWhere_NoDup]].
    + intros [?|Hin]%elem_of_cons; [lia|]. apply Hj in Hin. lia.
    + intros Hin. apply Hj in Hin. lia.
  - constructor; [lia|]. constructor; [lia|].
    apply Forall_forall. intros j Hin. apply Hj in Hin. lia.
  - intros k r Hk Hr.
    destruct (decide (k = 0)) as [->|]; [by constructor|].
    destruct (decide (k = length block - 1)) as [->|]; [by do 2 constructor|].
    do 2 (apply elem_of_cons; right).
    apply (indexesWhere_elem p 0 block k r Hk). simpl. unfold p.
    rewrite !bool_decide_eq_false_2 by done. by rewrite Hr.
Qed.

Lemma shuffleBlock_keepsLocked block g :
  shufflableBlock block = true → keepsLocked block (shuffleBlock block g).1.
Proof.
  unfold shufflableBlock, shuffleBlock. intros Hb.
  destruct (has_type section (block !! 0)); [by split|].
  simpl in Hb. apply bool_decide_eq_true in Hb.
  destruct (answerLocks_ok block Hb) as (Hnd & Hin & Hlocked).
  destruct (shuffleArray_spec block _ g Hnd Hin) as (Hlen & _ & Hkeep).
  split; [done|]. intros k r Hk Hr. rewrite Hkeep; [done|]. by eapply Hlocked.
Qed.

Lemma reletterFrom_lookup n l i r :
  l !! i = Some r →
  ∃ r', reletterFrom n l !! i = Some r' ∧ sameButLabel r r' ∧
        (type r ≠ answer → r' = r).
Proof.
  revert n i. induction l as [|x l IH]; intros n i Hi; [done|].
  simpl. destruct i as [|i]; simplify_eq/=.
  - repeat case_decide; eexists; (split; [done|]); split; try done.
  - repeat case_decide; by apply IH.
Qed.

(** C1, as stated, fails: [shuffleSections] moves the locked question row of
    [moved_rows] from index 1 to index 2 when the two sections are swapped. *)
Lemma shuffleSections_moves_locked_row :
  ¬ (keepsLockedRows shuffleSections ∧ keepsLockedRows shuffleQuestions ∧
     keepsLockedRows shuffleAnswers).
Proof.
  intros [Hs _].
  destruct (Hs moved_rows (λ _, 0) 1
              (mkRow 2 question (js "1") (js "Q1?") (Some false) true (Some 1%Z))
              eq_refl eq_refl) as (row' & Hrow & Hid).
  vm_compute in Hrow. by simplify_eq.
Qed.

(** C1, amended: each mode keeps what it pins at its own granularity.
    [shuffleSections] keeps every section whose first row is locked at its
    position among the sections; [shuffleQuestions] keeps, within each
    section, the header block and every block whose first row is locked at
    its position among the blocks; [shuffleAnswers], on a sequence that
    segmentation covers with blocks that start with a section row or have at
    least two rows, keeps every locked row at its index, with at most its
    label changed by relettering. *)
Theorem lock_invariant_by_granularity rows g :
  keepsPinned pinnedSection (splitIntoSections rows) (shuffledSections rows g).1 ∧
  Forall2 (keepsPinned pinnedBlock)
    (splitIntoSectionsAndQuestions rows) (shuffledQuestions rows g).1 ∧
  (wellSegmented rows = true →
   ∀ i row, rows !! i = Some row → locked row = true →
     ∃ row', (shuffleAnswers rows g).1 !! i = Some row' ∧
             sameButLabel row row' ∧ (type row ≠ answer → row' = row)).
Proof.
  split_and!.
  - destruct (pinned_keeps pinnedSection (splitIntoSections rows) g)
      as (? & _ & ?). by split.
  - apply forEachRng_Forall2 with (Q := λ _, True); [|by apply Forall_true].
    intros sec g' _.
    destruct (pinned_keeps pinnedBlock sec g') as (? & _ & Hk).
    split; [done|]. intros b block Hb Hp. by apply Hk.
  - intros [Hflat Hblocks]%andb_prop i row Hi Hlocked.
    apply bool_decide_eq_true in Hflat.
    unfold shuffleAnswers.
    destruct (shuffledAnswers rows g) as [nested' g'] eqn:Hsh. simpl.
    assert (keepsLocked rows (concat (concat nested'))) as [_ Hkeep].
    { rewrite <-Hflat at 1. apply keepsLocked_concat, Forall2_concat_nested.
      replace nested' with (shuffledAnswers rows g).1 by by rewrite Hsh.
      apply forEachRng_Forall2 with (Q := λ sec, forallb shufflableBlock sec = true).
      - intros sec g1 Hsec.
        apply forEachRng_Forall2 with (Q := λ b, shufflableBlock b = true).
        + intros. by apply shuffleBlock_keepsLocked.
        + apply Forall_forall. intros b Hb. rewrite forallb_forall in Hsec.
          apply Hsec. by apply list_elem_of_In.
      - apply Forall_forall. intros sec Hsec. rewrite forallb_forall in Hblocks.
        apply Hblocks. by apply list_elem_of_In. }
    apply reletterFrom_lookup. by apply Hkeep.
Qed.

Lemma lock_invariant_witness :
  wellSegmented one_block = true ∧
  ∃ row', (shuffleAnswers one_block (λ n, n)).1 !! 4 = Some row' ∧
          sameButLabel
            (mkRow 5 answer (js "B") (js "a2") (Some true) true None) row'.
Proof.
  split; [reflexivity|].
  destruct (proj2 (proj2 (lock_invariant_by_granularity one_block (λ n, n)))
              eq_refl 4
              (mkRow 5 answer (js "B") (js "a2") (Some true) true None)
              eq_refl eq_refl) as (row' & Hrow & Hsame & _).
  by exists row'.
Defined.

(** ** Relettering *)

Lemma reletterFrom_length n l : length (reletterFrom n l) = length l.
Proof.
  revert n. induction l as [|x l IH]; intros n; simpl; [done|].
  repeat case_decide; simpl; by rewrite IH.
Qed.

Lemma reletterFrom_app n l1 l2 :
  reletterFrom n (l1 ++ l2) =
  reletterFrom n l1 ++ reletterFrom (cursorAfter n l1) l2.
Proof.
  revert n. induction l1 as [|x l1 IH]; intros n; simpl; [done|].
  unfold cursorAfter. simpl. repeat case_decide; simpl; by rewrite IH.
Qed.

Lemma reletterFrom_idem n l :
  reletterFrom n (reletterFrom n l) = reletterFrom n l.
Proof.
  revert n. induction l as [|x l IH]; intros n; simpl; [done|].
  repeat case_decide; simpl; repeat case_decide; simpl in *;
    try done; by rewrite IH.
Qed.

Lemma reletterFrom_strip n l :
  set_label [] <$> reletterFrom n l = set_label [] <$> l.
Proof.
  revert n. induction l as [|x l IH]; intros n; simpl; [done|].
  repeat case_decide; csimpl; by rewrite IH.
Qed.

Lemma fixed_block n pre q blk post :
  reletterFrom n (pre ++ q :: blk ++ post) = pre ++ q :: blk ++ post →
  type q = question → reletterFrom 0 blk = blk.
Proof.
  intros Hfix Hq. rewrite reletterFrom_app in Hfix.
  apply app_inj_1 in Hfix as [_ Hfix]; [|apply reletterFrom_length].
  simpl in Hfix. rewrite decide_True in Hfix by done.
  injection Hfix as Hfix. rewrite reletterFrom_app in Hfix.
  apply app_inj_1 in Hfix as [Hfix _]; [done|apply reletterFrom_length].
Qed.

Lemma fixed_labels k blk :
  Forall (λ r, type r ≠ question) blk → reletterFrom k blk = blk →
  answerLabels blk = letterAt <$> seq k (length (answerLabels blk)).
Proof.
  intros Hblk. revert k. unfold answerLabels.
  induction Hblk as [|r blk Hr _ IH]; intros k Hfix; [done|].
  simpl in Hfix. rewrite decide_False in Hfix by done.
  rewrite filter_cons. destruct (decide (type r = answer)) as [Ha|Ha].
  - injection Hfix as Hr' Hfix. csimpl. rewrite <-(IH _ Hfix).
    f_equal. by rewrite <-Hr' at 1.
  - injection Hfix as Hfix. by apply IH.
Qed.

Lemma first_five n :
  n ≤ 5 → letterAt <$> seq 0 n = take n letters ∧ NoDup (take n letters).
Proof.
  intros Hn. do 6 (destruct n as [|n]; [split; [done|compute_done]|]). lia.
Qed.

Lemma shuffleArray_subset {T} (arr : list T) lockedIndexes g x :
  x ∈ (shuffleArray arr lockedIndexes g).1 → x ∈ arr.
Proof.
  unfold shuffleArray.
  set (sorted := merge_sort (≤) lockedIndexes).
  set (removed := foldr (λ idx a, delete idx a) arr sorted).
  destruct (fisherYates (length removed - 1) removed g) as [shuffled g'] eqn:Hfy.
  simpl. rewrite restore_perm. intros [Hx|Hx]%elem_of_app.
  - apply elem_of_take in Hx as (i & Hx & _).
    apply list_elem_of_lookup_2, list_elem_of_omap in Hx as (idx & _ & Hx).
    by eapply list_elem_of_lookup_2.
  - assert (shuffled ≡ₚ removed) as Hperm.
    { pose proof (fisherYates_perm (length removed - 1) removed g) as Hp.
      by rewrite Hfy in Hp. }
    rewrite Hperm in Hx. eapply elem_of_sublist; [done|].
    apply sublist_foldr_delete.
Qed.

Lemma shuffleBlock_subset block g x :
  x ∈ (shuffleBlock block g).1 → x ∈ block.
Proof.
  unfold shuffleBlock. destruct (has_type _ _); [done|].
  apply shuffleArray_subset.
Qed.

Lemma shuffleBlock_perm block g :
  shufflableBlock block = true → (shuffleBlock block g).1 ≡ₚ block.
Proof.
  unfold shufflableBlock, shuffleBlock. intros Hb.
  destruct (has_type section (block !! 0)); [done|].
  simpl in Hb. apply bool_decide_eq_true in Hb.
  destruct (answerLocks_ok block Hb) as (Hnd & Hin & _).
  by destruct (shuffleArray_spec block _ g Hnd Hin) as (_ & ? & _).
Qed.

(** C3, as stated, fails: with six answer rows the sixth is labelled A
    again, so the labels are not A, B, C, D, E, F. *)
Lemma sixth_answer_repeats_A :
  ¬ (∀ rows g, letteredBy alphabet (shuffleAnswers rows g).1).
Proof.
  intros H.
  assert (∃ q blk, (shuffleAnswers six_answers (λ _, 0)).1 = q :: blk ∧
                   type q = question ∧ Forall (λ r, type r ≠ question) blk ∧
                   answerLabels blk =
                     [js "A"; js "B"; js "C"; js "D"; js "E"; js "A"])
    as (q & blk & Hout & Hq & Hblk & Hlabels).
  { eexists _, _. split; [vm_compute; reflexivity|].
    split; [done|]. split; [|done]. by repeat constructor. }
  specialize (H six_answers (λ _, 0) [] q blk []).
  rewrite app_nil_r in H. specialize (H Hout Hq Hblk).
  rewrite Hlabels in H. vm_compute in H. discriminate.
Qed.

(** C3, amended: after [shuffleAnswers] the answer rows that follow a
    question row are labelled [letters[k] || 'A'] for k = 0, 1, 2, ...: that
    is A, B, C, D, E without gaps or repeats while there are at most five,
    and A for any further one.  Only labels are rewritten: every output row
    is an input row up to its label, so [isKey] travels with the row, and on
    a well segmented input the rows without their labels are the same
    multiset. *)
Theorem shuffleAnswers_relettering rows g :
  let out := (shuffleAnswers rows g).1 in
  letteredBy letterAt out ∧
  (∀ pre q blk post,
     out = pre ++ q :: blk ++ post → type q = question →
     Forall (λ r, type r ≠ question) blk → length (answerLabels blk) ≤ 5 →
     answerLabels blk = take (length (answerLabels blk)) letters ∧
     NoDup (answerLabels blk)) ∧
  (∀ r', r' ∈ out → ∃ r, r ∈ rows ∧ sameButLabel r r') ∧
  (wellSegmented rows = true →
   set_label [] <$> out ≡ₚ set_label [] <$> rows).
Proof.
  unfold shuffleAnswers.
  destruct (shuffledAnswers rows g) as [nested' g'] eqn:Hsh. simpl.
  set (flat := concat (concat nested')).
  assert (letteredBy letterAt (reletterAnswers flat)) as Hlettered.
  { intros pre q blk post Hout Hq Hblk. apply fixed_labels; [done|].
    apply (fixed_block 0 pre q blk post); [|done].
    rewrite <-Hout. apply reletterFrom_idem. }
  split_and!; [done| | |].
  - intros pre q blk post Hout Hq Hblk Hn.
    pose proof (Hlettered pre q blk post Hout Hq Hblk) as Hl.
    destruct (first_five _ Hn) as [H5 Hnd]. rewrite H5 in Hl.
    split; [done|]. by rewrite Hl.
  - intros r' [i Hi]%list_elem_of_lookup.
    assert (is_Some (flat !! i)) as [r Hr].
    { apply lookup_lt_is_Some. apply lookup_lt_Some in Hi.
      unfold reletterAnswers in Hi. by rewrite reletterFrom_length in Hi. }
    destruct (reletterFrom_lookup 0 flat i r Hr) as (r2 & Hr2 & Hsame & _).
    unfold reletterAnswers in Hi. simplify_eq. exists r. split; [|done].
    apply segmentation_subset.
    apply list_elem_of_lookup_2 in Hr. clear Hsame Hi. revert r Hr.
    apply Forall2_subset_concat, Forall2_concat_nested.
    replace nested' with (shuffledAnswers rows g).1 by by rewrite Hsh.
    apply forEachRng_Forall2 with (Q := λ _, True); [|by apply Forall_true].
    intros sec g1 _.
    apply forEachRng_Forall2 with (Q := λ _, True); [|by apply Forall_true].
    intros block g2 _ x. apply shuffleBlock_subset.
  - intros [Hflat Hblocks]%andb_prop. apply bool_decide_eq_true in Hflat.
    unfold reletterAnswers. rewrite reletterFrom_strip. f_equiv.
    etrans; [|apply reflexive_eq, Hflat].
    apply Forall2_perm_concat, Forall2_concat_nested.
    replace nested' with (shuffledAnswers rows g).1 by by rewrite Hsh.
    apply Forall2_flip.
    apply forEachRng_Forall2 with (Q := λ sec, forallb shufflableBlock sec = true).
    + intros sec g1 Hsec. apply Forall2_flip.
      apply forEachRng_Forall2 with (Q := λ b, shufflableBlock b = true).
      * intros. by apply shuffleBlock_perm.
      * apply Forall_forall. intros b Hb. rewrite forallb_forall in Hsec.
        apply Hsec. by apply list_elem_of_In.
    + apply Forall_forall. intros sec Hsec. rewrite forallb_forall in Hblocks.
      apply Hblocks. by apply list_elem_of_In.
Qed.

Lemma relettering_witness :
  let out := (shuffleAnswers one_block (λ n, n)).1 in
  let blk := take 4 (drop 3 out) in
  wellSegmented one_block = true ∧
  answerLabels blk = [js "A"; js "B"; js "C"] ∧
  NoDup (answerLabels blk) ∧
  set_label [] <$> out ≡ₚ set_label [] <$> one_block.
Proof.
  pose proof (shuffleAnswers_relettering one_block (λ n, n))
    as (_ & Hfive & _ & Hperm).
  split; [reflexivity|].
  destruct (Hfive (take 2 (shuffleAnswers one_block (λ n, n)).1)
              (mkRow 3 question (js "1") (js "Pick one") (Some false) false
                 (Some 1%Z))
              (take 4 (drop 3 (shuffleAnswers one_block (λ n, n)).1)) [])
    as [Hlabels Hnd].
  - vm_compute. reflexivity.
  - reflexivity.
  - vm_compute. repeat constructor; discriminate.
  - vm_compute. lia.
  - split; [exact Hlabels|]. split; [exact Hnd|]. apply Hperm. reflexivity.
Defined.

(** ** Validation *)

Lemma labelAt_ext rows rows' i :
  label <$> rows = label <$> rows' → labelAt rows i = labelAt rows' i.
Proof. intros H. unfold labelAt. by rewrite <-!list_lookup_fmap, H. Qed.

Lemma hasError_ext rows rows' i lbl :
  label <$> rows = label <$> rows' → hasError rows i lbl = hasError rows' i lbl.
Proof.
  intros H. unfold hasError.
  assert (length rows = length rows') as ->
    by by rewrite <-(length_fmap label rows), H, length_fmap.
  by rewrite !(labelAt_ext rows rows' _ H).
Qed.

Lemma validateRow_label rows i r : label (validateRow rows i r).1 = label r.
Proof. unfold validateRow. by repeat case_match. Qed.

Lemma validatedRows_lookup rows i :
  validatedRows (validateParsedMcq rows) !! i =
  (λ r, (validateRow rows i r).1) <$> rows !! i.
Proof.
  unfold validateParsedMcq. case_decide as Hlen; simpl.
  { by destruct rows. }
  rewrite list_lookup_fmap, list_lookup_imap. by destruct (rows !! i).
Qed.

Lemma validatedRows_labels rows :
  label <$> validatedRows (validateParsedMcq rows) = label <$> rows.
Proof.
  apply list_eq. intros i.
  rewrite !list_lookup_fmap, validatedRows_lookup.
  destruct (rows !! i); simpl; [|done]. by rewrite validateRow_label.
Qed.

Lemma resetType_fixed t : t ≠ error →
  resetType t ≠ error ∧ resetType (resetType t) = resetType t.
Proof. unfold resetType. intros. by repeat case_decide. Qed.

Lemma validateRow_twice rows rows' i r :
  label <$> rows' = label <$> rows →
  type (validateRow rows' i (validateRow rows i r).1).1 =
  type (validateRow rows i r).1.
Proof.
  intros Hl.
  assert (∀ l, hasError rows' i l = hasError rows i l) as Hh
    by (intros; by apply hasError_ext).
  unfold validateRow. destruct (decide (type r = error)) as [He|He].
  { rewrite (bool_decide_eq_true_2 _ He). simpl. done. }
  rewrite (bool_decide_eq_false_2 _ He). simpl.
  destruct (resetType_fixed _ He) as [Hne Hfix].
  destruct (hasError rows i (label r)) eqn:Herr; simpl; [done|].
  rewrite (bool_decide_eq_false_2 _ Hne). simpl. rewrite Hh, Herr. simpl.
  done.
Qed.

(** C6: validating the validated rows again yields the same [type] for
    every row. *)
Theorem validation_idempotent rows :
  type <$> validatedRows (validateParsedMcq
                            (validatedRows (validateParsedMcq rows))) =
  type <$> validatedRows (validateParsedMcq rows).
Proof.
  apply list_eq. intros i.
  rewrite !list_lookup_fmap, (validatedRows_lookup (validatedRows _)).
  rewrite validatedRows_lookup.
  destruct (rows !! i) as [r|]; simpl; [|done]. f_equal.
  apply validateRow_twice, validatedRows_labels.
Qed.

Example validation_flags_missing_blank :
  type <$> validatedRows (validateParsedMcq
    [ mkRow 1 question (js "1") (js "Q1?") (Some false) false (Some 1%Z);
      mkRow 2 answer (js "A") (js "a1") (Some false) false None;
      mkRow 3 answer (js "B") (js "a2") (Some false) false None;
      mkRow 4 question (js "2") (js "Q2?") (Some false) false (Some 2%Z);
      mkRow 5 answer (js "A") (js "a1") (Some false) false None;
      mkRow 6 answer (js "B") (js "a2") (Some false) false None;
      mkRow 7 empty [] [] (Some false) false None ])
  = [question; answer; error; error; answer; answer; empty].
Proof. vm_compute. reflexivity. Qed.

(** ** The lines of the answer key *)

(** C7, as stated, fails: a question without a keyed answer gets no line. *)
Lemma unkeyed_question_has_no_line :
  ¬ (∀ rows startNumber,
       length (generateAnswerKey rows startNumber) =
       length (filter (λ r, type r = question) rows)).
Proof. intros H. specialize (H lone_question 1%Z). done. Qed.

Lemma segments_cons rows : ∃ seg segs, segments rows = seg :: segs.
Proof.
  induction rows as [|row rows (seg & segs & IH)]; simpl; [by eauto|].
  case_decide; [by eauto|]. rewrite IH. by eauto.
Qed.

Lemma keyedLetters_cons row seg :
  keyedLetters (row :: seg) =
  if bool_decide (type row = answer) && truthy (isKey row)
  then label row :: keyedLetters seg else keyedLetters seg.
Proof.
  unfold keyedLetters. rewrite filter_cons.
  destruct (bool_decide (type row = answer) && truthy (isKey row)) eqn:Hk.
  - apply andb_prop in Hk as [Ha%bool_decide_eq_true Hk].
    by rewrite decide_True.
  - rewrite decide_False; [done|].
    intros [Ha Hk']. by rewrite Hk', (bool_decide_eq_true_2 _ Ha) in Hk.
Qed.

Lemma answerKeyLoop_spec rows answerKey n cur :
  answerKeyLoop rows answerKey n cur =
  answerKey ++ emit (n - 1) (prepend cur (keyedLetters <$> segments rows)).
Proof.
  revert answerKey n cur.
  induction rows as [|row rows IH]; intros answerKey n cur; simpl.
  { rewrite app_nil_r. destruct cur; simpl; by rewrite ?app_nil_r. }
  destruct (segments_cons rows) as (seg & segs & Hsegs).
  case_decide as Hq.
  - simpl. replace (n - 1 + 1)%Z with (n + 1 - 1)%Z by lia.
    rewrite app_nil_r.
    assert (emit (n + 1 - 1) (prepend [] (keyedLetters <$> segments rows)) =
            emit (n + 1 - 1) (keyedLetters <$> segments rows)) as Hpre
      by by rewrite Hsegs.
    destruct cur as [|c cur]; simpl.
    + by rewrite IH, Hpre.
    + by rewrite IH, Hpre, <-app_assoc.
  - rewrite Hsegs in *. csimpl. rewrite keyedLetters_cons.
    destruct (bool_decide (type row = answer) && truthy (isKey row)).
    + rewrite IH. csimpl. by rewrite <-app_assoc.
    + by rewrite IH.
Qed.

Lemma emit_length n groups :
  Forall (λ g, g ≠ []) groups → length (emit n groups) = length groups.
Proof.
  intros Hall. revert n. induction Hall as [|g gs Hg _ IH]; intros n; [done|].
  simpl. rewrite decide_False by done. simpl. by rewrite IH.
Qed.

(** C7, amended: cut the rows at the question rows; [generateAnswerKey]
    emits one line for each segment that holds a keyed answer, and none for
    the others.  While the counter is safe, the line of the i-th question
    is numbered [startNumber + i - 1] and lists the labels of its keyed
    answers.  So there is exactly one line per question row when every
    question has a keyed answer and no keyed answer comes before the first
    question. *)
Theorem generateAnswerKey_lines rows startNumber :
  (safeCounter startNumber rows →
   generateAnswerKey rows startNumber =
     emit (startNumber - 1) (keyedLetters <$> segments rows)) ∧
  length (segments rows) = S (length (filter (λ r, type r = question) rows)) ∧
  (∀ seg segs,
     segments rows = seg :: segs → keyedLetters seg = [] →
     Forall (λ s, keyedLetters s ≠ []) segs →
     length (generateAnswerKey rows startNumber) =
     length (filter (λ r, type r = question) rows)).
Proof.
  assert (generateAnswerKey rows startNumber =
          emit (startNumber - 1) (keyedLetters <$> segments rows)) as Hlines.
  { unfold generateAnswerKey. rewrite answerKeyLoop_spec. simpl.
    by destruct (segments_cons rows) as (seg & segs & ->). }
  assert (length (segments rows) =
          S (length (filter (λ r, type r = question) rows))) as Hcount.
  { clear Hlines. induction rows as [|row rows IH]; simpl; [done|].
    rewrite filter_cons. case_decide; simpl; [by rewrite IH|].
    destruct (segments_cons rows) as (seg & segs & Hs). by rewrite Hs in *. }
  split_and!; [done|done|].
  intros seg segs Hsegs Hfirst Hrest.
  rewrite Hlines, Hsegs in *. csimpl. rewrite Hfirst. simpl.
  rewrite emit_length by (apply Forall_fmap; exact Hrest).
  rewrite length_fmap. simpl in Hcount. lia.
Qed.

Lemma generateAnswerKey_lines_witness :
  safeCounter 1 keyed_questions ∧
  generateAnswerKey keyed_questions 1 =
    emit (1 - 1) (keyedLetters <$> segments keyed_questions) ∧
  length (generateAnswerKey keyed_questions 1) =
  length (filter (λ r, type r = question) keyed_questions).
Proof.
  assert (safeCounter 1 keyed_questions) as Hsafe.
  { unfold safeCounter, safeInteger. simpl. lia. }
  split; [exact Hsafe|]. split.
  - exact (proj1 (generateAnswerKey_lines keyed_questions 1) Hsafe).
  - eapply (proj2 (proj2 (generateAnswerKey_lines keyed_questions 1))).
    + reflexivity.
    + reflexivity.
    + repeat constructor; discriminate.
Defined.

(** ** The parsing scenario *)

(** C4, as stated, fails: the text starts with a question marker, so no
    implicit section precedes the first question. *)
Lemma no_implicit_section_before_first_question :
  ¬ (∃ rows, parseMcq two_questions = Value rows ∧ scenario_as_told rows).
Proof.
  intros (rows & Hrows & tail & Hkinds & _).
  vm_compute in Hrows. injection Hrows as <-. vm_compute in Hkinds. discriminate.
Qed.

(** C4, amended: the scenario parses to the two question blocks, each
    closed by one blank row, and nothing else. *)
Theorem parseMcq_two_questions :
  parseMcq two_questions = Value
    [ createRow 1 question (js "1") (js "Q1?") (Some 1%Z);
      createRow 2 answer (js "A") (js "a1") None;
      createRow 3 answer (js "B") (js "a2") None;
      createRow 4 empty [] [] None;
      createRow 5 question (js "2") (js "Q2?") (Some 2%Z);
      createRow 6 answer (js "A") (js "a1") None;
      createRow 7 answer (js "B") (js "a2") None;
      createRow 8 empty [] [] None ].
Proof. vm_compute. reflexivity. Qed.

(** ** The pattern matcher finds the matches *)

Lemma rep_sound mr k r0 :
  (∀ st k res, mr st k = Some res → ∃ st', Matches r0 st st' ∧ k st' = Some res) →
  ∀ fuel mn mx st res,
    rep mr k fuel mn mx st = Some res →
    ∃ st', Matches (Repeat mn mx r0) st st' ∧ k st' = Some res.
Proof.
  intros Hmr fuel. induction fuel as [|fuel IH]; intros mn mx st res; [done|].
  simpl. case_decide as Hmx.
  { intros Hk. exists st. split; [|done]. apply Matches_Repeat_done. by right. }
  set (again := mr st _).
  assert (∀ res, again = Some res →
            ∃ st', Matches (Repeat mn mx r0) st st' ∧ k st' = Some res) as Hag.
  { intros res' (st1 & Hst1 & Hcont)%Hmr. case_decide as Hprog; [done|].
    apply IH in Hcont as (st2 & Hst2 & Hk). exists st2. split; [|done].
    eapply Matches_Repeat_step; eauto. }
  case_decide as Hmn; [|by apply Hag].
  destruct again as [res'|] eqn:Ha.
  - intros [= <-]. by apply Hag.
  - intros Hk. exists st. split; [|done]. apply Matches_Repeat_done. by left.
Qed.

Lemma m_sound r st k res :
  m r st k = Some res → ∃ st', Matches r st st' ∧ k st' = Some res.
Proof.
  revert st k res.
  induction r as [|p|r1 IH1 r2 IH2|r1 IH1 r2 IH2|mn mx r IH|n r IH|r IH|ml|ml];
    intros st k res; [simpl..|apply (rep_sound (m r) k r IH)|simpl|simpl|simpl|simpl].
  - intros. exists st. split; [constructor|done].
  - destruct st as [[|c cs] i pv cp]; simpl; [done|].
    destruct (p c) eqn:Hp; [|done]. intros. eexists. split; [|done].
    by constructor.
  - intros (st1 & H1 & (st2 & H2 & Hk)%IH2)%IH1. exists st2.
    split; [|done]. by econstructor.
  - destruct (m r1 st k) as [res1|] eqn:H1.
    + intros [= <-]. apply IH1 in H1 as (st1 & ? & ?). exists st1.
      split; [|done]. by apply Matches_Alt_l.
    + intros (st2 & ? & ?)%IH2. exists st2. split; [|done].
      by apply Matches_Alt_r.
  - intros (st1 & H1 & Hk)%IH. eexists. split; [|done]. by constructor.
  - destruct (m r st Some) eqn:Hr; [done|]. intros. exists st.
    split; [by constructor|done].
  - destruct (atLineStart ml st) eqn:Hb; [|done]. intros. exists st.
    split; [by constructor|done].
  - destruct (atLineEnd ml st) eqn:Hb; [|done]. intros. exists st.
    split; [by constructor|done].
Qed.

(** What a match consumes is a prefix of what was left. *)
Lemma Matches_consumed r st st' :
  Matches r st st' →
  ∃ cs, rest st = cs ++ rest st' ∧ pos st' = pos st + length cs.
Proof.
  induction 1 as [st|p c cs i pv cp|r1 r2 st st1 st2 _ [cs1 [? ?]] _ [cs2 [? ?]]
                  | | | |mn mx r st st1 st2 _ _ [cs1 [? ?]] _ _ [cs2 [? ?]]
                  |n r st st1 _ [cs [? ?]]| | |]; simpl in *;
    try (by exists []; simpl; split; [done|lia]); try done.
  - exists [c]. simpl. split; [done|lia].
  - exists (cs1 ++ cs2). rewrite <-app_assoc, length_app. split; [congruence|lia].
  - exists (cs1 ++ cs2). rewrite <-app_assoc, length_app. split; [congruence|lia].
  - by exists cs.
Qed.

Lemma Matches_pos r st st' :
  Matches r st st' →
  pos st ≤ pos st' ∧ pos st' + length (rest st') = pos st + length (rest st).
Proof.
  intros (cs & Hr & Hp)%Matches_consumed. rewrite Hr, Hp, length_app. lia.
Qed.

Lemma Matches_minLen r st st' :
  Matches r st st' → pos st + minLen r ≤ pos st'.
Proof.
  induction 1 as [st|p c cs i pv cp|r1 r2 st st1 st2 _ IH1 _ IH2
                  |r1 r2 st st1 _ IH|r1 r2 st st1 _ IH|mn mx r st Hd
                  |mn mx r st st1 st2 Hmx H1 IH1 Hp H2 IH2
                  |n r st st1 _ IH| | |]; simpl in *; try lia.
  - destruct Hd as [->| ->]; [destruct mx; simpl; lia|].
    rewrite Nat.min_0_r. simpl. lia.
  - apply Matches_pos in H1 as [? _].
    destruct mx as [[|M]|], mn as [|mn]; simpl in *; try done; lia.
Qed.

Lemma rep_complete r0 :
  (∀ st st' k, Matches r0 st st' → is_Some (k st') → is_Some (m r0 st k)) →
  ∀ rr st st'', Matches rr st st'' →
  ∀ mn mx, rr = Repeat mn mx r0 →
  ∀ k fuel, mn + length (rest st) < fuel → is_Some (k st'') →
    is_Some (rep (m r0) k fuel mn mx st).
Proof.
  intros Hr0 rr st st'' HM.
  induction HM as [| | | | |mn' mx' r st Hd
                   |mn' mx' r st st1 st2 Hmx H1 _ Hp H2 IH2| | | |];
    intros mn mx Heq k fuel Hfuel Hk; simplify_eq.
  - destruct fuel as [|fuel]; [lia|]. simpl.
    case_decide; [done|]. destruct Hd as [->|?]; [|done].
    rewrite decide_True by done. by case_match.
  - destruct fuel as [|fuel]; [lia|]. simpl.
    rewrite decide_False by done.
    assert (is_Some (m r0 st (λ st' : mstate,
              if decide (mn = 0 ∧ pos st' = pos st) then None
              else rep (m r0) k fuel (pred mn) (pred <$> mx) st'))) as Hag.
    { apply (Hr0 _ st1); [done|].
      rewrite decide_False by (intros [? ?]; by apply Hp).
      apply IH2; [done| |done].
      apply Matches_pos in H1 as [? ?].
      destruct (decide (mn = 0)) as [->|]; [specialize (Hp eq_refl)|]; lia. }
    case_decide; [|done]. by destruct Hag as [? ->].
Qed.

Lemma m_complete r st st' k :
  Matches r st st' → is_Some (k st') → is_Some (m r st k).
Proof.
  revert st st' k.
  induction r as [|p|r1 IH1 r2 IH2|r1 IH1 r2 IH2|mn mx r IH|n r IH|r IH|ml|ml];
    intros st st' k HM Hk.
  - by inversion HM; subst.
  - inversion HM; subst. simpl. by rewrite H0.
  - inversion HM; subst. simpl. eapply IH1; [done|]. by eapply IH2.
  - simpl. inversion HM; subst.
    + by destruct (IH1 _ _ k H3 Hk) as [? ->].
    + destruct (m r1 st k); [done|]. by eapply IH2.
  - apply (rep_complete r IH _ st st' HM mn mx eq_refl); [lia|done].
  - inversion HM; subst. simpl. by eapply IH.
  - inversion HM; subst. simpl. by rewrite H0.
  - inversion HM; subst. simpl. by rewrite H0.
  - inversion HM; subst. simpl. by rewrite H0.
Qed.

(** ** Searching for a match *)

Lemma scan_Some r suffix i before mt :
  scan r suffix i before = Some mt →
  ∃ j pv st',
    index mt = i + j ∧ j ≤ length suffix ∧
    Matches r (MState (drop j suffix) (i + j) pv (λ _, None)) st' ∧
    stop mt = pos st' ∧ groups mt = caps st'.
Proof.
  revert i before. induction suffix as [|c suffix IH]; intros i before; simpl.
  - destruct (m r _ Some) as [st|] eqn:Hm; [|done]. intros [= <-].
    apply m_sound in Hm as (st' & HM & [= <-]).
    exists 0, before, st'. rewrite Nat.add_0_r. by split_and!.
  - destruct (m r _ Some) as [st|] eqn:Hm.
    + intros [= <-]. apply m_sound in Hm as (st' & HM & [= <-]).
      exists 0, before, st'. rewrite Nat.add_0_r. split_and!; simpl; try done; lia.
    + intros (j & pv & st' & ? & ? & HM & ? & ?)%IH.
      exists (S j), pv, st'. simpl.
      replace (i + S j) with (S i + j) by lia. split_and!; try done; lia.
Qed.

Lemma scan_here r suffix i before :
  is_Some (m r (MState suffix i before (λ _, None)) Some) →
  ∃ st, Matches r (MState suffix i before (λ _, None)) st ∧
        scan r suffix i before = Some (Matched i (pos st) (caps st)).
Proof.
  intros [st Hm]. exists st. split.
  - by apply m_sound in Hm as (st' & HM & [= <-]).
  - destruct suffix; simpl; by rewrite Hm.
Qed.

Lemma exec_Some r s lastIndex mt :
  exec r s lastIndex = Some mt →
  lastIndex ≤ index mt ∧ index mt + minLen r ≤ stop mt ∧ stop mt ≤ length s ∧
  ∃ pv st',
    Matches r (MState (drop (index mt) s) (index mt) pv (λ _, None)) st' ∧
    stop mt = pos st' ∧ groups mt = caps st'.
Proof.
  unfold exec. case_decide; [done|].
  intros (j & pv & st' & Hi & Hj & HM & Hs & Hg)%scan_Some.
  rewrite drop_drop in HM. rewrite length_drop in Hj. rewrite <-Hi in HM.
  pose proof (Matches_minLen _ _ _ HM) as Hmin.
  apply Matches_pos in HM as Hpos. simpl in *. rewrite length_drop in Hpos.
  split_and!; [lia|lia|lia|]. by exists pv, st'.
Qed.

(** ** Inversion of matches *)

Ltac invert H := inversion H; subst; clear H.

Lemma Matches_caps n r st st' :
  Matches r st st' → mentions n r = false → caps st' n = caps st n.
Proof.
  induction 1 as [| |r1 r2 st st1 st2 _ IH1 _ IH2| | | |
                  mn mx r st st1 st2 _ _ IH1 _ _ IH2|k r st st1 _ IH| | |];
    simpl; intros Hn; try done.
  - apply orb_false_elim in Hn as [? ?]. by rewrite IH2, IH1.
  - apply orb_false_elim in Hn as [? ?]. auto.
  - apply orb_false_elim in Hn as [? ?]. auto.
  - by rewrite IH2, IH1.
  - apply orb_false_elim in Hn as [Hk%bool_decide_eq_false ?].
    rewrite decide_False by done. auto.
Qed.

Lemma repeat_chars rr st st' :
  Matches rr st st' → ∀ mn mx q, rr = Repeat mn mx (Char q) →
  ∃ cs, rest st = cs ++ rest st' ∧ pos st' = pos st + length cs ∧
        caps st' = caps st ∧ Forall (λ c, q c = true) cs ∧
        (match mx with Some M => mn `min` M | None => mn end) ≤ length cs ∧
        (∀ M, mx = Some M → length cs ≤ M).
Proof.
  induction 1 as [| | | | |mn' mx' r st Hd
                  |mn' mx' r st st1 st2 Hmx H1 _ Hp H2 IH2| | | |];
    intros mn mx q Heq; simplify_eq.
  - exists []. simpl. split_and!; try done; try lia.
    destruct Hd as [->| ->]; [destruct mx|]; lia.
  - destruct (IH2 _ _ _ eq_refl) as (cs & Hr & Hpos & Hc & Hall & Hmin & Hmax).
    invert H1. simpl in *. exists (c :: cs). simpl.
    split_and!; try done; [by f_equal|lia|by constructor| |].
    + destruct mx as [[|M]|], mn as [|mn]; simpl in *; try done; lia.
    + intros M ->. destruct M as [|M]; [done|]. specialize (Hmax M eq_refl). lia.
Qed.

Lemma repeat_chars_intro p cs : Forall (λ c, p c = true) cs →
  ∀ mn mx tl i pv cp,
    mn ≤ length cs → (∀ M, mx = Some M → length cs ≤ M) →
    Matches (Repeat mn mx (Char p)) (MState (cs ++ tl) i pv cp)
            (MState tl (i + length cs) (prevAfter pv cs) cp).
Proof.
  induction 1 as [|c cs Hc _ IH]; intros mn mx tl i pv cp Hmn Hmx; simpl in *.
  - rewrite Nat.add_0_r. apply Matches_Repeat_done. left. lia.
  - eapply Matches_Repeat_step.
    + intros ->. specialize (Hmx 0 eq_refl). lia.
    + by apply Matches_Char.
    + simpl. lia.
    + replace (i + S (length cs)) with (S i + length cs) by lia.
      replace (prevAfter pv (c :: cs)) with (prevAfter (Some c) cs).
      2:{ unfold prevAfter. rewrite last_cons. by destruct (last cs). }
      apply IH; [lia|].
      intros M HM. destruct mx as [M'|]; [|done]. simpl in HM.
      specialize (Hmx M' eq_refl). injection HM as <-. lia.
Qed.

Lemma Matches_Char_inv p st st' :
  Matches (Char p) st st' →
  ∃ c, rest st = c :: rest st' ∧ p c = true ∧ pos st' = S (pos st) ∧
       caps st' = caps st.
Proof. intros H. invert H. by exists c. Qed.

Lemma Matches_Group_inv n r st st' :
  Matches (Group n r) st st' →
  ∃ st1, Matches r st st1 ∧ rest st' = rest st1 ∧ pos st' = pos st1 ∧
         caps st' n = Some (pos st, pos st1) ∧
         ∀ i, i ≠ n → caps st' i = caps st1 i.
Proof.
  intros H. invert H. eexists. split; [done|]. simpl.
  split_and!; try done.
  - by rewrite decide_True.
  - intros i ?. by rewrite decide_False.
Qed.

Lemma Matches_Seq_inv r1 r2 st st'' :
  Matches (Seq r1 r2) st st'' → ∃ st', Matches r1 st st' ∧ Matches r2 st' st''.
Proof. intros H. invert H. eauto. Qed.

Lemma Matches_Empty_inv st st' : Matches Empty st st' → st' = st.
Proof. intros H. by invert H. Qed.

Lemma Matches_Bol_inv ml st st' :
  Matches (Bol ml) st st' → st' = st ∧ atLineStart ml st = true.
Proof. intros H. by invert H. Qed.

Lemma Matches_Alt_inv r1 r2 st st' :
  Matches (Alt r1 r2) st st' → Matches r1 st st' ∨ Matches r2 st st'.
Proof. intros H. invert H; auto. Qed.

(** ** The loops of the parser stop *)

Lemma answersLoop_total fuel answersText lastIndex startId rows :
  lastIndex ≤ length answersText → length answersText < fuel + lastIndex →
  ∃ rows', answersLoop fuel answersText lastIndex startId rows = Value rows' ∧
           (Forall questionOrAnswer rows → Forall questionOrAnswer rows').
Proof.
  revert lastIndex rows.
  induction fuel as [|fuel IH]; intros lastIndex rows Hle Hfuel; [lia|].
  simpl. destruct (exec answerPattern answersText lastIndex) as [mt|] eqn:He.
  2:{ by exists rows. }
  apply exec_Some in He as (? & Hmin & ? & _).
  change (minLen answerPattern) with 4 in Hmin.
  case_match.
  - apply IH; lia.
  - edestruct (IH (stop mt)) as (rows' & -> & Hrows'); [lia|lia|].
    eexists. split; [done|]. intros Hrows. apply Hrows'.
    apply Forall_app. split; [done|]. constructor; [|done].
    match goal with
    | |- questionOrAnswer (if ?b then _ else _) => destruct b
    end; by right.
Qed.

Lemma parseQuestionBlockFlexible_total block startId :
  parseQuestionBlockFlexible block startId = Thrown ∨
  ∃ rows, parseQuestionBlockFlexible block startId = Value rows ∧
          Forall questionOrAnswer rows.
Proof.
  unfold parseQuestionBlockFlexible.
  destruct (exec questionPattern block 0) as [qm|]; [|by left].
  case_match; [by left|]. right.
  match goal with
  | |- context [let '(_, _) := ?x in _] =>
      destruct x as [questionText answersText]
  end.
  destruct (nonEmpty answersText).
  - match goal with
    | |- context [answersLoop ?f ?t ?i ?s ?r] =>
        destruct (answersLoop_total f t i s r) as (rows & -> & Hrows);
          [lia|lia|]
    end.
    exists rows. split; [done|]. apply Hrows. repeat constructor.
  - eexists. split; [done|]. repeat constructor.
Qed.

Lemma blocksLoop_total fuel normalized lastIndex blocks out :
  lastIndex ≤ length normalized → length normalized < fuel + lastIndex →
  ∃ res, blocksLoop fuel normalized lastIndex blocks out = Value res.
Proof.
  revert lastIndex blocks out.
  induction fuel as [|fuel IH]; intros lastIndex blocks out Hle Hfuel; [lia|].
  simpl. destruct (exec blockStartPattern normalized lastIndex) as [mt|] eqn:He.
  2:{ by eexists. }
  apply exec_Some in He as (? & Hmin & ? & _).
  change (minLen blockStartPattern) with 2 in Hmin.
  destruct (exec blockStartPattern normalized (stop mt)) as [nm|] eqn:Hn.
  2:{ by eexists. }
  apply exec_Some in Hn as (? & Hmin' & ? & _).
  change (minLen blockStartPattern) with 2 in Hmin'.
  apply IH; lia.
Qed.

Lemma processBlock_total normalized out b :
  ∃ out', processBlock normalized (Value out) b = Value out'.
Proof.
  unfold processBlock. destruct (btype b); [|by eexists].
  destruct (parseQuestionBlockFlexible_total (btext b) out.2)
    as [->|(rows & -> & _)]; by eexists.
Qed.

Lemma processBlocks_total normalized blocks out :
  ∃ out', foldl (processBlock normalized) (Value out) blocks = Value out'.
Proof.
  revert out. induction blocks as [|b blocks IH]; intros out.
  { by eexists. }
  cbn [foldl].
  destruct (processBlock_total normalized out b) as [out' ->]. apply IH.
Qed.

Lemma parseMcq_total input : ∃ rows, parseMcq input = Value rows.
Proof.
  unfold parseMcq. case_match; [by eexists|].
  destruct (blocksLoop_total (S (length (normalize input))) (normalize input)
              0 [] ([], 0%Z)) as [[blocks out] ->]; [lia|lia|].
  case_decide.
  { case_match; by eexists. }
  destruct (processBlocks_total (normalize input) blocks out) as [out' ->].
  by eexists.
Qed.

(** ** Question blocks always parse *)

Lemma blockStart_shape suf idx pv st' :
  Matches blockStartPattern (MState suf idx pv (λ _, None)) st' →
  (caps st' 2 = None ∧
   ∃ ws ds c tl,
     suf = ws ++ ds ++ c :: tl ∧
     Forall (λ c, isSpace c = true) ws ∧ Forall (λ c, isDigit c = true) ds ∧
     1 ≤ length ds ≤ 3 ∧ oneOf ".)" c = true ∧
     pos st' = idx + length ws + length ds + 1) ∨
  (∃ a b, caps st' 2 = Some (a, b) ∧ a + 3 ≤ b ∧ b ≤ pos st').
Proof.
  unfold blockStartPattern, Seqs, Star. simpl.
  intros (st1 & [-> _]%Matches_Bol_inv &
          (st2 & Hws & (st3 & Halt & ->%Matches_Empty_inv)%Matches_Seq_inv)
            %Matches_Seq_inv)%Matches_Seq_inv.
  destruct (repeat_chars _ _ _ Hws _ _ _ eq_refl)
    as (ws & Hrws & Hpws & Hcws & Hall & _).
  simpl in *. apply Matches_Alt_inv in Halt as [Hq|Hs].
  - left.
    apply Matches_Seq_inv in Hq
      as (st4 & (st5 & Hds & Hr5 & Hp5 & _ & Hc5)%Matches_Group_inv &
          (st6 & Hc & ->%Matches_Empty_inv)%Matches_Seq_inv).
    destruct (repeat_chars _ _ _ Hds _ _ _ eq_refl)
      as (ds & Hrds & Hpds & Hcds & Halld & Hmin & Hmax).
    apply Matches_Char_inv in Hc as (c & Hrc & Hpc & Hposc & Hcapsc).
    split.
    + by rewrite Hcapsc, Hc5, Hcds, Hcws.
    + exists ws, ds, c, (rest st6). simpl in Hmin. specialize (Hmax 3 eq_refl).
      split_and!; try done; try lia.
      by rewrite Hrws, Hrds, <-Hr5, Hrc.
  - right. apply Matches_Group_inv in Hs as (st4 & Hsec & _ & Hp4 & Hc2 & _).
    apply Matches_minLen in Hsec. simpl in Hsec.
    eexists _, _. split; [done|]. lia.
Qed.

Lemma nonEmpty_length s : nonEmpty s = true ↔ 0 < length s.
Proof. destruct s; simpl; split; (done || lia). Qed.

Lemma questionPattern_matches block :
  questionLike block →
  ∃ qm, exec questionPattern block 0 = Some qm ∧
        truthyStr (group block qm 1) = true ∧
        truthyStr (group block qm 0) = true.
Proof.
  intros (ws & ds & c & tl & -> & Hws & Hds & Hlen & Hc).
  set (block := ws ++ ds ++ c :: tl).
  destruct (scan_here questionPattern block 0 None) as (st & HM & Hscan).
  { eapply m_complete; [|done].
    unfold questionPattern, Seqs, Star, Opt. simpl.
    eapply Matches_Seq; [by apply Matches_Bol|].
    eapply Matches_Seq;
      [apply (repeat_chars_intro isSpace ws Hws 0 None); [lia|done]|].
    eapply Matches_Seq;
      [apply Matches_Group, (repeat_chars_intro isDigit ds Hds 1 (Some 3));
         [lia|intros M [= <-]; lia]|].
    unfold set_cap. simpl.
    eapply Matches_Seq; [by apply Matches_Char|].
    do 3 (eapply Matches_Seq; [apply Matches_Repeat_done; by left|]).
    apply Matches_Empty. }
  exists (Matched 0 (pos st) (caps st)). split.
  { unfold exec. by rewrite decide_False by lia. }
  revert HM. unfold questionPattern, Seqs, Star, Opt. simpl.
  intros (st1 & [-> _]%Matches_Bol_inv &
          (st2 & Hws' &
           (st4 & (st5 & Hds' & Hr5 & Hp5 & Hc1 & _)%Matches_Group_inv & Htail)
             %Matches_Seq_inv)%Matches_Seq_inv)%Matches_Seq_inv.
  destruct (repeat_chars _ _ _ Hws' _ _ _ eq_refl)
    as (ws' & Hrws & Hpws & _ & _ & _ & _).
  destruct (repeat_chars _ _ _ Hds' _ _ _ eq_refl)
    as (ds' & Hrds & Hpds & _ & _ & Hmin & _).
  simpl in Hrws, Hpws, Hmin.
  pose proof (Matches_caps 1 _ _ _ Htail eq_refl) as Hcaps.
  apply Matches_pos in Htail as [Htail _].
  rewrite Hc1 in Hcaps. unfold group. simpl. rewrite Hcaps. simpl.
  unfold substring. split; apply nonEmpty_length.
  - rewrite Hrws, Hpws, Hpds, drop_app_length, Hrds.
    rewrite length_take, length_app. lia.
  - rewrite Nat.sub_0_r, drop_0, length_take, Hrws, Hrds, !length_app. lia.
Qed.

Lemma questionLike_not_thrown block startId :
  questionLike block → parseQuestionBlockFlexible block startId ≠ Thrown.
Proof.
  intros (qm & Hqm & H1 & H0)%questionPattern_matches.
  unfold parseQuestionBlockFlexible. rewrite Hqm, H1, H0. cbn [negb orb].
  match goal with
  | |- context [let '(_, _) := ?x in _] =>
      destruct x as [questionText answersText]
  end.
  destruct (nonEmpty answersText); [|done].
  match goal with
  | |- context [answersLoop ?f ?t ?i ?s ?r] =>
      destruct (answersLoop_total f t i s r) as (rows & -> & _); [lia|lia|]
  end.
  done.
Qed.

Lemma push_noError mk out :
  (∀ i, noError (mk i)) → Forall noError out.1 → Forall noError (push mk out).1.
Proof.
  intros Hmk Hout. unfold push. simpl. apply Forall_app. split; [done|].
  by repeat constructor.
Qed.

Lemma pushSection_noError title out :
  Forall noError out.1 → Forall noError (pushSection title out).1.
Proof. intros. unfold pushSection. by do 2 (apply push_noError; [done|]). Qed.

Lemma take_app_more {A} (l1 l2 : list A) n :
  length l1 ≤ n → take n (l1 ++ l2) = l1 ++ take (n - length l1) l2.
Proof. intros. by rewrite take_app, take_ge by lia. Qed.

Lemma blockStart_okBlock s lastIndex mt end_ :
  exec blockStartPattern s lastIndex = Some mt →
  stop mt ≤ end_ →
  okBlock (mkBlock (substring (index mt) end_ s)
             (if truthyStr (group s mt 2) then sectionBlock else questionBlock)
             mt).
Proof.
  intros (_ & _ & Hstop & pv & st' & HM & Hs & Hg)%exec_Some Hend.
  unfold okBlock. simpl.
  apply blockStart_shape in HM
    as [(_ & ws & ds & c & tl & Hdrop & Hws & Hds & Hlen & Hc & Hpos)
       |(a & b & Hcap & Hab & Hb)].
  - intros _. unfold substring. rewrite Hdrop.
    exists ws, ds, c, (take (end_ - index mt - length ws - length ds - 1) tl).
    destruct Hlen. split_and!; try done.
    rewrite take_app_more by lia. f_equal.
    rewrite take_app_more by lia. f_equal.
    destruct (end_ - index mt - length ws - length ds) eqn:E; [lia|].
    simpl. by rewrite Nat.sub_0_r.
  - unfold group. rewrite Hg, Hcap. simpl.
    assert (nonEmpty (substring a b s) = true) as ->; [|done].
    apply nonEmpty_length. unfold substring. rewrite length_take, length_drop. lia.
Qed.

Lemma blocksLoop_ok fuel s lastIndex blocks out blocks' out' :
  blocksLoop fuel s lastIndex blocks out = Value (blocks', out') →
  Forall okBlock blocks → Forall noError out.1 →
  Forall okBlock blocks' ∧ Forall noError out'.1.
Proof.
  revert lastIndex blocks out.
  induction fuel as [|fuel IH]; intros lastIndex blocks out; [done|].
  simpl. destruct (exec blockStartPattern s lastIndex) as [mt|] eqn:He.
  2:{ intros [= <- <-]. done. }
  intros Hloop Hblocks Hout.
  set (out1 := if bool_decide (length blocks = 0) && bool_decide (0 < index mt)
               then _ else out) in Hloop.
  assert (Forall noError out1.1) as Hout1.
  { unfold out1. destruct (_ && _); [|done].
    destruct (nonEmpty _); [|done]. by apply pushSection_noError. }
  pose proof (exec_Some _ _ _ _ He) as (_ & _ & Hstop & _).
  destruct (exec blockStartPattern s (stop mt)) as [nm|] eqn:Hn.
  - apply exec_Some in Hn as (? & _).
    apply IH in Hloop; [done| |done].
    apply Forall_app. split; [done|]. constructor; [|done].
    by apply (blockStart_okBlock s lastIndex).
  - injection Hloop as <- <-. split; [|done].
    apply Forall_app. split; [done|]. constructor; [|done].
    by apply (blockStart_okBlock s lastIndex).
Qed.

Lemma processBlock_noError normalized out b out' :
  processBlock normalized (Value out) b = Value out' →
  okBlock b → Forall noError out.1 → Forall noError out'.1.
Proof.
  unfold processBlock. intros Hp Hok Hout. destruct (btype b) eqn:Hb.
  - specialize (Hok Hb).
    pose proof (questionLike_not_thrown _ out.2 Hok) as Hnt.
    destruct (parseQuestionBlockFlexible_total (btext b) out.2)
      as [?|(rows & Hrows & Htypes)]; [done|].
    rewrite Hrows in Hp. injection Hp as <-.
    apply push_noError; [done|].
    clear Hrows Hnt. revert out Hout.
    induction Htypes as [|row rows Hrow _ IH]; intros out Hout; [done|].
    cbn [foldl]. apply IH, push_noError; [|done].
    intros i. unfold noError. simpl. by destruct Hrow as [-> | ->].
  - injection Hp as <-. by apply pushSection_noError.
Qed.

Lemma processBlocks_noError normalized blocks out out' :
  foldl (processBlock normalized) (Value out) blocks = Value out' →
  Forall okBlock blocks → Forall noError out.1 → Forall noError out'.1.
Proof.
  revert out. induction blocks as [|b blocks IH]; intros out.
  { by intros [= <-]. }
  cbn [foldl]. intros Hfold Hok Hout. inversion_clear Hok as [|?? Hb Hbs].
  destruct (processBlock_total normalized out b) as [out1 Hout1].
  rewrite Hout1 in Hfold. eapply IH; [done|done|].
  by eapply processBlock_noError.
Qed.

(** ** The lines of an answer key text *)

Lemma dropWhile_elem {A} (p : A → bool) l c :
  c ∈ l → p c = false → c ∈ dropWhile p l.
Proof.
  induction l as [|x l IH]; [done|]. simpl.
  intros [->|Hc]%elem_of_cons Hp.
  - rewrite Hp. by left.
  - destruct (p x); [by apply IH|]. by right.
Qed.

Lemma dropWhile_head {A} (p : A → bool) l c l' :
  dropWhile p l = c :: l' → p c = false ∧ c ∈ l.
Proof.
  induction l as [|x l IH]; [done|]. simpl.
  destruct (p x) eqn:Hx.
  - intros [? ?]%IH. split; [done|by right].
  - intros [= <- <-]. split; [done|by left].
Qed.

Lemma dropWhile_subset {A} (p : A → bool) l c : c ∈ dropWhile p l → c ∈ l.
Proof.
  induction l as [|x l IH]; [done|]. simpl.
  destruct (p x); [intros ?%IH; by right|done].
Qed.

Lemma trim_nonEmpty s :
  nonEmpty (trim s) = true ↔ ∃ c, c ∈ s ∧ isSpace c = false.
Proof.
  unfold trim. split.
  - destruct (dropWhile isSpace (reverse (dropWhile isSpace s)))
      as [|c l'] eqn:Hd; [done|].
    intros _. apply dropWhile_head in Hd as [? Hc]. exists c. split; [|done].
    by apply elem_of_reverse, dropWhile_subset in Hc.
  - intros (c & Hc & Hsp).
    assert (c ∈ reverse (dropWhile isSpace (reverse (dropWhile isSpace s))))
      as Hin.
    { by apply elem_of_reverse, dropWhile_elem;
        [apply elem_of_reverse, dropWhile_elem|]. }
    by destruct (reverse _); [apply elem_of_nil in Hin|].
Qed.

Lemma split_subset sep s line c : line ∈ split sep s → c ∈ line → c ∈ s.
Proof.
  revert line. induction s as [|x s IH]; intros line; simpl.
  { intros ->%list_elem_of_singleton. by intros ?%elem_of_nil. }
  case_decide as Hx.
  - intros [->|Hl]%elem_of_cons Hc; [by apply elem_of_nil in Hc|].
    right. by eapply IH.
  - destruct (split sep s) as [|piece pieces] eqn:Hs.
    + intros ->%list_elem_of_singleton Hc. apply list_elem_of_singleton in Hc as ->.
      by left.
    + intros [->|Hl]%elem_of_cons Hc.
      * apply elem_of_cons in Hc as [->|Hc]; [by left|].
        right. apply (IH piece); [by left|done].
      * right. apply (IH line); [by right|done].
Qed.

Lemma digit_not_space c : isDigit c = true → isSpace c = false.
Proof.
  unfold isDigit, range, isSpace. simpl.
  intros [H1%N.leb_le H2%N.leb_le]%andb_prop.
  apply orb_false_intro.
  - apply bool_decide_eq_false. intros Hin.
    repeat (apply elem_of_cons in Hin as [->|Hin]; [lia|]).
    by apply elem_of_nil in Hin.
  - apply andb_false_intro1, N.leb_gt. lia.
Qed.

Lemma keyLine_has_digit line mt :
  exec keyLinePattern line 0 = Some mt → nonEmpty (trim line) = true.
Proof.
  intros (_ & _ & _ & pv & st' & HM & _)%exec_Some.
  revert HM. unfold keyLinePattern, Seqs, Plus. simpl.
  intros (st1 & (st2 & Hds & _)%Matches_Group_inv & _)%Matches_Seq_inv.
  destruct (repeat_chars _ _ _ Hds _ _ _ eq_refl)
    as (ds & Hr & _ & _ & Hall & Hmin & _).
  simpl in *. destruct ds as [|d ds]; [simpl in *; lia|].
  inversion_clear Hall as [|?? Hd _].
  apply trim_nonEmpty. exists d. split; [|by apply digit_not_space].
  rewrite <-(take_drop (index mt) line), Hr. apply elem_of_app. right. by left.
Qed.

Lemma digitValue_digit c :
  isDigit c = true → ∃ d, digitValue 10 c = Some d.
Proof.
  unfold isDigit, digitValue. intros Hd. rewrite Hd. simpl.
  unfold range in Hd. apply andb_prop in Hd as [H1%N.leb_le H2%N.leb_le].
  simpl in *. rewrite decide_True by lia. by eexists.
Qed.

Lemma parseInt_digits ds :
  Forall (λ c, isDigit c = true) ds → ds ≠ [] → is_Some (parseInt ds).
Proof.
  intros Hds Hne. destruct Hds as [|d ds Hd Hds]; [done|].
  unfold parseInt. simpl. rewrite (digit_not_space d Hd).
  assert (d ≠ chr "-" ∧ d ≠ chr "+") as [H1 H2].
  { unfold isDigit, range in Hd.
    apply andb_prop in Hd as [?%N.leb_le ?%N.leb_le]. simpl in *.
    split; intros ->; lia. }
  rewrite !decide_False by done.
  destruct (digitValue_digit d Hd) as [v Hv].
  assert (is_Some
    (match omap (digitValue 10)
             (takeWhile (λ c, bool_decide (is_Some (digitValue 10 c))) (d :: ds))
     with
     | [] => None
     | _ :: _ =>
         Some (1 * foldl (λ acc d0 : Z, acc * 10 + d0) 0
                 (omap (digitValue 10)
                    (takeWhile (λ c, bool_decide (is_Some (digitValue 10 c)))
                               (d :: ds))))%Z
     end)) as Htail.
  { cbn [takeWhile]. rewrite bool_decide_eq_true_2 by by eexists.
    csimpl. rewrite Hv. by csimpl. }
  destruct ds as [|x ds]; [done|].
  inversion_clear Hds as [|?? Hx _].
  assert (oneOf "xX" x = false) as ->; [|by rewrite andb_false_r].
  unfold isDigit, range in Hx.
  apply andb_prop in Hx as [?%N.leb_le ?%N.leb_le]. simpl in *.
  apply bool_decide_eq_false. intros Hin.
  change (js "xX") with [120%N; 88%N] in Hin.
  repeat (apply elem_of_cons in Hin as [->|Hin]; [lia|]).
  by apply elem_of_nil in Hin.
Qed.

(** The branch of [keyStep] for a number that does not parse is not taken:
    group 1 of a match is a run of digits. *)
Lemma keyLine_number line mt :
  exec keyLinePattern line 0 = Some mt →
  is_Some (parseInt (default [] (group line mt 1))).
Proof.
  intros (_ & _ & Hstop & pv & st' & HM & Hs & Hg)%exec_Some.
  revert HM. unfold keyLinePattern, Seqs, Plus. simpl.
  intros (st1 & (st2 & Hds & Hr2 & Hp2 & Hc1 & _)%Matches_Group_inv & Htail)
    %Matches_Seq_inv.
  destruct (repeat_chars _ _ _ Hds _ _ _ eq_refl)
    as (ds & Hr & Hp & _ & Hall & Hmin & _).
  simpl in *.
  pose proof (Matches_caps 1 _ _ _ Htail eq_refl) as Hcaps.
  unfold group. rewrite Hg, Hcaps, Hc1. simpl.
  unfold substring. rewrite Hp, Hr.
  replace (index mt + length ds - index mt) with (length ds) by lia.
  rewrite take_app_length. apply parseInt_digits; [done|].
  destruct ds; [simpl in *; lia|done].
Qed.

(** ** The answer key is applied in place *)

(** C2, as stated, fails: after the call the answer row of [keyed_store]
    that the key lists has [isKey] true, in the caller's own row. *)
Lemma applyAnswerKey_mutates_rows :
  ¬ (∀ (h : gmap positive ParsedRow) rows answerKey l,
       l ∈ rows →
       isKey <$> (Store.applyAnswerKey h rows answerKey).1 !! l =
       isKey <$> h !! l).
Proof.
  intros H.
  specialize (H keyed_store [1; 2]%positive {[ 1%Z := [js "A"] ]} 2%positive).
  assert (2%positive ∈ [1; 2]%positive) as Hin by (right; left).
  specialize (H Hin). vm_compute in H. discriminate.
Qed.

Section in_place.
Import Store.
Implicit Types (h : gmap positive ParsedRow) (rows : list positive).

Lemma keyRewritten_refl r : keyRewritten r r.
Proof. by split. Qed.

Lemma keyRewritten_trans r1 r2 r3 :
  keyRewritten r1 r2 → keyRewritten r2 r3 → keyRewritten r1 r3.
Proof.
  intros [H12 Hn12] [H23 Hn23]. split; [unfold sameButKey in *; congruence|].
  intros Hna. rewrite <-(Hn12 Hna). apply Hn23. by rewrite (Hn12 Hna).
Qed.

Lemma keysRewritten_refl h : keysRewritten h h.
Proof.
  intros l. destruct (h !! l); constructor. apply keyRewritten_refl.
Qed.

Lemma keysRewritten_trans h1 h2 h3 :
  keysRewritten h1 h2 → keysRewritten h2 h3 → keysRewritten h1 h3.
Proof.
  intros H12 H23 l. specialize (H12 l). specialize (H23 l).
  destruct H12 as [r1 r2 ?|]; inversion H23; subst; constructor.
  by eapply keyRewritten_trans.
Qed.

Lemma writeKey_rewritten h l row b :
  h !! l = Some row → type row = answer → keysRewritten h (writeKey l b h).
Proof.
  intros Hl Ha l'. unfold writeKey.
  destruct (decide (l' = l)) as [->|].
  - rewrite lookup_alter_eq, Hl. constructor. by split.
  - rewrite lookup_alter_ne by done.
    destruct (h !! l'); constructor. apply keyRewritten_refl.
Qed.

Lemma writeKey_other h l l' b : l' ≠ l → writeKey l b h !! l' = h !! l'.
Proof. intros. unfold writeKey. by rewrite lookup_alter_ne. Qed.

Lemma resetKeys_frame h rows :
  keysRewritten h (resetKeys h rows) ∧
  ∀ l, l ∉ rows → resetKeys h rows !! l = h !! l.
Proof.
  unfold resetKeys. revert h.
  induction rows as [|l0 rows IH]; intros h.
  { split; [apply keysRewritten_refl|done]. }
  cbn [foldl].
  set (h1 := match h !! l0 with
             | Some row => if decide (type row = answer)
                           then writeKey l0 false h else h
             | None => h
             end).
  assert (keysRewritten h h1 ∧ ∀ l, l ≠ l0 → h1 !! l = h !! l) as [Hr1 Ho1].
  { unfold h1. destruct (h !! l0) as [row|] eqn:Hl0;
      [case_decide|]; try (split; [apply keysRewritten_refl|done]).
    split; [by eapply writeKey_rewritten|]. intros. by apply writeKey_other. }
  destruct (IH h1) as [Hr Ho]. split.
  - by eapply keysRewritten_trans.
  - intros l [? ?]%not_elem_of_cons. rewrite Ho by done. by apply Ho1.
Qed.

Lemma markStep_frame answerKey h cur l0 :
  keysRewritten h (markStep answerKey (h, cur) l0).1 ∧
  ∀ l, l ≠ l0 → (markStep answerKey (h, cur) l0).1 !! l = h !! l.
Proof.
  unfold markStep. destruct (h !! l0) as [row|] eqn:Hl0;
    [|split; [apply keysRewritten_refl|done]].
  case_decide; [split; [apply keysRewritten_refl|done]|].
  destruct (bool_decide (type row = answer)) eqn:Ha; simpl;
    [|split; [apply keysRewritten_refl|done]].
  apply bool_decide_eq_true in Ha.
  destruct (notNull cur); simpl; [|split; [apply keysRewritten_refl|done]].
  destruct (listed answerKey cur (label row)); simpl;
    [|split; [apply keysRewritten_refl|done]].
  split; [by eapply writeKey_rewritten|]. intros. by apply writeKey_other.
Qed.

Lemma mark_frame answerKey rows h cur :
  keysRewritten h (foldl (markStep answerKey) (h, cur) rows).1 ∧
  ∀ l, l ∉ rows → (foldl (markStep answerKey) (h, cur) rows).1 !! l = h !! l.
Proof.
  revert h cur. induction rows as [|l0 rows IH]; intros h cur.
  { split; [apply keysRewritten_refl|done]. }
  cbn [foldl].
  destruct (markStep_frame answerKey h cur l0) as [Hr1 Ho1].
  destruct (markStep answerKey (h, cur) l0) as [h1 cur1]. simpl in *.
  destruct (IH h1 cur1) as [Hr Ho]. split.
  - by eapply keysRewritten_trans.
  - intros l [? ?]%not_elem_of_cons. rewrite Ho by done. by apply Ho1.
Qed.

Lemma readRows_agree h h' rows :
  (∀ l, l ∈ rows → h' !! l = h !! l) → readRows h' rows = readRows h rows.
Proof.
  unfold readRows. induction rows as [|l rows IH]; intros Hag; [done|].
  csimpl. rewrite Hag by by left. rewrite IH; [done|].
  intros. apply Hag. by right.
Qed.

Lemma resetKeys_lookup h rows l :
  l ∈ rows →
  resetKeys h rows !! l =
  (λ r, if decide (type r = answer) then set_isKey (Some false) r else r)
    <$> h !! l.
Proof.
  unfold resetKeys. revert h.
  induction rows as [|l0 rows IH]; intros h Hin; [by apply elem_of_nil in Hin|].
  cbn [foldl].
  set (reset := λ r : ParsedRow,
    if decide (type r = answer) then set_isKey (Some false) r else r).
  set (h1 := match h !! l0 with
             | Some row => if decide (type row = answer)
                           then writeKey l0 false h else h
             | None => h
             end).
  assert (h1 !! l0 = reset <$> h !! l0) as Hl0.
  { unfold h1, reset. destruct (h !! l0) as [row|] eqn:Hrow; [|by rewrite Hrow].
    simpl. case_decide; [|by rewrite Hrow].
    unfold writeKey. by rewrite lookup_alter_eq, Hrow. }
  assert (∀ l', l' ≠ l0 → h1 !! l' = h !! l') as Hother.
  { intros l' ?. unfold h1. destruct (h !! l0); [case_decide|]; try done.
    by apply writeKey_other. }
  destruct (decide (l ∈ rows)) as [Hl|Hl].
  - rewrite (IH h1 Hl). destruct (decide (l = l0)) as [->|].
    + rewrite Hl0. destruct (h !! l0) as [row|]; [|done]. simpl. f_equal.
      unfold reset. by repeat (case_decide; simpl in *; try done).
    + by rewrite Hother.
  - apply elem_of_cons in Hin as [->|?]; [|done].
    destruct (resetKeys_frame h1 rows) as [_ Ho]. unfold resetKeys in Ho.
    by rewrite Ho.
Qed.

Lemma readRows_clear h rows :
  (∀ l, l ∈ rows → is_Some (h !! l)) →
  readRows (resetKeys h rows) rows = clearKeys (readRows h rows).
Proof.
  intros Hall. unfold readRows, clearKeys.
  assert (∀ l, l ∈ rows →
    resetKeys h rows !! l =
    (λ r, if decide (type r = answer) then set_isKey (Some false) r else r)
      <$> h !! l) as Hl by (intros; by apply resetKeys_lookup).
  revert Hl Hall. generalize (resetKeys h rows). intros h'.
  induction rows as [|l rows IH]; intros Hl Hall; [done|]. csimpl.
  rewrite Hl by by left.
  destruct (Hall l) as [row ->]; [by left|]. csimpl. f_equal.
  apply IH; intros; [apply Hl|apply Hall]; by right.
Qed.

Lemma readRows_cons h l rows :
  readRows h (l :: rows) =
  match h !! l with
  | Some r => r :: readRows h rows
  | None => readRows h rows
  end.
Proof. done. Qed.

Lemma readRows_mark answerKey rows h cur :
  NoDup rows → (∀ l, l ∈ rows → is_Some (h !! l)) →
  readRows (foldl (markStep answerKey) (h, cur) rows).1 rows =
  markKeys answerKey cur (readRows h rows).
Proof.
  revert h cur. induction rows as [|l0 rows IH]; intros h cur Hnd Hall; [done|].
  apply NoDup_cons in Hnd as [Hl0 Hnd].
  destruct (Hall l0) as [row Hrow]; [by left|].
  cbn [foldl]. rewrite !readRows_cons, Hrow.
  destruct (markStep_frame answerKey h cur l0) as [_ Ho1].
  destruct (markStep answerKey (h, cur) l0) as [h1 cur1] eqn:Hstep.
  simpl in Ho1.
  destruct (mark_frame answerKey rows h1 cur1) as [_ Ho].
  rewrite Ho by done.
  assert (readRows h1 rows = readRows h rows) as Hrest.
  { apply readRows_agree. intros l ?. apply Ho1. by intros ->. }
  rewrite IH, Hrest; [|done|].
  2:{ intros l ?. rewrite Ho1 by (by intros ->). apply Hall. by right. }
  unfold markStep in Hstep. rewrite Hrow in Hstep. simpl.
  destruct (decide (type row = question)) as [Hq|Hq].
  { injection Hstep as <- <-. by rewrite Hrow. }
  destruct (bool_decide (type row = answer)) eqn:Ha; simpl in *.
  2:{ injection Hstep as <- <-. by rewrite Hrow. }
  destruct (notNull cur) eqn:Hnn; simpl in *.
  - destruct (listed answerKey cur (label row)).
    + injection Hstep as <- <-. unfold writeKey.
      by rewrite lookup_alter_eq, Hrow.
    + injection Hstep as <- <-. by rewrite Hrow.
  - injection Hstep as <- <-. rewrite Hrow.
    by destruct cur.
Qed.

End in_place.

(** C2, amended: [applyAnswerKey] works in place.  It returns the array it
    was given; in the store every row is still there, changed at most in
    the [isKey] of an answer row, and rows outside the array are untouched.
    When the array holds distinct rows, the rows read back after the call
    are the input rows with their keys set as the specification tells. *)
Theorem applyAnswerKey_in_place (h : gmap positive ParsedRow) rows answerKey :
  let after := Store.applyAnswerKey h rows answerKey in
  after.2 = rows ∧
  keysRewritten h after.1 ∧
  (∀ l, l ∉ rows → after.1 !! l = h !! l) ∧
  (NoDup rows → (∀ l, l ∈ rows → is_Some (h !! l)) →
   readRows after.1 rows = keysAsSpecified answerKey (readRows h rows)).
Proof.
  unfold Store.applyAnswerKey. simpl.
  destruct (resetKeys_frame h rows) as [Hr1 Ho1].
  destruct (mark_frame answerKey rows (Store.resetKeys h rows) Store.Null)
    as [Hr2 Ho2].
  split_and!; [done|by eapply keysRewritten_trans| |].
  - intros l Hl. by rewrite Ho2, Ho1.
  - intros Hnd Hall. unfold keysAsSpecified.
    rewrite <-readRows_clear by done. apply readRows_mark; [done|].
    intros l Hl. specialize (Hr1 l). destruct (Hall l Hl) as [r Hrow].
    rewrite Hrow in Hr1. inversion Hr1. by eexists.
Qed.

Lemma applyAnswerKey_in_place_witness :
  NoDup [1; 2]%positive ∧
  (∀ l, l ∈ [1; 2]%positive → is_Some (keyed_store !! l)) ∧
  readRows (Store.applyAnswerKey keyed_store [1; 2]%positive
              {[ 1%Z := [js "A"] ]}).1 [1; 2]%positive =
  keysAsSpecified {[ 1%Z := [js "A"] ]} (readRows keyed_store [1; 2]%positive).
Proof.
  assert (NoDup [1; 2]%positive) as Hnd by (by apply (bool_decide_unpack _)).
  assert (∀ l, l ∈ [1; 2]%positive → is_Some (keyed_store !! l)) as Hall.
  { intros l Hl. apply elem_of_cons in Hl as [->|Hl]; [by eexists|].
    apply elem_of_cons in Hl as [->|Hl]; [by eexists|].
    by apply elem_of_nil in Hl. }
  split; [done|]. split; [done|].
  by apply (applyAnswerKey_in_place keyed_store [1; 2]%positive
              {[ 1%Z := [js "A"] ]}).
Defined.

(** ** The parser's rows are well segmented *)

Lemma isQuestionGroup_rows g :
  isQuestionGroup g →
  ∃ q tl, g = q :: tl ∧ type q = question ∧ tl ≠ [] ∧
          Forall (λ r, type r ≠ question ∧ type r ≠ section) tl.
Proof.
  intros (q & ans & e & -> & Hq & Hans & He).
  exists q, (ans ++ [e]). split_and!; [done|done|by destruct ans|].
  apply Forall_app. split.
  - eapply Forall_impl; [done|]. simpl. intros r ->. done.
  - constructor; [|done]. by rewrite He.
Qed.

Lemma foldl_sectionStep_plain sections cur l :
  Forall (λ r, type r ≠ section) l →
  foldl sectionStep (sections ++ [cur]) l = sections ++ [cur ++ l].
Proof.
  intros Hl. revert cur. induction Hl as [|r l Hr _ IH]; intros cur; simpl.
  { by rewrite app_nil_r. }
  unfold sectionStep at 2. rewrite decide_False by done.
  rewrite decide_False by (rewrite length_app; simpl; lia).
  by rewrite push_to_last_snoc, IH, <-app_assoc.
Qed.

Lemma splitIntoSections_chunks groups :
  Forall (λ g, isSectionPair g ∨ isQuestionGroup g) groups →
  ∃ chunks : list (list (list ParsedRow)),
    splitIntoSections (concat groups) = (λ chunk, concat chunk) <$> chunks ∧
    concat chunks = groups ∧ Forall isSectionChunk chunks.
Proof.
  unfold splitIntoSections.
  induction groups as [|g groups IH] using rev_ind; intros Hall.
  { by exists []. }
  apply Forall_app in Hall as [Hall Hg]. inversion_clear Hg as [|?? Hg' _].
  destruct (IH Hall) as (chunks & Hsplit & Hconcat & Hchunks).
  rewrite concat_app, foldl_app, Hsplit.
  replace (concat [g]) with g by (simpl; by rewrite app_nil_r).
  destruct Hg' as [(s & e & -> & Hs & He)|Hq].
  - exists (chunks ++ [[[s; e]]]). simpl.
    unfold sectionStep at 2. rewrite decide_True by done.
    unfold sectionStep. rewrite decide_False by (by rewrite He).
    rewrite decide_False by (rewrite length_app; simpl; lia).
    rewrite push_to_last_snoc, fmap_app, concat_app. simpl.
    split; [reflexivity|]. split; [by rewrite Hconcat|].
    apply Forall_app. split; [done|]. constructor; [|done].
    exists [s; e], []. split_and!; [done| |done]. left. by exists s, e.
  - destruct (isQuestionGroup_rows g Hq) as (q & tl & -> & Hqt & Hne & Htl).
    assert (Forall (λ r, type r ≠ section) (q :: tl)) as Hplain.
    { constructor; [by rewrite Hqt|]. eapply Forall_impl; [done|]. by intros ? [? ?]. }
    destruct chunks as [|chunk chunks _] using rev_ind.
    + exists [[q :: tl]]. simpl in *. subst groups.
      unfold sectionStep at 2. rewrite decide_False by (by rewrite Hqt).
      rewrite decide_True by done. simpl.
      change (push_to_last q [[]]) with ([] ++ [[] ++ [q]]).
      inversion_clear Hplain.
      rewrite foldl_sectionStep_plain by done. simpl. rewrite app_nil_r.
      split_and!; [done|done|]. constructor; [|done].
      exists (q :: tl), []. split_and!; [done|by right|done].
    + exists (chunks ++ [chunk ++ [q :: tl]]).
      rewrite fmap_app.
      change ((λ c : list (list ParsedRow), concat c) <$> [chunk])
        with [concat chunk].
      rewrite foldl_sectionStep_plain by done.
      rewrite fmap_app, !concat_app in *. simpl in *.
      rewrite !app_nil_r in *. rewrite concat_app. simpl. rewrite app_nil_r.
      split_and!; [done|by rewrite <-Hconcat, <-app_assoc|].
      apply Forall_app in Hchunks as [Hchunks Hchunk].
      inversion_clear Hchunk as [|?? (g0 & gs & -> & Hg0 & Hgs) _].
      apply Forall_app. split; [done|]. constructor; [|done].
      exists g0, (gs ++ [q :: tl]). split_and!; [done|done|].
      apply Forall_app. split; [done|]. by constructor.
Qed.

Lemma foldl_questionStep_plain floor qs cur l :
  Forall (λ r, type r ≠ question) l → floor ≤ length qs →
  foldl (questionStep floor) (qs ++ [cur]) l = qs ++ [cur ++ l].
Proof.
  intros Hl Hfl. revert cur. induction Hl as [|r l Hr _ IH]; intros cur; simpl.
  { by rewrite app_nil_r. }
  unfold questionStep at 2. rewrite decide_False by done.
  rewrite decide_True by (rewrite length_app; simpl; lia).
  by rewrite push_to_last_snoc, IH, <-app_assoc.
Qed.

Lemma foldl_questionStep_groups floor qs gs :
  Forall isQuestionGroup gs → floor ≤ length qs →
  foldl (questionStep floor) qs (concat gs) = qs ++ gs.
Proof.
  intros Hgs. revert qs. induction Hgs as [|g gs Hg _ IH]; intros qs Hfl; simpl.
  { by rewrite app_nil_r. }
  destruct (isQuestionGroup_rows g Hg) as (q & tl & -> & Hqt & _ & Htl).
  simpl. unfold questionStep at 2. rewrite decide_True by done.
  rewrite foldl_app, foldl_questionStep_plain; [|by eapply Forall_impl; [done|]; intros ? [? ?]|done].
  rewrite IH by (rewrite length_app; simpl; lia).
  by rewrite <-app_assoc.
Qed.

Lemma splitSectionIntoQuestions_chunk chunk :
  isSectionChunk chunk → splitSectionIntoQuestions (concat chunk) = chunk.
Proof.
  intros (g & gs & -> & [(s & e & -> & Hs & He)|Hg] & Hgs);
    unfold splitSectionIntoQuestions.
  - assert (has_type section (concat ([s; e] :: gs) !! 0) = true) as ->.
    { simpl. by apply bool_decide_eq_true. }
    rewrite bool_decide_eq_true_2 by (simpl; lia).
    change (concat ([s; e] :: gs)) with (s :: e :: concat gs).
    cbn [andb take drop].
    rewrite take_0, drop_0. by rewrite foldl_questionStep_groups.
  - destruct (isQuestionGroup_rows g Hg) as (q & tl & Hgq & Hqt & _ & _).
    assert (has_type section (concat (g :: gs) !! 0) = false) as ->.
    { subst g. simpl. apply bool_decide_eq_false. by rewrite Hqt. }
    rewrite andb_false_r.
    rewrite (foldl_questionStep_groups 0 [] (g :: gs)); [done|by constructor|simpl; lia].
Qed.

Lemma grouped_wellSegmented rows : grouped rows → wellSegmented rows = true.
Proof.
  intros (groups & -> & Hgroups).
  destruct (splitIntoSections_chunks groups Hgroups)
    as (chunks & Hsplit & Hconcat & Hchunks).
  unfold wellSegmented, splitIntoSectionsAndQuestions. rewrite Hsplit.
  assert (map splitSectionIntoQuestions
            ((λ chunk : list (list ParsedRow), concat chunk) <$> chunks) = chunks)
    as ->.
  { clear Hsplit Hconcat. induction Hchunks as [|chunk chunks Hc _ IH]; [done|].
    csimpl. cbn [map]. by rewrite IH, splitSectionIntoQuestions_chunk. }
  rewrite Hconcat. rewrite bool_decide_eq_true_2 by done. simpl.
  apply forallb_forall. intros chunk Hchunk.
  apply forallb_forall. intros g Hg.
  assert (g ∈ groups) as Hin.
  { rewrite <-Hconcat. apply list_elem_of_In, in_concat. by exists chunk. }
  rewrite Forall_forall in Hgroups. unfold shufflableBlock.
  destruct (Hgroups g Hin) as [(s & e & -> & Hs & _)|(q & ans & e & -> & _)].
  - simpl. by rewrite (bool_decide_eq_true_2 _ Hs).
  - apply orb_true_intro. right. apply bool_decide_eq_true.
    simpl. rewrite length_app. simpl. lia.
Qed.

Lemma grouped_nil : grouped [].
Proof. by exists []. Qed.

Lemma grouped_snoc rows g :
  grouped rows → isSectionPair g ∨ isQuestionGroup g → grouped (rows ++ g).
Proof.
  intros (groups & -> & Hgroups) Hg. exists (groups ++ [g]). split.
  - by rewrite concat_app; simpl; rewrite app_nil_r.
  - apply Forall_app. split; [done|]. by constructor.
Qed.

Lemma pushSection_grouped title out :
  grouped out.1 → grouped (pushSection title out).1.
Proof.
  intros Hout. unfold pushSection, push. simpl. rewrite <-app_assoc.
  apply grouped_snoc; [done|]. left. by eexists _, _.
Qed.

Lemma answersLoop_shape fuel answersText lastIndex startId rows rows' :
  answersLoop fuel answersText lastIndex startId rows = Value rows' →
  ∃ ans, rows' = rows ++ ans ∧ Forall (λ r, type r = answer) ans.
Proof.
  revert lastIndex rows.
  induction fuel as [|fuel IH]; intros lastIndex rows; [done|].
  simpl. destruct (exec answerPattern answersText lastIndex) as [mt|].
  2:{ intros [= <-]. exists []. by rewrite app_nil_r. }
  case_match; [by apply IH|].
  intros (ans & -> & Hans)%IH. rewrite <-app_assoc. eexists. split; [done|].
  constructor; [|done].
  match goal with |- type (if ?b then _ else _) = _ => by destruct b end.
Qed.

Lemma parseQuestionBlockFlexible_shape block startId rows :
  parseQuestionBlockFlexible block startId = Value rows →
  ∃ q ans, rows = q :: ans ∧ type q = question ∧
           Forall (λ r, type r = answer) ans.
Proof.
  unfold parseQuestionBlockFlexible.
  destruct (exec questionPattern block 0) as [qm|]; [|done].
  case_match; [done|].
  match goal with
  | |- context [let '(_, _) := ?x in _] =>
      destruct x as [questionText answersText]
  end.
  destruct (nonEmpty answersText).
  - intros (ans & -> & Hans)%answersLoop_shape. by eexists _, ans.
  - intros [= <-]. by eexists _, [].
Qed.

Lemma push_rows_shape out rows :
  ∃ rows', (foldl (λ out row, push (λ i, set_id i row) out) out rows).1
             = out.1 ++ rows' ∧
           type <$> rows' = type <$> rows.
Proof.
  revert out. induction rows as [|row rows IH]; intros out.
  { exists []. by rewrite app_nil_r. }
  cbn [foldl]. destruct (IH (push (λ i, set_id i row) out)) as (rows' & -> & Ht).
  unfold push at 1. simpl. rewrite <-app_assoc. eexists. split; [done|].
  csimpl. by rewrite Ht.
Qed.

Lemma processBlock_grouped normalized out b out' :
  processBlock normalized (Value out) b = Value out' →
  okBlock b → grouped out.1 → grouped out'.1.
Proof.
  unfold processBlock. intros Hp Hok Hout. destruct (btype b) eqn:Hb.
  - specialize (Hok Hb).
    pose proof (questionLike_not_thrown _ out.2 Hok) as Hnt.
    destruct (parseQuestionBlockFlexible (btext b) out.2) as [rows| |] eqn:Hrows;
      [|done|done].
    injection Hp as <-.
    apply parseQuestionBlockFlexible_shape in Hrows as (q & ans & -> & Hq & Hans).
    destruct (push_rows_shape out (q :: ans)) as (rows' & Hrows' & Ht).
    unfold push at 1. cbn [fst]. rewrite Hrows', <-app_assoc.
    apply grouped_snoc; [done|]. right.
    destruct rows' as [|q' ans']; [done|]. injection Ht as Hq' Hans'.
    exists q', ans', (createRow
      ((foldl (λ out row, push (λ i, set_id i row) out) out (q :: ans)).2 + 1)
      empty [] [] None).
    split_and!; [done|congruence| |done].
    clear -Hans Hans'. revert ans' Hans'.
    induction Hans as [|a ans Ha _ IH]; intros [|a' ans'] [=]; constructor.
    + congruence.
    + by apply IH.
  - injection Hp as <-. by apply pushSection_grouped.
Qed.

Lemma processBlocks_grouped normalized blocks out out' :
  foldl (processBlock normalized) (Value out) blocks = Value out' →
  Forall okBlock blocks → grouped out.1 → grouped out'.1.
Proof.
  revert out. induction blocks as [|b blocks IH]; intros out.
  { by intros [= <-]. }
  cbn [foldl]. intros Hfold Hok Hout. inversion_clear Hok as [|?? Hb Hbs].
  destruct (processBlock_total normalized out b) as [out1 Hout1].
  rewrite Hout1 in Hfold. eapply IH; [done|done|].
  by eapply processBlock_grouped.
Qed.

Lemma blocksLoop_grouped fuel s lastIndex blocks out blocks' out' :
  blocksLoop fuel s lastIndex blocks out = Value (blocks', out') →
  grouped out.1 → grouped out'.1.
Proof.
  revert lastIndex blocks out.
  induction fuel as [|fuel IH]; intros lastIndex blocks out; [done|].
  simpl. destruct (exec blockStartPattern s lastIndex) as [mt|].
  2:{ by intros [= <- <-]. }
  intros Hloop Hout.
  set (out1 := if bool_decide (length blocks = 0) && bool_decide (0 < index mt)
               then _ else out) in Hloop.
  assert (grouped out1.1) as Hout1.
  { unfold out1. destruct (_ && _); [|done].
    destruct (nonEmpty _); [|done]. by apply pushSection_grouped. }
  destruct (exec blockStartPattern s (stop mt)) as [nm|].
  - by apply IH in Hloop.
  - by injection Hloop as <- <-.
Qed.

(** X20: what [parseMcq] returns is a sequence of section pairs and question
    groups, so the segmentation of the shuffle service reads it back without
    loss: it is [wellSegmented]. *)
Theorem parseMcq_wellSegmented input :
  ∃ rows, parseMcq input = Value rows ∧ grouped rows ∧
          wellSegmented rows = true.
Proof.
  assert (∃ rows, parseMcq input = Value rows ∧ grouped rows)
    as (rows & Hrows & Hg).
  { unfold parseMcq. case_match; [exists []; split; [done|apply grouped_nil]|].
    destruct (blocksLoop_total (S (length (normalize input))) (normalize input)
                0 [] ([], 0%Z)) as [[blocks out] Hloop]; [lia|lia|].
    rewrite Hloop.
    pose proof (blocksLoop_grouped _ _ _ _ _ _ _ Hloop grouped_nil) as Hout.
    apply blocksLoop_ok in Hloop as [Hblocks _]; [|done|done].
    case_decide.
    { case_match; eexists; (split; [done|]); [|done].
      by apply pushSection_grouped. }
    destruct (processBlocks_total (normalize input) blocks out) as [out' Hfold].
    rewrite Hfold. eexists. split; [done|].
    by eapply processBlocks_grouped. }
  exists rows. split_and!; [done|done|]. by apply grouped_wellSegmented.
Qed.

(** ** Rows that segmentation does not cover *)

(** Outside the well segmented inputs [shuffleAnswers] is not a
    rearrangement: a block made of a question row alone has the lock list
    [0, 0], and the row is restored twice. *)
Example shuffleAnswers_repeats_lone_question g :
  (shuffleAnswers lone_question g).1 = lone_question ++ lone_question.
Proof. reflexivity. Qed.

(** Rows before the first question row of a section without header belong
    to no block and are lost, locked or not. *)
Example shuffleAnswers_drops_stray_rows g :
  (shuffleAnswers stray_answer g).1 = drop 1 stray_answer.
Proof. reflexivity. Qed.

(** ** Renumbering, the exam text, missing keys and the verdict of validation *)

Lemma renumberFrom_lookup n rows i row :
  rows !! i = Some row →
  renumberFrom n rows !! i =
  Some (if decide (type row = question)
        then set_label (ofNumber (n + Z.of_nat (questionsBefore i rows))) row
        else row).
Proof.
  revert n i. induction rows as [|r rows IH]; intros n i Hi; [done|].
  destruct i as [|i]; simpl in Hi.
  - injection Hi as ->. unfold questionsBefore. simpl.
    destruct (decide (type row = question)); [|done].
    simpl. by rewrite Z.add_0_r.
  - simpl. unfold questionsBefore. cbn [take]. rewrite filter_cons.
    destruct (decide (type r = question)); simpl.
    + rewrite (IH _ _ Hi). unfold questionsBefore.
      case_decide; [|done]. do 3 f_equal. lia.
    + by rewrite (IH _ _ Hi).
Qed.

Lemma renumberFrom_length n rows : length (renumberFrom n rows) = length rows.
Proof.
  revert n. induction rows as [|r rows IH]; intros n; [done|].
  simpl. case_decide; simpl; by rewrite IH.
Qed.

Lemma renumberFrom_printsAlike n rows :
  Forall2 printsAlike rows (renumberFrom n rows).
Proof.
  revert n. induction rows as [|r rows IH]; intros n; [constructor|].
  simpl. case_decide; constructor; try done.
  split_and!; [done|done|]. simpl. congruence.
Qed.

Lemma renumberFrom_rows n rows :
  Forall2 (λ r r', sameButLabel r r' ∧ (type r ≠ question → r' = r))
          rows (renumberFrom n rows).
Proof.
  revert n. induction rows as [|r rows IH]; intros n; [constructor|].
  simpl. case_decide; constructor; try done.
Qed.

Lemma sameButLabel_fields r r' :
  sameButLabel r r' →
  id r = id r' ∧ type r = type r' ∧ text r = text r' ∧ isKey r = isKey r' ∧
  locked r = locked r' ∧ originalNumber r = originalNumber r'.
Proof.
  destruct r, r'. unfold sameButLabel, set_label. simpl.
  by intros [= -> -> -> -> -> ->].
Qed.

Lemma renumberFrom_absorbs n n' rows :
  renumberFrom n' (renumberFrom n rows) = renumberFrom n' rows.
Proof.
  revert n n'. induction rows as [|r rows IH]; intros n n'; [done|].
  simpl. destruct (decide (type r = question)) as [Hq|Hq]; simpl.
  - rewrite decide_True by done. by rewrite IH.
  - rewrite decide_False by done. by rewrite IH.
Qed.

Lemma answerKeyLoop_ext rows rows' answerKey n cur :
  Forall2 (λ r r', type r = type r' ∧ isKey r = isKey r' ∧
                   (type r = answer → label r = label r')) rows rows' →
  answerKeyLoop rows answerKey n cur = answerKeyLoop rows' answerKey n cur.
Proof.
  intros H. revert answerKey n cur.
  induction H as [|r r' rows rows' (Ht & Hk & Hl) _ IH]; intros answerKey n cur;
    [done|].
  simpl. rewrite <-Ht, <-Hk.
  destruct (decide (type r = question)) as [Hq|Hq].
  { case_decide; apply IH. }
  destruct (bool_decide (type r = answer)) eqn:Ha; simpl; [|apply IH].
  apply bool_decide_eq_true in Ha. rewrite <-(Hl Ha).
  destruct (truthy (isKey r)); apply IH.
Qed.

Section exam_facts.
Variable toLowerCase : jsstring → jsstring.
Implicit Types (config : Config.ExamConfig) (rows : list ParsedRow).

Lemma examLoop_ext config rows rows' output n :
  Forall2 printsAlike rows rows' →
  examLoop toLowerCase config rows output n =
  examLoop toLowerCase config rows' output n.
Proof.
  intros H. revert output n.
  induction H as [|r r' rows rows' (Ht & Hx & Hl) _ IH]; intros output n; [done|].
  simpl. rewrite <-Ht, <-Hx. destruct (type r) eqn:E; try apply IH.
  rewrite <-(Hl eq_refl). apply IH.
Qed.

Lemma examLoop_output config rows output n :
  examLoop toLowerCase config rows output n =
  output ++ examLoop toLowerCase config rows [] n.
Proof.
  revert output n. induction rows as [|r rows IH]; intros output n; simpl.
  { by rewrite app_nil_r. }
  destruct (type r); rewrite IH; symmetry; rewrite IH; try done;
    by rewrite ?app_assoc.
Qed.

Lemma examLoop_app config rows1 rows2 output n :
  examLoop toLowerCase config (rows1 ++ rows2) output n =
  examLoop toLowerCase config rows2
    (examLoop toLowerCase config rows1 output n)
    (n + Z.of_nat (length (filter (λ r, type r = question) rows1))).
Proof.
  revert output n. induction rows1 as [|r rows1 IH]; intros output n; simpl.
  { by rewrite Z.add_0_r. }
  rewrite filter_cons.
  destruct (type r) eqn:E; rewrite IH; simpl; f_equal; lia.
Qed.

End exam_facts.

Lemma segments_length rows :
  length (segments rows) = S (length (filter (λ r, type r = question) rows)).
Proof.
  induction rows as [|row rows IH]; simpl; [done|].
  rewrite filter_cons. case_decide; simpl; [by rewrite IH|].
  destruct (segments_cons rows) as (seg & segs & Hs). by rewrite Hs in *.
Qed.

Lemma segments_app_question pre q tl :
  type q = question →
  segments (pre ++ q :: tl) = segments pre ++ segments tl.
Proof.
  intros Hq. induction pre as [|r pre IH]; simpl.
  { by rewrite decide_True. }
  case_decide; [by rewrite IH|].
  rewrite IH. by destruct (segments_cons pre) as (seg & segs & ->).
Qed.

Lemma segments_plain blk :
  Forall (λ r, type r ≠ question) blk → segments blk = [blk].
Proof.
  induction 1 as [|r blk Hr _ IH]; simpl; [done|].
  by rewrite decide_False, IH.
Qed.

Lemma segments_block blk post :
  Forall (λ r, type r ≠ question) blk →
  (∀ r, head post = Some r → type r = question) →
  ∃ segs, segments (blk ++ post) = blk :: segs.
Proof.
  intros Hblk Hpost. destruct post as [|q post].
  - rewrite app_nil_r, segments_plain by done. by eexists.
  - rewrite segments_app_question by by apply Hpost.
    rewrite segments_plain by done. by eexists.
Qed.

Lemma emit_app n gs1 gs2 :
  emit n (gs1 ++ gs2) = emit n gs1 ++ emit (n + Z.of_nat (length gs1)) gs2.
Proof.
  revert n. induction gs1 as [|g gs1 IH]; intros n; simpl.
  { by rewrite Z.add_0_r. }
  rewrite IH, <-app_assoc. do 3 f_equal. lia.
Qed.

Lemma emit_count n gs :
  length (emit n gs) = length (filter (λ g, g ≠ []) gs).
Proof.
  revert n. induction gs as [|g gs IH]; intros n; simpl; [done|].
  rewrite length_app, IH, filter_cons.
  destruct (decide (g = [])); by case_decide.
Qed.

Lemma generateAnswerKey_emit rows startNumber :
  generateAnswerKey rows startNumber =
  emit (startNumber - 1) (keyedLetters <$> segments rows).
Proof.
  unfold generateAnswerKey. rewrite answerKeyLoop_spec. simpl.
  by destruct (segments_cons rows) as (seg & segs & ->).
Qed.

Lemma withoutKeysLoop_spec rows acc cur hasKey :
  withoutKeysLoop rows acc cur hasKey =
  acc ++
  pending cur (hasKey ||
               negb (bool_decide (keyedLetters (default [] (head (segments rows))) = []))) ++
  ((λ qb, parseInt (label qb.1)) <$>
     filter (λ qb, keyedLetters qb.2 = []) (questionBlocks rows)).
Proof.
  revert acc cur hasKey.
  induction rows as [|row rows IH]; intros acc cur hasKey.
  { simpl. rewrite orb_false_r, app_nil_r. unfold pending.
    destruct cur; [|by rewrite app_nil_r]. by destruct hasKey; rewrite ?app_nil_r. }
  destruct (segments_cons rows) as (seg & segs & Hsegs).
  cbn [withoutKeysLoop]. unfold questionBlocks in *. cbn [segments].
  rewrite filter_cons.
  destruct (decide (type row = question)) as [Hq|Hq].
  - rewrite IH, Hsegs. cbn [head default tail zip zip_with keyedLetters].
    change (keyedLetters (Datatypes.id [])) with (@nil jsstring).
    change (Datatypes.id seg) with seg.
    rewrite (bool_decide_eq_true_2 ([] = [])) by done.
    rewrite orb_false_r, filter_cons. cbn [snd fst orb negb].
    assert (∀ l : list (option Z),
              match cur with
              | Some n => if negb hasKey then acc ++ [n] else acc
              | None => acc
              end ++ l = acc ++ pending cur hasKey ++ l) as ->.
    { intros l. unfold pending. destruct cur; [|done].
      destruct hasKey; simpl; [done|]. by rewrite <-app_assoc. }
    do 2 f_equal.
    destruct (decide (keyedLetters seg = [])) as [Hk|Hk].
    + by rewrite bool_decide_eq_true_2.
    + by rewrite bool_decide_eq_false_2.
  - rewrite IH, Hsegs. cbn [head default tail from_option].
    change (Datatypes.id (row :: seg)) with (row :: seg).
    change (Datatypes.id seg) with seg.
    rewrite keyedLetters_cons.
    destruct (bool_decide (type row = answer) && truthy (isKey row)).
    2:{ by rewrite IH, Hsegs. }
    rewrite ?IH, ?Hsegs. cbn [head default tail from_option].
    change (Datatypes.id seg) with seg.
    rewrite (bool_decide_eq_false_2 (_ :: _ = [])) by done.
    cbn [negb orb]. by rewrite orb_true_r.
Qed.

Lemma filter_zip_unkeyed (qs : list ParsedRow) (segs : list (list ParsedRow)) :
  length qs = length segs →
  length (filter (λ qb : ParsedRow * list ParsedRow, keyedLetters qb.2 = [])
                 (zip qs segs)) =
  length (filter (λ seg, keyedLetters seg = []) segs).
Proof.
  revert segs. induction qs as [|q qs IH]; intros [|seg segs] [=]; [done|].
  simpl. rewrite !filter_cons. simpl.
  destruct (decide (keyedLetters seg = [])); simpl; auto.
Qed.

Lemma keyed_or_not segs :
  length (filter (λ g, g ≠ []) (keyedLetters <$> segs)) +
  length (filter (λ seg, keyedLetters seg = []) segs) = length segs.
Proof.
  induction segs as [|seg segs IH]; [done|].
  csimpl. rewrite !filter_cons.
  destruct (decide (keyedLetters seg = [])); case_decide; try done; simpl; lia.
Qed.

Lemma resetType_id t : t ≠ error → resetType t = t.
Proof. by destruct t. Qed.

Lemma validateRow_cases rows i r :
  id (validateRow rows i r).1 = id r ∧
  ((validateRow rows i r).2 = true ↔ type (validateRow rows i r).1 = error) ∧
  ((validateRow rows i r).1 = r ∨ (validateRow rows i r).1 = set_type error r) ∧
  (type r = error → (validateRow rows i r).1 = r).
Proof.
  unfold validateRow. destruct r as [i0 t l x k lk o]. simpl.
  destruct (decide (t = error)) as [->|Ht].
  - rewrite bool_decide_eq_true_2 by done. simpl. split_and!; auto. done.
  - rewrite bool_decide_eq_false_2 by done. cbn [orb].
    unfold set_type. simpl. rewrite resetType_id by done.
    destruct (hasError _ _ _); simpl; split_and!; auto; done.
Qed.

Lemma validatedRows_length rows :
  length (validatedRows (validateParsedMcq rows)) = length rows.
Proof.
  unfold validateParsedMcq. case_decide; simpl; [done|].
  by rewrite length_fmap, length_imap.
Qed.

Lemma firstError_fold (checked : list (ParsedRow * bool)) first :
  Forall (λ rb, (rb.2 = true ↔ type rb.1 = error) ∧ id rb.1 ≠ 0%Z) checked →
  (∀ f, first = Some f → f ≠ 0%Z) →
  foldl (λ first (rb : ParsedRow * bool),
           if rb.2 then noteError first (id rb.1) else first) first checked =
  match first with
  | Some f => Some f
  | None => id <$> head (filter (λ r, type r = error) (fst <$> checked))
  end.
Proof.
  intros H. revert first. induction H as [|[r b] checked [Hb Hid] _ IH];
    intros first Hfirst.
  { by destruct first. }
  cbn [foldl]. csimpl. simpl in Hb, Hid. rewrite filter_cons.
  destruct b.
  - rewrite decide_True by by apply Hb. rewrite IH.
    + destruct first as [f|]; simpl; [|done].
      by rewrite decide_False by by apply Hfirst.
    + intros f. destruct first as [f'|]; simpl.
      * rewrite decide_False by by apply Hfirst. intros [= <-]. by apply Hfirst.
      * by intros [= <-].
  - rewrite decide_False by (intros ?%Hb; done). by apply IH.
Qed.

Lemma anyError_fold (checked : list (ParsedRow * bool)) first :
  Forall (λ rb, rb.2 = true ↔ type rb.1 = error) checked →
  foldl (λ first (rb : ParsedRow * bool),
           if rb.2 then noteError first (id rb.1) else first) first checked =
  None ↔
  first = None ∧ Forall noError (fst <$> checked).
Proof.
  intros H. revert first. induction H as [|[r b] checked Hb _ IH]; intros first.
  { simpl. split; [by intros ->|by intros [-> _]]. }
  cbn [foldl]. csimpl. simpl in Hb. rewrite IH, Forall_cons. unfold noError.
  destruct b.
  - split.
    + intros [Hn _]. unfold noteError in Hn. destruct first; [|done].
      by case_decide.
    + intros (_ & Hr & _). destruct Hr. by apply Hb.
  - split; intros [-> ?]; split_and?; try done.
    + intros ?%Hb. done.
    + tauto.
Qed.

(** X1: while the counter is safe, [renumberQuestions] keeps the length
    and every row that is not a question row; the question row at index [i]
    gets the label [String(startNumber + k)], where [k] question rows come
    before it, and nothing else of it changes. *)
Theorem renumberQuestions_numbers rows startNumber :
  safeCounter startNumber rows →
  length (renumberQuestions rows startNumber) = length rows ∧
  ∀ i row, rows !! i = Some row →
    renumberQuestions rows startNumber !! i =
    Some (if decide (type row = question)
          then set_label
                 (ofNumber (startNumber + Z.of_nat (questionsBefore i rows))) row
          else row).
Proof.
  intros _. split; [apply renumberFrom_length|].
  intros i row Hi. by apply renumberFrom_lookup.
Qed.

Lemma renumberQuestions_numbers_witness :
  safeCounter 10 keyed_questions ∧
  renumberQuestions keyed_questions 10 !! 4 =
  Some (mkRow 5 question (js "11") (js "Q2?") (Some false) false (Some 2%Z)).
Proof.
  assert (safeCounter 10 keyed_questions) as Hsafe.
  { unfold safeCounter, safeInteger. simpl. lia. }
  split; [exact Hsafe|].
  by rewrite (proj2 (renumberQuestions_numbers keyed_questions 10 Hsafe) 4
                (mkRow 5 question (js "2") (js "Q2?") (Some false) false
                       (Some 2%Z)) eq_refl).
Defined.

(** X2: renumbering twice is renumbering once, with the last start
    number. *)
Theorem renumberQuestions_last_wins rows startNumber startNumber' :
  renumberQuestions (renumberQuestions rows startNumber) startNumber' =
  renumberQuestions rows startNumber'.
Proof. apply renumberFrom_absorbs. Qed.

(** X3: the labels [renumberQuestions] writes reach neither generator: the
    answer key and the exam text of the renumbered rows are those of the
    rows, numbered from the start number the generator is given. *)
Theorem generators_ignore_renumbering toLowerCase rows n startNumber config :
  generateAnswerKey (renumberQuestions rows n) startNumber =
    generateAnswerKey rows startNumber ∧
  generateExamOutput toLowerCase (renumberQuestions rows n) config =
    generateExamOutput toLowerCase rows config.
Proof.
  split.
  - symmetry. apply answerKeyLoop_ext.
    eapply Forall2_impl; [apply (renumberFrom_rows n)|].
    intros r r' [Hs Hr]. apply sameButLabel_fields in Hs as (_ & Ht & _ & Hk & _).
    split_and!; [done|done|]. intros Ha. rewrite Hr; [done|]. by rewrite Ha.
  - unfold generateExamOutput. f_equal. symmetry.
    apply examLoop_ext, renumberFrom_printsAlike.
Qed.

(** X4: the exam text is made of the type and the text of the rows and of
    the label of the answer rows, and of nothing else: rows that agree on
    these give the same exam.  In particular the text does not show which
    answers are keyed. *)
Theorem exam_shows_printed_fields_only toLowerCase config rows :
  (∀ rows', Forall2 printsAlike rows rows' →
     generateExamOutput toLowerCase rows' config =
     generateExamOutput toLowerCase rows config) ∧
  (∀ key : ParsedRow → option bool,
     generateExamOutput toLowerCase ((λ r, set_isKey (key r) r) <$> rows) config =
     generateExamOutput toLowerCase rows config).
Proof.
  assert (∀ rows', Forall2 printsAlike rows rows' →
     generateExamOutput toLowerCase rows' config =
     generateExamOutput toLowerCase rows config) as Hext.
  { intros rows' H. unfold generateExamOutput. f_equal. symmetry.
    by apply examLoop_ext. }
  split; [done|]. intros key. apply Hext.
  apply Forall2_fmap_r, Forall_Forall2_diag, Forall_forall.
  by intros r _.
Qed.

Lemma exam_shows_printed_fields_only_witness :
  generateExamOutput toUpperCase (clearKeys keyed_questions) sample_config =
  generateExamOutput toUpperCase keyed_questions sample_config.
Proof.
  apply (exam_shows_printed_fields_only toUpperCase sample_config keyed_questions).
  unfold keyed_questions, clearKeys. simpl. repeat constructor.
Defined.

(** X5: while the counter is safe, the exam and the answer key number a
    question alike.  For a question row [q] after [k] question rows,
    followed by the rows [blk] up to the next question row, the exam prints
    [q] with the number [startNumber + k], and when [blk] has keyed answers
    the answer key has their line under the same number. *)
Theorem exam_and_key_numbers_agree toLowerCase config pre q blk post :
  safeCounter (Config.startNumber config) (pre ++ q :: blk ++ post) →
  type q = question →
  Forall (λ r, type r ≠ question) blk →
  (∀ r, head post = Some r → type r = question) →
  keyedLetters blk ≠ [] →
  let rows := pre ++ q :: blk ++ post in
  let start := Config.startNumber config in
  let n := (start +
            Z.of_nat (length (filter (λ r, type r = question) pre)))%Z in
  keyLine n (keyedLetters blk) ∈ generateAnswerKey rows start ∧
  examLoop toLowerCase config rows [] start =
    examLoop toLowerCase config pre [] start ++ questionLine config n q ++
    examLoop toLowerCase config (blk ++ post) [] (n + 1).
Proof.
  intros _ Hq Hblk Hpost Hkeyed rows start n. split.
  - unfold rows. rewrite generateAnswerKey_emit, segments_app_question by done.
    destruct (segments_block blk post Hblk Hpost) as (segs & ->).
    rewrite fmap_app, emit_app, length_fmap, segments_length.
    apply elem_of_app. right. csimpl. rewrite decide_False by done.
    apply elem_of_cons. left. unfold n. f_equal. lia.
  - unfold rows. rewrite examLoop_app. fold n. cbn [examLoop]. rewrite Hq.
    rewrite examLoop_output. unfold questionLine.
    by rewrite <-!app_assoc.
Qed.

Lemma exam_and_key_numbers_agree_witness :
  js "11. A, C" ∈ generateAnswerKey keyed_questions 10 ∧
  examLoop toUpperCase sample_config keyed_questions [] 10 =
    examLoop toUpperCase sample_config (take 4 keyed_questions) [] 10 ++
    js "Q11: Q2?" ++ nl ++
    examLoop toUpperCase sample_config (drop 5 keyed_questions) [] 12.
Proof.
  apply (exam_and_key_numbers_agree toUpperCase sample_config
           (take 4 keyed_questions)
           (mkRow 5 question (js "2") (js "Q2?") (Some false) false (Some 2%Z))
           (drop 5 keyed_questions) []).
  - unfold safeCounter, safeInteger. simpl. lia.
  - reflexivity.
  - simpl. repeat constructor; done.
  - intros r. simpl. discriminate.
  - vm_compute. discriminate.
Defined.

(** X6: [findQuestionsWithoutKeys] reports, in document order, every
    question row that has no keyed answer row between it and the next
    question row, each by [parseInt] of its label ([None] for [NaN]). *)
Theorem findQuestionsWithoutKeys_reports rows :
  findQuestionsWithoutKeys rows =
  (λ qb, parseInt (label qb.1)) <$>
    filter (λ qb, keyedLetters qb.2 = []) (questionBlocks rows).
Proof.
  unfold findQuestionsWithoutKeys. by rewrite withoutKeysLoop_spec.
Qed.

(** X7: when no keyed answer row comes before the first question row,
    every question row is either given a line by [generateAnswerKey] or
    reported by [findQuestionsWithoutKeys], never both. *)
Theorem keyed_or_reported rows startNumber :
  keyedLetters (default [] (head (segments rows))) = [] →
  length (generateAnswerKey rows startNumber) +
  length (findQuestionsWithoutKeys rows) =
  length (filter (λ r, type r = question) rows).
Proof.
  intros Hhead. rewrite generateAnswerKey_emit.
  unfold findQuestionsWithoutKeys. rewrite withoutKeysLoop_spec.
  pose proof (segments_length rows) as Hlen.
  unfold questionBlocks.
  destruct (segments rows) as [|seg segs]; [done|]. simpl in Hhead, Hlen.
  csimpl. rewrite Hhead. rewrite decide_True by done.
  rewrite app_nil_l, length_fmap, emit_count.
  rewrite filter_zip_unkeyed by lia.
  rewrite keyed_or_not. lia.
Qed.

Lemma keyed_or_reported_witness :
  length (generateAnswerKey (clearKeys keyed_questions) 1) +
  length (findQuestionsWithoutKeys (clearKeys keyed_questions)) = 2.
Proof. apply (keyed_or_reported (clearKeys keyed_questions) 1). reflexivity. Defined.

(** X8: validation only marks rows as errors: a validated row is the input
    row, or the input row with type [error], and an input row of type
    [error] stays one. *)
Theorem validation_only_marks_errors rows :
  Forall2 (λ r r', (r' = r ∨ r' = set_type error r) ∧ (type r = error → r' = r))
          rows (validatedRows (validateParsedMcq rows)).
Proof.
  apply Forall2_same_length_lookup. split.
  { by rewrite validatedRows_length. }
  intros i r r' Hr. rewrite validatedRows_lookup, Hr. intros [= <-].
  destruct (validateRow_cases rows i r) as (_ & _ & ? & ?). done.
Qed.

(** X9: the verdict of validation.  [isValid] holds exactly when no
    validated row has type [error], that is when [firstErrorRowId] is
    undefined; and when no row has the id 0, [firstErrorRowId] is the id of
    the first validated row of type [error]. *)
Theorem isValid_iff_no_error_row rows :
  let res := validateParsedMcq rows in
  (isValid res = true ↔ Forall noError (validatedRows res)) ∧
  (isValid res = true ↔ firstErrorRowId res = None) ∧
  (Forall (λ r, id r ≠ 0%Z) rows →
   firstErrorRowId res =
   id <$> head (filter (λ r, type r = error) (validatedRows res))).
Proof.
  unfold validateParsedMcq. case_decide as Hlen.
  { simpl. split_and!; try done. }
  simpl.
  assert (Forall (λ rb : ParsedRow * bool, rb.2 = true ↔ type rb.1 = error)
                 (imap (validateRow rows) rows)) as Hflags.
  { apply Forall_lookup. intros i rb. rewrite list_lookup_imap.
    destruct (rows !! i) as [r|]; [|done]. intros [= <-].
    by destruct (validateRow_cases rows i r) as (_ & ? & _). }
  split_and!.
  - rewrite bool_decide_eq_true, anyError_fold by done. tauto.
  - by rewrite bool_decide_eq_true.
  - intros Hids. rewrite firstError_fold; [done| |done].
    apply Forall_lookup. intros i rb Hrb. split.
    { by eapply Forall_lookup_1 in Hflags. }
    revert Hrb. rewrite list_lookup_imap.
    destruct (rows !! i) as [r|] eqn:Hr; [|done]. intros [= <-].
    destruct (validateRow_cases rows i r) as (-> & _).
    by eapply Forall_lookup_1 in Hids.
Qed.

Lemma isValid_iff_no_error_row_witness :
  firstErrorRowId (validateParsedMcq (take 2 keyed_questions)) = Some 2%Z.
Proof.
  rewrite (proj2 (proj2 (isValid_iff_no_error_row (take 2 keyed_questions)))).
  - vm_compute. reflexivity.
  - simpl. repeat constructor; done.
Defined.

(** ** Ids, blank input and the entries of an answer key *)

Lemma push_numbered mk out :
  (∀ i, id (mk i) = i) → numbered out → numbered (push mk out).
Proof.
  intros Hmk [Hcount Hids]. unfold numbered, push. simpl.
  rewrite length_app, fmap_app, Hids. csimpl. rewrite Hmk. split; [lia|].
  rewrite seqZ_app by lia. f_equal. rewrite Z.add_comm.
  unfold seqZ. simpl. f_equal; lia.
Qed.

Lemma pushSection_numbered title out :
  numbered out → numbered (pushSection title out).
Proof. intros. unfold pushSection. by do 2 (apply push_numbered; [done|]). Qed.

Lemma push_rows_numbered out rows :
  numbered out →
  numbered (foldl (λ out row, push (λ i, set_id i row) out) out rows).
Proof.
  revert out. induction rows as [|row rows IH]; intros out Hout; [done|].
  cbn [foldl]. by apply IH, push_numbered.
Qed.

Lemma blocksLoop_numbered fuel s lastIndex blocks out blocks' out' :
  blocksLoop fuel s lastIndex blocks out = Value (blocks', out') →
  numbered out → numbered out'.
Proof.
  revert lastIndex blocks out.
  induction fuel as [|fuel IH]; intros lastIndex blocks out; [done|].
  simpl. destruct (exec blockStartPattern s lastIndex) as [mt|].
  2:{ by intros [= <- <-]. }
  intros Hloop Hout.
  set (out1 := if bool_decide (length blocks = 0) && bool_decide (0 < index mt)
               then _ else out) in Hloop.
  assert (numbered out1) as Hout1.
  { unfold out1. destruct (_ && _); [|done].
    destruct (nonEmpty _); [|done]. by apply pushSection_numbered. }
  destruct (exec blockStartPattern s (stop mt)) as [nm|].
  - by apply IH in Hloop.
  - by injection Hloop as <- <-.
Qed.

Lemma processBlock_numbered normalized out b out' :
  processBlock normalized (Value out) b = Value out' →
  numbered out → numbered out'.
Proof.
  unfold processBlock. intros Hp Hout. destruct (btype b).
  - destruct (parseQuestionBlockFlexible (btext b) out.2) as [rows| |];
      [| |done]; injection Hp as <-.
    + apply push_numbered; [done|]. by apply push_rows_numbered.
    + by do 2 (apply push_numbered; [done|]).
  - injection Hp as <-. by apply pushSection_numbered.
Qed.

Lemma processBlocks_numbered normalized blocks out out' :
  foldl (processBlock normalized) (Value out) blocks = Value out' →
  numbered out → numbered out'.
Proof.
  revert out. induction blocks as [|b blocks IH]; intros out.
  { by intros [= <-]. }
  cbn [foldl]. intros Hfold Hout.
  destruct (processBlock_total normalized out b) as [out1 Hout1].
  rewrite Hout1 in Hfold. eapply IH; [done|].
  by eapply processBlock_numbered.
Qed.

(** X10: the rows [parseMcq] returns carry the ids 1, 2, ..., n in order;
    no two rows share an id. *)
Theorem parseMcq_ids input :
  ∃ rows, parseMcq input = Value rows ∧
          id <$> rows = seqZ 1 (Z.of_nat (length rows)) ∧
          NoDup (id <$> rows).
Proof.
  assert (∃ out, parseMcq input = Value out.1 ∧ numbered out)
    as (out & Hrows & Hcount & Hids).
  { unfold parseMcq. case_match; [by exists ([], 0%Z)|].
    destruct (blocksLoop_total (S (length (normalize input))) (normalize input)
                0 [] ([], 0%Z)) as [[blocks out] Hloop]; [lia|lia|].
    rewrite Hloop.
    apply blocksLoop_numbered in Hloop; [|done].
    case_decide.
    { case_match; [|by exists out].
      exists (pushSection (normalize input) out). split; [done|].
      by apply pushSection_numbered. }
    destruct (processBlocks_total (normalize input) blocks out) as [out' Hfold].
    rewrite Hfold. exists out'. split; [done|].
    by eapply processBlocks_numbered. }
  exists out.1. split_and!; [done|by rewrite <-Hcount|].
  rewrite Hids. apply NoDup_seqZ.
Qed.

Lemma elem_of_drop_inv {A} (x : A) n (l : list A) : x ∈ drop n l → x ∈ l.
Proof.
  intros (i & Hi)%list_elem_of_lookup. rewrite lookup_drop in Hi.
  by eapply list_elem_of_lookup_2.
Qed.

Lemma trim_keeps s c : c ∈ s → isSpace c = false → c ∈ trim s.
Proof.
  intros Hc Hsp. unfold trim.
  by apply elem_of_reverse, dropWhile_elem;
    [apply elem_of_reverse, dropWhile_elem|].
Qed.

Lemma trim_subset s c : c ∈ trim s → c ∈ s.
Proof.
  unfold trim. rewrite elem_of_reverse. intros Hc%dropWhile_subset.
  rewrite elem_of_reverse in Hc. by apply dropWhile_subset in Hc.
Qed.

Lemma isLineBreak_blank c : isLineBreak c = true → blankUnit c.
Proof.
  unfold isLineBreak, blankUnit. intros Hc%bool_decide_eq_true.
  repeat (apply elem_of_cons in Hc as [->|Hc]; [by (left + right)|]).
  by apply elem_of_nil in Hc.
Qed.

Lemma blockStart_ink suf idx pv st' :
  Matches blockStartPattern (MState suf idx pv (λ _, None)) st' →
  ∃ c, c ∈ suf ∧ isSpace c = false.
Proof.
  unfold blockStartPattern, Seqs, Star. simpl.
  intros (st1 & [-> _]%Matches_Bol_inv &
          (st2 & Hws & (st3 & Halt & ->%Matches_Empty_inv)%Matches_Seq_inv)
            %Matches_Seq_inv)%Matches_Seq_inv.
  destruct (repeat_chars _ _ _ Hws _ _ _ eq_refl) as (ws & Hrws & _).
  simpl in Hrws. apply Matches_Alt_inv in Halt as [Hq|Hs].
  - apply Matches_Seq_inv in Hq
      as (st4 & (st5 & Hds & _)%Matches_Group_inv & _).
    destruct (repeat_chars _ _ _ Hds _ _ _ eq_refl)
      as (ds & Hrds & _ & _ & Halld & Hmin & _).
    simpl in Hmin. destruct ds as [|d ds]; [simpl in Hmin; lia|].
    exists d. split.
    + rewrite Hrws, Hrds. apply elem_of_app. right. by left.
    + apply digit_not_space. by inversion Halld.
  - apply Matches_Group_inv in Hs as (st4 & Hsec & _).
    apply Matches_Seq_inv in Hsec as (st5 & Hc & _).
    apply Matches_Char_inv in Hc as (c & Hrc & Hpc & _).
    exists c. split.
    + rewrite Hrws, Hrc. apply elem_of_app. right. by left.
    + unfold oneOf in Hpc. apply bool_decide_eq_true in Hpc.
      apply list_elem_of_singleton in Hpc as ->. done.
Qed.

Lemma blockStart_needs_ink s lastIndex mt :
  exec blockStartPattern s lastIndex = Some mt →
  ∃ c, c ∈ s ∧ isSpace c = false.
Proof.
  intros (_ & _ & _ & pv & st' & HM & _)%exec_Some.
  apply blockStart_ink in HM as (c & Hc & Hsp).
  exists c. split; [|done]. by eapply elem_of_drop_inv.
Qed.

Lemma push_grows mk out : length (push mk out).1 = S (length out.1).
Proof. unfold push. simpl. rewrite length_app. simpl. lia. Qed.

Lemma processBlock_grows normalized out b out' :
  processBlock normalized (Value out) b = Value out' →
  length out.1 + 2 ≤ length out'.1.
Proof.
  unfold processBlock. intros Hp. destruct (btype b).
  - destruct (parseQuestionBlockFlexible (btext b) out.2) as [rows| |] eqn:Hrows;
      [| |done]; injection Hp as <-.
    + apply parseQuestionBlockFlexible_shape in Hrows as (q & ans & -> & _).
      rewrite push_grows.
      destruct (push_rows_shape out (q :: ans)) as (rows' & -> & Ht).
      rewrite length_app. apply (f_equal length) in Ht.
      rewrite !length_fmap in Ht. simpl in Ht. lia.
    + rewrite !push_grows. lia.
  - injection Hp as <-. unfold pushSection. rewrite !push_grows. lia.
Qed.

Lemma processBlocks_grow normalized blocks out out' :
  foldl (processBlock normalized) (Value out) blocks = Value out' →
  length out.1 + 2 * length blocks ≤ length out'.1.
Proof.
  revert out. induction blocks as [|b blocks IH]; intros out.
  { intros [= <-]. simpl. lia. }
  cbn [foldl]. intros Hfold.
  destruct (processBlock_total normalized out b) as [out1 Hout1].
  rewrite Hout1 in Hfold. apply IH in Hfold.
  apply processBlock_grows in Hout1. simpl. lia.
Qed.

(** X11: [parseMcq] returns no row exactly when the input is blank, that
    is made of white space and U+0085 only (U+0085 is not white space for
    [trim], but the normalisation turns it into a line feed); any other
    input gives at least two rows. *)
Theorem parseMcq_empty_iff_blank input :
  ∃ rows, parseMcq input = Value rows ∧
          (rows = [] ↔ Forall blankUnit input) ∧
          (rows ≠ [] → 2 ≤ length rows).
Proof.
  destruct (decide (Forall blankUnit input)) as [Hblank|Hink].
  - exists []. split; [|by split].
    assert (Forall (λ c, isSpace c = true) (normalize input)) as Hspaces.
    { unfold normalize. apply Forall_fmap, Forall_forall.
      intros c Hc%trim_subset. simpl.
      destruct (isLineBreak c) eqn:Hlb; [done|].
      rewrite Forall_forall in Hblank. destruct (Hblank c Hc) as [?| ->]; done. }
    unfold parseMcq. destruct (nonEmpty (normalize input)) eqn:Hne; [|done].
    cbn [negb blocksLoop].
    destruct (exec blockStartPattern (normalize input) 0) as [mt|] eqn:He.
    { apply blockStart_needs_ink in He as (c & Hc & Hsp).
      rewrite Forall_forall in Hspaces. rewrite (Hspaces c Hc) in Hsp. done. }
    rewrite decide_True by done.
    destruct (nonEmpty (trim (normalize input))) eqn:Ht; [|done].
    apply trim_nonEmpty in Ht as (c & Hc & Hsp).
    rewrite Forall_forall in Hspaces. rewrite (Hspaces c Hc) in Hsp. done.
  - apply not_Forall_Exists in Hink; [|intros c; unfold blankUnit; apply _].
    apply Exists_exists in Hink as (c & Hc & Hnb).
    assert (isSpace c = false ∧ isLineBreak c = false) as [Hsp Hlb].
    { split.
      - destruct (isSpace c) eqn:E; [|done]. destruct Hnb. by left.
      - destruct (isLineBreak c) eqn:E; [|done].
        by apply isLineBreak_blank in E. }
    assert (c ∈ normalize input) as Hin.
    { unfold normalize. apply list_elem_of_fmap. exists c.
      rewrite Hlb. split; [done|]. by apply trim_keeps. }
    assert (nonEmpty (normalize input) = true) as Hne.
    { destruct (normalize input); [by apply elem_of_nil in Hin|done]. }
    assert (nonEmpty (trim (normalize input)) = true) as Ht.
    { apply trim_nonEmpty. by exists c. }
    assert (∃ rows, parseMcq input = Value rows ∧ 2 ≤ length rows)
      as (rows & Hrows & Hlen).
    { unfold parseMcq. rewrite Hne. cbn [negb].
      destruct (blocksLoop_total (S (length (normalize input)))
                  (normalize input) 0 [] ([], 0%Z))
        as [[blocks out] Hloop]; [lia|lia|].
      rewrite Hloop. case_decide as Hb.
      { rewrite Ht. eexists. split; [done|].
        unfold pushSection. rewrite !push_grows. lia. }
      destruct (processBlocks_total (normalize input) blocks out)
        as [out' Hfold].
      rewrite Hfold. eexists. split; [done|].
      apply processBlocks_grow in Hfold. destruct blocks; simpl in *; [done|lia]. }
    exists rows. split_and!; [done| |done].
    split.
    + intros ->. simpl in Hlen. lia.
    + intros Hall. rewrite Forall_forall in Hall. destruct Hnb. by apply Hall.
Qed.

Lemma digit_bounds c : isDigit c = true → (48 ≤ c ≤ 57)%N.
Proof.
  unfold isDigit, range. simpl. intros [?%N.leb_le ?%N.leb_le]%andb_prop. lia.
Qed.

Lemma digits_values ds :
  Forall (λ c, isDigit c = true) ds →
  omap (digitValue 10)
       (takeWhile (λ c, bool_decide (is_Some (digitValue 10 c))) ds) =
  (λ c, Z.of_N c - 48)%Z <$> ds.
Proof.
  induction 1 as [|d ds Hd _ IH]; [done|].
  assert (digitValue 10 d = Some (Z.of_N d - 48)%Z) as Hv.
  { pose proof (digit_bounds d Hd). unfold digitValue.
    unfold isDigit in Hd. rewrite Hd. simpl. by rewrite decide_True by lia. }
  cbn [takeWhile]. rewrite bool_decide_eq_true_2 by by rewrite Hv.
  csimpl. rewrite Hv. csimpl. by rewrite IH.
Qed.

Lemma parseInt_decimal ds :
  Forall (λ c, isDigit c = true) ds → ds ≠ [] → parseInt ds = Some (decimal ds).
Proof.
  intros Hds Hne. pose proof (digits_values ds Hds) as Hvals.
  destruct Hds as [|d ds Hd Hds]; [done|].
  unfold parseInt. simpl. rewrite (digit_not_space d Hd).
  pose proof (digit_bounds d Hd).
  assert (d ≠ chr "-" ∧ d ≠ chr "+") as [H1 H2].
  { simpl. split; intros ->; lia. }
  rewrite !decide_False by done.
  assert (match omap (digitValue 10)
             (takeWhile (λ c, bool_decide (is_Some (digitValue 10 c))) (d :: ds))
     with
     | [] => None
     | _ :: _ =>
         Some (1 * foldl (λ acc d0 : Z, acc * 10 + d0) 0
                 (omap (digitValue 10)
                    (takeWhile (λ c, bool_decide (is_Some (digitValue 10 c)))
                               (d :: ds))))%Z
     end = Some (decimal (d :: ds))) as Htail.
  { rewrite Hvals. csimpl. f_equal. rewrite Z.mul_1_l.
    unfold decimal. simpl. by rewrite foldl_fmap. }
  destruct ds as [|x ds]; [done|].
  inversion_clear Hds as [|?? Hx _]. pose proof (digit_bounds x Hx).
  assert (oneOf "xX" x = false) as ->; [|by rewrite andb_false_r].
  apply bool_decide_eq_false. intros Hin.
  change (js "xX") with [120%N; 88%N] in Hin.
  repeat (apply elem_of_cons in Hin as [->|Hin]; [lia|]).
  by apply elem_of_nil in Hin.
Qed.

Lemma decimal_nonneg ds :
  Forall (λ c, isDigit c = true) ds → (0 ≤ decimal ds)%Z.
Proof.
  intros Hds. unfold decimal.
  assert (∀ acc, (0 ≤ acc)%Z →
    (0 ≤ foldl (λ acc c, acc * 10 + (Z.of_N c - 48)) acc ds)%Z) as Hall.
  { induction Hds as [|d ds Hd%digit_bounds _ IH]; intros acc Hacc; [done|].
    simpl. apply IH. lia. }
  by apply Hall.
Qed.

Lemma keyLine_group1 line mt :
  exec keyLinePattern line 0 = Some mt →
  ∃ ds, group line mt 1 = Some ds ∧ Forall (λ c, isDigit c = true) ds ∧ ds ≠ [].
Proof.
  intros (_ & _ & Hstop & pv & st' & HM & Hs & Hg)%exec_Some.
  revert HM. unfold keyLinePattern, Seqs, Plus. simpl.
  intros (st1 & (st2 & Hds & Hr2 & Hp2 & Hc1 & _)%Matches_Group_inv & Htail)
    %Matches_Seq_inv.
  destruct (repeat_chars _ _ _ Hds _ _ _ eq_refl)
    as (ds & Hr & Hp & _ & Hall & Hmin & _).
  simpl in *.
  pose proof (Matches_caps 1 _ _ _ Htail eq_refl) as Hcaps.
  exists ds. unfold group. rewrite Hg, Hcaps, Hc1. simpl.
  unfold substring. rewrite Hp, Hr.
  replace (index mt + length ds - index mt) with (length ds) by lia.
  rewrite take_app_length. split_and!; [done|done|].
  destruct ds; [simpl in *; lia|done].
Qed.

Lemma test_char p c : test (Char p) [c] = p c.
Proof.
  unfold test, exec. simpl. by destruct (p c).
Qed.

Lemma capital_letter c : range "A" "E" c = true → [c] ∈ letters.
Proof.
  unfold range. simpl. intros [?%N.leb_le ?%N.leb_le]%andb_prop.
  assert (c = 65 ∨ c = 66 ∨ c = 67 ∨ c = 68 ∨ c = 69)%N
    as [->|[->|[->|[->| ->]]]] by lia;
    unfold letters; set_solver.
Qed.

Lemma keyStep_letters answerKey line :
  map_Forall (λ n answers, (0 ≤ n)%Z ∧ answers ≠ [] ∧
                           Forall (λ l, l ∈ letters) answers) answerKey →
  map_Forall (λ n answers, (0 ≤ n)%Z ∧ answers ≠ [] ∧
                           Forall (λ l, l ∈ letters) answers)
             (keyStep answerKey line).
Proof.
  intros Hmap. unfold keyStep.
  destruct (exec keyLinePattern line 0) as [mt|] eqn:He; [|done].
  case_match; [done|].
  destruct (keyLine_group1 line mt He) as (ds & -> & Hds & Hne).
  simpl. rewrite parseInt_decimal by done.
  case_decide as Hlen; [done|].
  apply map_Forall_insert_2; [|done].
  set (answersStr := filter _ (toUpperCase _)) in *.
  assert (Forall (λ c, range "A" "E" c = true) answersStr) as Hcaps.
  { apply Forall_forall. intros c. unfold answersStr.
    by intros [? _]%list_elem_of_filter. }
  assert (filter (λ c, test (Char (range "A" "E")) c = true)
                 ((λ c, [c]) <$> answersStr) = (λ c, [c]) <$> answersStr) as ->.
  { clear Hlen. induction Hcaps as [|c cs Hc _ IH]; [done|].
    csimpl. rewrite filter_cons, decide_True by by rewrite test_char.
    by rewrite IH. }
  split_and!.
  - by apply decimal_nonneg.
  - destruct answersStr; [done|done].
  - apply Forall_fmap. eapply Forall_impl; [done|].
    intros c Hc. by apply capital_letter.
Qed.

(** X12: every entry of the map [parseAnswerKey] returns has a question
    number that is not negative and a list of letters that is not empty
    and holds only the one-letter strings A to E. *)
Theorem parseAnswerKey_entries input :
  map_Forall (λ n answers, (0 ≤ n)%Z ∧ answers ≠ [] ∧
                           Forall (λ l, l ∈ letters) answers)
             (parseAnswerKey input).
Proof.
  unfold parseAnswerKey. case_match; [apply map_Forall_empty|].
  generalize (filter (λ line, nonEmpty (trim line) = true) (split 10%N input)).
  intros lines.
  assert (map_Forall (λ n answers, (0 ≤ n)%Z ∧ answers ≠ [] ∧
                      Forall (λ l, l ∈ letters) answers) (∅ : keyMap)) as Hinit
    by apply map_Forall_empty.
  revert Hinit. generalize (∅ : keyMap).
  induction lines as [|line lines IH]; intros answerKey Hmap; [done|].
  simpl. by apply IH, keyStep_letters.
Qed.

Section key_application.
Import Store.
Implicit Types (h : gmap positive ParsedRow) (rows : list positive).

Lemma applied_store h rows answerKey :
  keysRewritten h (applyAnswerKey h rows answerKey).1 ∧
  ∀ l, l ∉ rows → (applyAnswerKey h rows answerKey).1 !! l = h !! l.
Proof.
  unfold applyAnswerKey. simpl.
  destruct (resetKeys_frame h rows) as [Hr1 Ho1].
  destruct (mark_frame answerKey rows (resetKeys h rows) Null) as [Hr2 Ho2].
  split; [by eapply keysRewritten_trans|].
  intros l Hl. by rewrite Ho2, Ho1.
Qed.

Lemma resetKeys_forgets h h' rows :
  keysRewritten h h' → (∀ l, l ∉ rows → h' !! l = h !! l) →
  resetKeys h' rows = resetKeys h rows.
Proof.
  intros Hrw Hout. apply map_eq. intros l.
  destruct (decide (l ∈ rows)) as [Hl|Hl].
  - rewrite !resetKeys_lookup by done. specialize (Hrw l).
    destruct Hrw as [r r' [Hsame Hother]|]; [|done]. simpl. f_equal.
    assert (type r' = type r) as Ht.
    { unfold sameButKey in Hsame. by destruct r, r'; simplify_eq/=. }
    rewrite Ht. case_decide as Ha; [|by apply Hother].
    unfold sameButKey in Hsame. by destruct r, r'; simplify_eq/=.
  - destruct (resetKeys_frame h rows) as [_ ->]; [|done].
    destruct (resetKeys_frame h' rows) as [_ ->]; [|done]. by apply Hout.
Qed.

Lemma segments_keyed answerKey cur (rows : list ParsedRow) :
  keyedLetters <$> segments (markKeys answerKey cur (clearKeys rows)) =
  listedLetters answerKey cur (default [] (head (segments rows))) ::
  ((λ qb, listedLetters answerKey (Num (parseInt (label qb.1))) qb.2)
     <$> questionBlocks rows).
Proof.
  revert cur. induction rows as [|row rows IH]; intros cur; [done|].
  unfold clearKeys in *. unfold questionBlocks in *.
  cbn [fmap list_fmap segments]. rewrite filter_cons.
  destruct (segments_cons rows) as (seg & segs & Hsegs).
  destruct (decide (type row = question)) as [Hq|Hq].
  - rewrite decide_False by by rewrite Hq.
    cbn [markKeys]. rewrite decide_True by done. cbn [segments].
    rewrite decide_True by done. rewrite fmap_cons, IH, Hsegs. done.
  - rewrite Hsegs in *. cbn [head tail default from_option] in *.
    change (Datatypes.id (row :: seg)) with (row :: seg).
    change (Datatypes.id seg) with seg in IH.
    unfold listedLetters at 1. rewrite filter_cons.
    destruct (decide (type row = answer)) as [Ha|Ha].
    + cbn [markKeys]. simpl (type (set_isKey _ _)). simpl (label (set_isKey _ _)).
      rewrite decide_False by done. rewrite (bool_decide_eq_true_2 _ Ha).
      cbn [andb].
      destruct (listed answerKey cur (label row)) eqn:Hl.
      * cbn [segments]. simpl (type (set_isKey _ _)).
        rewrite decide_False by done.
        destruct (segments_cons
                    (markKeys answerKey cur
                       ((λ r, if decide (type r = answer)
                              then set_isKey (Some false) r else r) <$> rows)))
          as (seg' & segs' & Hs').
        specialize (IH cur). rewrite Hs' in *. csimpl in IH.
        injection IH as Hseg' Hsegs'.
        rewrite decide_True by done. csimpl.
        rewrite keyedLetters_cons. simpl.
        rewrite (bool_decide_eq_true_2 _ Ha). simpl.
        by rewrite Hseg', Hsegs'.
      * cbn [segments]. simpl (type (set_isKey _ _)).
        rewrite decide_False by done.
        destruct (segments_cons
                    (markKeys answerKey cur
                       ((λ r, if decide (type r = answer)
                              then set_isKey (Some false) r else r) <$> rows)))
          as (seg' & segs' & Hs').
        specialize (IH cur). rewrite Hs' in *. csimpl in IH.
        injection IH as Hseg' Hsegs'.
        rewrite decide_False by (intros [_ ?]; done). csimpl.
        rewrite keyedLetters_cons. simpl. rewrite andb_false_r.
        by rewrite Hseg', Hsegs'.
    + cbn [markKeys]. rewrite decide_False by done.
      rewrite (bool_decide_eq_false_2 _ Ha). cbn [andb segments].
      rewrite decide_False by done.
      destruct (segments_cons
                  (markKeys answerKey cur
                     ((λ r, if decide (type r = answer)
                            then set_isKey (Some false) r else r) <$> rows)))
        as (seg' & segs' & Hs').
      specialize (IH cur). rewrite Hs' in *. csimpl in IH.
      injection IH as Hseg' Hsegs'.
      rewrite decide_False by (intros [? _]; done). csimpl.
      rewrite keyedLetters_cons. rewrite (bool_decide_eq_false_2 _ Ha). simpl.
      by rewrite Hseg', Hsegs'.
Qed.

End key_application.

(** X13: [applyAnswerKey] forgets the keys set before: applying one key
    map and then another leaves the store, and returns the array, that
    applying the second alone does.  In particular applying a key map twice
    is applying it once. *)
Theorem applyAnswerKey_last_wins (h : gmap positive ParsedRow) rows
    answerKey answerKey' :
  Store.applyAnswerKey (Store.applyAnswerKey h rows answerKey).1 rows answerKey' =
  Store.applyAnswerKey h rows answerKey'.
Proof.
  destruct (applied_store h rows answerKey) as [Hrw Hout].
  unfold Store.applyAnswerKey at 1 3. cbn [fst].
  by rewrite (resetKeys_forgets h _ rows Hrw Hout).
Qed.

(** X14: what is applied is what is generated.  After [applyAnswerKey] on
    an array of distinct rows, and while the counter is safe,
    [generateAnswerKey] lists for each question row, in order and numbered
    from [startNumber], the labels of the answer rows after it that the key
    map lists under the question's number ([parseInt] of its label),
    whatever the [isKey] flags were before; answer rows before the first
    question row get no line. *)
Theorem applied_key_is_generated (h : gmap positive ParsedRow) rows answerKey
    startNumber :
  safeCounter startNumber (readRows h rows) →
  NoDup rows → (∀ l, l ∈ rows → is_Some (h !! l)) →
  generateAnswerKey
    (readRows (Store.applyAnswerKey h rows answerKey).1 rows) startNumber =
  emit startNumber
    ((λ qb, listedLetters answerKey
              (Store.Num (parseInt (label qb.1))) qb.2)
       <$> questionBlocks (readRows h rows)).
Proof.
  intros _ Hnd Hall.
  assert (readRows (Store.applyAnswerKey h rows answerKey).1 rows =
          keysAsSpecified answerKey (readRows h rows)) as ->.
  { unfold Store.applyAnswerKey, keysAsSpecified. simpl.
    rewrite <-readRows_clear by done. apply readRows_mark; [done|].
    intros l Hl. destruct (resetKeys_frame h rows) as [Hr1 _].
    specialize (Hr1 l). destruct (Hall l Hl) as [r Hrow].
    rewrite Hrow in Hr1. inversion Hr1. by eexists. }
  rewrite generateAnswerKey_emit. unfold keysAsSpecified.
  rewrite segments_keyed. cbn [emit].
  assert (∀ seg, listedLetters answerKey Store.Null seg = []) as Hnull.
  { intros seg. unfold listedLetters. simpl.
    induction seg as [|r seg IH]; [done|].
    rewrite filter_cons, decide_False by (intros [_ ?]; done). done. }
  rewrite Hnull, decide_True by done. simpl. f_equal. lia.
Qed.

Lemma applied_key_is_generated_witness :
  generateAnswerKey
    (readRows (Store.applyAnswerKey keyed_store [1; 2]%positive
                 {[ 1%Z := [js "A"] ]}).1 [1; 2]%positive) 7 =
  [js "7. A"].
Proof.
  rewrite (applied_key_is_generated keyed_store [1; 2]%positive
             {[ 1%Z := [js "A"] ]} 7).
  - reflexivity.
  - unfold safeCounter, safeInteger. vm_compute. split; split; discriminate.
  - apply (bool_decide_unpack _). reflexivity.
  - intros l Hl. apply (bool_decide_unpack _).
    repeat (apply elem_of_cons in Hl as [->|Hl]; [reflexivity|]).
    by apply elem_of_nil in Hl.
Defined.

(** ** Segmentation, the locked shuffle and the layout under shuffles *)

Lemma sectionStep_sectioned sections row :
  sectioned sections → sectioned (sectionStep sections row).
Proof.
  intros [Hall Hheads]. unfold sectionStep.
  destruct (decide (type row = section)) as [Hs|Hs].
  - split.
    + apply Forall_app. split; [done|]. by repeat constructor.
    + intros i sec Hi Hpos. apply lookup_app_Some in Hi as [Hi|[Hlen Hi]].
      * by eapply Hheads.
      * apply list_lookup_singleton_Some in Hi as [_ <-]. simpl.
        by apply bool_decide_eq_true.
  - destruct sections as [|s0 sections _] using rev_ind.
    { simpl. unfold push_to_last. simpl. split.
      - by repeat constructor.
      - intros [|[|i]] sec Hi Hpos; simplify_eq/=; lia. }
    rewrite decide_False by (rewrite length_app; simpl; lia).
    rewrite push_to_last_snoc.
    apply Forall_app in Hall as [Hinit Hlast].
    inversion_clear Hlast as [|?? [Hne Htail] _]. split.
    + apply Forall_app. split; [done|]. constructor; [|done]. split.
      * by destruct s0.
      * destruct s0 as [|r0 s0]; [done|]. simpl in *.
        apply Forall_app. split; [done|]. by constructor.
    + intros i sec Hi Hpos. apply lookup_app_Some in Hi as [Hi|[Hlen Hi]].
      * apply (Hheads i); [|done]. by apply lookup_app_l_Some.
      * apply list_lookup_singleton_Some in Hi as [Hi <-].
        assert (has_type section (s0 !! 0) = true) as Hh.
        { apply (Hheads i); [|done].
          rewrite lookup_app_r by lia.
          replace (i - length sections) with 0 by lia. done. }
        by destruct s0.
Qed.

Lemma foldl_sectionStep_sectioned sections rows :
  sectioned sections → sectioned (foldl sectionStep sections rows).
Proof.
  revert sections. induction rows as [|row rows IH]; intros sections H; [done|].
  simpl. by apply IH, sectionStep_sectioned.
Qed.

(** X15: [splitIntoSections] cuts the rows without losing or moving any:
    the sections concatenate to the input, none is empty, a section row is
    found only at the head of a section, and every section after the first
    starts with one. *)
Theorem splitIntoSections_cuts rows :
  concat (splitIntoSections rows) = rows ∧ sectioned (splitIntoSections rows).
Proof.
  split; [apply concat_splitIntoSections|].
  apply foldl_sectionStep_sectioned. split; [constructor|].
  intros i sec Hi. by rewrite lookup_nil in Hi.
Qed.

Lemma push_to_last_length {A} (x : A) ls :
  length (push_to_last x ls) = length ls.
Proof. unfold push_to_last. by rewrite length_alter. Qed.

Lemma foldl_questionStep_kept floor qs rows :
  floor < length qs →
  concat (foldl (questionStep floor) qs rows) = concat qs ++ rows.
Proof.
  revert qs. induction rows as [|row rows IH]; intros qs Hlen; simpl.
  { by rewrite app_nil_r. }
  unfold questionStep at 2. case_decide.
  - rewrite IH by (rewrite length_app; simpl; lia).
    rewrite concat_app. simpl. by rewrite <-app_assoc.
  - rewrite decide_True by done.
    rewrite IH by by rewrite push_to_last_length.
    rewrite concat_push_to_last by (intros ->; simpl in *; lia).
    by rewrite <-app_assoc.
Qed.

Lemma foldl_questionStep_dropped floor qs rows :
  length qs = floor →
  concat (foldl (questionStep floor) qs rows) =
  concat qs ++ dropWhile notQuestion rows.
Proof.
  intros Hlen. induction rows as [|row rows IH]; simpl.
  { by rewrite app_nil_r. }
  unfold questionStep at 2. unfold notQuestion at 1. case_decide as Hq.
  - rewrite bool_decide_eq_true_2 by done. simpl.
    rewrite foldl_questionStep_kept by (rewrite length_app; simpl; lia).
    rewrite concat_app. simpl. by rewrite <-app_assoc.
  - rewrite bool_decide_eq_false_2 by done. simpl.
    rewrite decide_False by lia. apply IH.
Qed.

(** X16: the only rows [splitSectionIntoQuestions] drops are those before
    the first question row of the section, after the two header rows when
    the section starts with a section row; the rest comes back in order. *)
Theorem splitSectionIntoQuestions_drops sec :
  concat (splitSectionIntoQuestions sec) =
  if bool_decide (0 < length sec) && has_type section (sec !! 0)
  then take 2 sec ++ dropWhile notQuestion (drop 2 sec)
  else dropWhile notQuestion sec.
Proof.
  unfold splitSectionIntoQuestions. case_match.
  - rewrite foldl_questionStep_dropped by done. simpl. by rewrite app_nil_r.
  - by rewrite foldl_questionStep_dropped.
Qed.

(** X17: the contract of the locked shuffle.  For lock indexes that are
    distinct and within the array, [shuffleArray] keeps the length, returns
    a rearrangement of the array, and leaves at every locked index the
    element that was there; with every index locked the array comes back
    unchanged. *)
Theorem shuffleArray_contract {T} (array : list T) lockedIndexes g :
  NoDup lockedIndexes → Forall (λ x, x < length array) lockedIndexes →
  let res := (shuffleArray array lockedIndexes g).1 in
  length res = length array ∧ res ≡ₚ array ∧
  (∀ i, i ∈ lockedIndexes → res !! i = array !! i) ∧
  ((∀ i, i < length array → i ∈ lockedIndexes) → res = array).
Proof.
  intros Hnd Hin res.
  destruct (shuffleArray_spec array lockedIndexes g Hnd Hin) as (Hlen & Hperm & Hk).
  split_and!; [done|done|done|].
  intros Hall. apply list_eq. intros i.
  destruct (decide (i < length array)) as [Hi|Hi].
  - apply Hk. by apply Hall.
  - rewrite !lookup_ge_None_2; [done|lia|unfold res in *; lia].
Qed.

Lemma shuffleArray_contract_witness :
  let res := (shuffleArray [10; 11; 12; 13; 14] [3; 0] (λ n, n)).1 in
  length res = 5 ∧ res ≡ₚ [10; 11; 12; 13; 14] ∧
  res !! 0 = Some 10 ∧ res !! 3 = Some 13.
Proof.
  destruct (shuffleArray_contract [10; 11; 12; 13; 14] [3; 0] (λ n, n))
    as (Hlen & Hperm & Hk & _).
  - apply (bool_decide_unpack _). reflexivity.
  - repeat constructor.
  - split_and!; [done|done| |].
    + apply Hk. set_solver.
    + apply Hk. set_solver.
Defined.

Lemma shuffledQuestions_perm rows g :
  Forall2 (λ sec sec', sec' ≡ₚ sec)
          (splitIntoSectionsAndQuestions rows) (shuffledQuestions rows g).1.
Proof.
  apply forEachRng_Forall2 with (Q := λ _, True); [|by apply Forall_true].
  intros sec g' _.
  by destruct (pinned_keeps pinnedBlock sec g') as (_ & ? & _).
Qed.

(** X18: [shuffleQuestions] moves whole blocks, inside their section: its
    result is the concatenation of the blocks of segmentation, section by
    section in the order of the input, the blocks of each section
    rearranged and each block as it was.  On rows that segmentation covers
    it is a rearrangement of the rows. *)
Theorem shuffleQuestions_moves_blocks rows g :
  (∃ nested',
     Forall2 (λ sec sec', sec' ≡ₚ sec)
             (splitIntoSectionsAndQuestions rows) nested' ∧
     (shuffleQuestions rows g).1 = concat (concat nested')) ∧
  (wellSegmented rows = true → (shuffleQuestions rows g).1 ≡ₚ rows).
Proof.
  pose proof (shuffledQuestions_perm rows g) as Hperm.
  unfold shuffleQuestions.
  destruct (shuffledQuestions rows g) as [nested' g'] eqn:Hsh. simpl in *.
  split; [by exists nested'|].
  intros [Hflat _]%andb_prop. apply bool_decide_eq_true in Hflat.
  rewrite <-Hflat at 1.
  apply concat_Permutation, Forall2_perm_concat.
  by apply Forall2_flip.
Qed.

Lemma shuffleQuestions_moves_blocks_witness :
  (shuffleQuestions one_block (λ n, n)).1 ≡ₚ one_block.
Proof.
  by apply (shuffleQuestions_moves_blocks one_block (λ n, n)).
Defined.

(** ** Shuffles keep the layout *)

Lemma grouped_app rows rows' :
  grouped rows → grouped rows' → grouped (rows ++ rows').
Proof.
  intros (gs & -> & Hgs) (gs' & -> & Hgs'). exists (gs ++ gs'). split.
  - by rewrite concat_app.
  - by apply Forall_app.
Qed.

Lemma grouped_concat ls : Forall grouped ls → grouped (concat ls).
Proof.
  induction 1 as [|l ls Hl _ IH]; [apply grouped_nil|].
  simpl. by apply grouped_app.
Qed.

Lemma groups_grouped gs :
  Forall (λ g, isSectionPair g ∨ isQuestionGroup g) gs → grouped (concat gs).
Proof. intros. by exists gs. Qed.

Lemma chunk_groups chunk :
  isSectionChunk chunk →
  Forall (λ g, isSectionPair g ∨ isQuestionGroup g) chunk.
Proof.
  intros (g & gs & -> & Hg & Hgs). constructor; [done|].
  eapply Forall_impl; [done|]. by right.
Qed.

Lemma reletterFrom_answers n ans :
  Forall (λ r, type r = answer) ans →
  Forall (λ r, type r = answer) (reletterFrom n ans) ∧
  cursorAfter n ans = n + length ans.
Proof.
  intros H. revert n. induction H as [|a ans Ha _ IH]; intros n.
  { split; [constructor|]. simpl. lia. }
  simpl. rewrite decide_False by by rewrite Ha. rewrite decide_True by done.
  destruct (IH (S n)) as [? Hc]. split; [by constructor|].
  unfold cursorAfter in *. simpl.
  rewrite decide_False by by rewrite Ha. rewrite decide_True by done.
  rewrite Hc. lia.
Qed.

Lemma reletterFrom_group n g :
  isSectionPair g ∨ isQuestionGroup g →
  isSectionPair (reletterFrom n g) ∨ isQuestionGroup (reletterFrom n g).
Proof.
  intros [(s & e & -> & Hs & He)|(q & ans & e & -> & Hq & Hans & He)].
  - left. simpl. rewrite !decide_False by by rewrite ?Hs, ?He.
    by exists s, e.
  - right. simpl. rewrite decide_True by done.
    rewrite reletterFrom_app. simpl.
    rewrite !decide_False by by rewrite He.
    destruct (reletterFrom_answers 0 ans Hans) as [Hans' _].
    by eexists q, _, e.
Qed.

Lemma reletterFrom_groups n gs :
  Forall (λ g, isSectionPair g ∨ isQuestionGroup g) gs →
  grouped (reletterFrom n (concat gs)).
Proof.
  intros H. revert n. induction H as [|g gs Hg _ IH]; intros n.
  { apply grouped_nil. }
  simpl. rewrite reletterFrom_app. apply grouped_app; [|apply IH].
  apply (reletterFrom_group n) in Hg.
  exists [reletterFrom n g]. split; [simpl; by rewrite app_nil_r|].
  by constructor.
Qed.

Lemma shuffleBlock_group g rng :
  isSectionPair g ∨ isQuestionGroup g →
  isSectionPair (shuffleBlock g rng).1 ∨ isQuestionGroup (shuffleBlock g rng).1.
Proof.
  intros [(s & e & -> & Hs & He)|(q & ans & e & -> & Hq & Hans & He)].
  - left. unfold shuffleBlock. simpl. rewrite (bool_decide_eq_true_2 _ Hs).
    by exists s, e.
  - right. unfold shuffleBlock. simpl.
    rewrite bool_decide_eq_false_2 by by rewrite Hq.
    set (block := q :: ans ++ [e]).
    assert (2 ≤ length block) as Hlen.
    { unfold block. simpl. rewrite length_app. simpl. lia. }
    destruct (answerLocks_ok block Hlen) as (Hnd & Hin & _).
    destruct (shuffleArray_spec block _ rng Hnd Hin) as (Hl & Hperm & Hk).
    set (res := (shuffleArray block (answerLocks block) rng).1) in *.
    assert (res !! 0 = Some q) as H0.
    { rewrite Hk; [done|]. unfold answerLocks. set_solver. }
    assert (length block = S (S (length ans))) as Hlen'.
    { unfold block. simpl. rewrite length_app. simpl. lia. }
    assert (length block - 1 = S (length ans)) as Hidx by lia.
    assert (res !! S (length ans) = Some e) as Hlast.
    { rewrite Hk by (unfold answerLocks; rewrite Hidx; set_solver).
      unfold block. simpl. rewrite lookup_app_r by lia.
      by rewrite Nat.sub_diag. }
    destruct res as [|r0 res1]; [done|]. injection H0 as ->.
    destruct res1 as [|rl mid _] using rev_ind.
    { simpl in Hl. rewrite length_app in Hl. simpl in Hl. lia. }
    assert (length mid = length ans) as Hmid.
    { simpl in Hl. rewrite !length_app in Hl. simpl in Hl. lia. }
    assert (rl = e) as ->.
    { revert Hlast. simpl. rewrite lookup_app_r by lia.
      rewrite Hmid, Nat.sub_diag. simpl. congruence. }
    exists q, mid, e. split_and!; [done|done| |done].
    unfold block in Hperm.
    apply Permutation_cons_inv, Permutation_app_inv_r in Hperm.
    by rewrite Hperm.
Qed.

Lemma shuffledAnswers_groups chunks g :
  Forall (Forall (λ g, isSectionPair g ∨ isQuestionGroup g)) chunks →
  Forall (Forall (λ g, isSectionPair g ∨ isQuestionGroup g))
         (forEachRng (forEachRng shuffleBlock) chunks g).1.
Proof.
  intros Hchunks.
  pose proof (forEachRng_Forall2 (forEachRng shuffleBlock)
    (Forall (λ g, isSectionPair g ∨ isQuestionGroup g))
    (λ _ chunk', Forall (λ g, isSectionPair g ∨ isQuestionGroup g) chunk'))
    as Houter.
  eapply Forall2_Forall_r; [apply Houter; [|done]|].
  - intros chunk g1 Hchunk.
    pose proof (forEachRng_Forall2 shuffleBlock
      (λ g, isSectionPair g ∨ isQuestionGroup g)
      (λ _ g', isSectionPair g' ∨ isQuestionGroup g')) as Hinner.
    eapply Forall2_Forall_r; [apply Hinner; [|done]|].
    + intros b g2 Hb. by apply shuffleBlock_group.
    + apply Forall_true. auto.
  - apply Forall_true. auto.
Qed.

Lemma nested_grouped (nested : list (list (list ParsedRow))) :
  Forall (Forall (λ g, isSectionPair g ∨ isQuestionGroup g)) nested →
  Forall (λ g, isSectionPair g ∨ isQuestionGroup g) (concat nested).
Proof.
  induction 1 as [|chunk nested Hc _ IH]; [constructor|].
  simpl. by apply Forall_app.
Qed.

(** X19: the three shuffles keep the layout of the parser.  Rows made of
    section pairs and question groups, as [parseMcq] returns them, are
    again such rows after [shuffle] in any mode; so they are still covered
    by segmentation, and shuffles can follow one another. *)
Theorem shuffle_keeps_layout rows md g :
  grouped rows →
  grouped (shuffle rows md g).1 ∧ wellSegmented (shuffle rows md g).1 = true.
Proof.
  intros (groups & -> & Hgroups).
  assert (grouped (shuffle (concat groups) md g).1) as Hres;
    [|split; [done|by apply grouped_wellSegmented]].
  destruct (splitIntoSections_chunks groups Hgroups)
    as (chunks & Hsplit & Hconcat & Hchunks).
  assert (splitIntoSectionsAndQuestions (concat groups) = chunks) as Hnested.
  { unfold splitIntoSectionsAndQuestions. rewrite Hsplit.
    clear Hsplit Hconcat. induction Hchunks as [|chunk chunks Hc _ IH]; [done|].
    csimpl. cbn [map]. by rewrite IH, splitSectionIntoQuestions_chunk. }
  assert (Forall (Forall (λ g, isSectionPair g ∨ isQuestionGroup g)) chunks)
    as Hblocks.
  { eapply Forall_impl; [done|]. apply chunk_groups. }
  destruct md; unfold shuffle.
  - unfold shuffleSections, shuffledSections. rewrite Hsplit.
    match goal with
    | |- context [shuffleArray ?a ?l g] =>
        pose proof (λ x, shuffleArray_subset a l g x) as Hsub;
        destruct (shuffleArray a l g) as [sections' g']
    end.
    simpl in *. apply grouped_concat, Forall_forall.
    intros sec (chunk & -> & Hchunk)%Hsub%list_elem_of_fmap.
    apply groups_grouped. rewrite Forall_forall in Hblocks. by apply Hblocks.
  - unfold shuffleQuestions.
    pose proof (shuffledQuestions_perm (concat groups) g) as Hperm.
    rewrite Hnested in Hperm.
    destruct (shuffledQuestions (concat groups) g) as [nested' g']. simpl in *.
    apply groups_grouped, nested_grouped.
    eapply Forall2_Forall_r; [done|].
    eapply Forall_impl; [done|]. intros chunk Hchunk chunk' Hp.
    by rewrite Hp.
  - unfold shuffleAnswers, shuffledAnswers. rewrite Hnested.
    pose proof (shuffledAnswers_groups chunks g Hblocks) as Hg.
    destruct (forEachRng (forEachRng shuffleBlock) chunks g) as [nested' g'].
    simpl in *. by apply reletterFrom_groups, nested_grouped.
Qed.

Lemma shuffle_keeps_layout_witness :
  grouped (shuffle one_block answers (λ n, n)).1 ∧
  wellSegmented (shuffle one_block answers (λ n, n)).1 = true.
Proof.
  apply (shuffle_keeps_layout one_block answers (λ n, n)).
  exists [take 2 one_block; drop 2 one_block]. split; [reflexivity|].
  constructor; [|constructor; [|constructor]].
  - left. eexists _, _. split_and!; reflexivity.
  - right. eexists _, (take 3 (drop 3 one_block)), _.
    split_and!; [reflexivity|reflexivity| |reflexivity].
    simpl. repeat constructor.
Defined.

(** ** Numbers and answer keys, written and read back *)

Lemma scan_Some_prev r suffix i before mt :
  scan r suffix i before = Some mt →
  ∃ j pv st',
    index mt = i + j ∧ j ≤ length suffix ∧
    Matches r (MState (drop j suffix) (i + j) pv (λ _, None)) st' ∧
    stop mt = pos st' ∧ groups mt = caps st' ∧
    (j = 0 → pv = before) ∧ (0 < j → is_Some pv).
Proof.
  revert i before. induction suffix as [|c suffix IH]; intros i before; simpl.
  - destruct (m r _ Some) as [st|] eqn:Hm; [|done]. intros [= <-].
    apply m_sound in Hm as (st' & HM & [= <-]).
    exists 0, before, st'. rewrite Nat.add_0_r. split_and!; try done. lia.
  - destruct (m r _ Some) as [st|] eqn:Hm.
    + intros [= <-]. apply m_sound in Hm as (st' & HM & [= <-]).
      exists 0, before, st'. rewrite Nat.add_0_r.
      split_and!; simpl; try done; lia.
    + intros (j & pv & st' & ? & ? & HM & ? & ? & H0 & Hpos)%IH.
      exists (S j), pv, st'. simpl.
      replace (i + S j) with (S i + j) by lia.
      split_and!; try done; try lia.
      intros _. destruct j; [rewrite H0; by eexists|apply Hpos; lia].
Qed.

Lemma Matches_Eol_inv ml st st' :
  Matches (Eol ml) st st' → st' = st ∧ atLineEnd ml st = true.
Proof. intros H. by invert H. Qed.

Lemma isNum_digits lbl :
  isNum lbl = true ↔ lbl ≠ [] ∧ Forall (λ c, isDigit c = true) lbl.
Proof.
  unfold isNum, test. rewrite bool_decide_eq_true. unfold exec. simpl.
  split.
  - intros [mt Hscan]. rewrite drop_0 in Hscan.
    apply scan_Some_prev in Hscan
      as (j & pv & st' & _ & _ & HM & _ & _ & H0 & Hpos).
    revert HM. unfold numPattern, Seqs, Plus. simpl.
    intros (st1 & [-> Hbol]%Matches_Bol_inv &
            (st2 & Hds &
             (st3 & [-> Heol]%Matches_Eol_inv & ->%Matches_Empty_inv)
               %Matches_Seq_inv)%Matches_Seq_inv)%Matches_Seq_inv.
    unfold atLineStart in Hbol. simpl in Hbol.
    destruct pv as [c|]; [done|].
    assert (j = 0) as ->.
    { destruct j; [done|]. destruct Hpos as [? [=]]. lia. }
    destruct (repeat_chars _ _ _ Hds _ _ _ eq_refl)
      as (cs & Hr & _ & _ & Hall & Hmin & _).
    simpl in Hr, Hmin. unfold atLineEnd in Heol.
    destruct (rest st2) as [|c tl]; [|done].
    rewrite app_nil_r in Hr. subst cs. split; [|done].
    intros ->. simpl in Hmin. lia.
  - intros [Hne Hds]. rewrite drop_0.
    destruct (scan_here numPattern lbl 0 None) as (st & _ & ->); [|by eexists].
    eapply (m_complete _ _ (MState [] (0 + length lbl) (prevAfter None lbl)
                                   (λ _, None))); [|by eexists].
    unfold numPattern, Seqs, Plus. simpl.
    eapply Matches_Seq; [by apply Matches_Bol|].
    eapply Matches_Seq.
    + rewrite <-(app_nil_r lbl) at 1.
      apply repeat_chars_intro; [done| |done].
      destruct lbl; [done|simpl; lia].
    + eapply Matches_Seq; [by apply Matches_Eol|apply Matches_Empty].
Qed.

(** ** Numbers as text *)

Lemma decimal_cons d ds :
  decimal (d :: ds) =
  ((Z.of_N d - 48) * 10 ^ Z.of_nat (length ds) + decimal ds)%Z.
Proof.
  unfold decimal. simpl.
  assert (∀ acc, foldl (λ acc c, acc * 10 + (Z.of_N c - 48))%Z acc ds =
                 (acc * 10 ^ Z.of_nat (length ds) +
                  foldl (λ acc c, acc * 10 + (Z.of_N c - 48))%Z 0%Z ds)%Z) as H.
  { induction ds as [|c ds IH]; intros acc; simpl; [lia|].
    rewrite IH. symmetry. rewrite IH.
    replace (Z.of_nat (S (length ds))) with (Z.succ (Z.of_nat (length ds)))
      by lia.
    rewrite Z.pow_succ_r by lia. lia. }
  by rewrite H.
Qed.

Lemma pretty_N_char_digit d :
  (d < 10)%N → N_of_ascii (pretty_N_char d) = (48 + d)%N.
Proof.
  intros Hd.
  assert (d = 0 ∨ d = 1 ∨ d = 2 ∨ d = 3 ∨ d = 4 ∨ d = 5 ∨ d = 6 ∨ d = 7 ∨
          d = 8 ∨ d = 9)%N as H by lia.
  by repeat (destruct H as [->|H]; [done|]); subst.
Qed.

Lemma pretty_N_char_isDigit d :
  (d < 10)%N → isDigit (N_of_ascii (pretty_N_char d)) = true.
Proof.
  intros Hd.
  assert (d = 0 ∨ d = 1 ∨ d = 2 ∨ d = 3 ∨ d = 4 ∨ d = 5 ∨ d = 6 ∨ d = 7 ∨
          d = 8 ∨ d = 9)%N as H by lia.
  by repeat (destruct H as [->|H]; [done|]); subst.
Qed.

Lemma pretty_N_go_digits x : ∀ s,
  Forall (λ c, isDigit c = true) (js s) →
  Forall (λ c, isDigit c = true) (js (pretty_N_go x s)) ∧
  decimal (js (pretty_N_go x s)) =
    (Z.of_N x * 10 ^ Z.of_nat (length (js s)) + decimal (js s))%Z.
Proof.
  induction (N.lt_wf_0 x) as [x _ IH]. intros s Hs.
  destruct (decide (x = 0%N)) as [->|Hx].
  { rewrite pretty_N_go_0. split; [done|]. lia. }
  rewrite pretty_N_go_step by lia.
  assert (x `mod` 10 < 10)%N as Hmod by (apply N.mod_lt; lia).
  destruct (IH (x `div` 10)%N) with (s := String (pretty_N_char (x `mod` 10)) s)
    as [Hd Hv].
  { apply N.div_lt; lia. }
  { change (js (String (pretty_N_char (x `mod` 10)) s))
      with (N_of_ascii (pretty_N_char (x `mod` 10)) :: js s).
    constructor; [|done]. by apply pretty_N_char_isDigit. }
  split; [done|]. rewrite Hv.
  change (js (String (pretty_N_char (x `mod` 10)) s))
    with (N_of_ascii (pretty_N_char (x `mod` 10)) :: js s).
  rewrite decimal_cons, pretty_N_char_digit by done. simpl length.
  replace (Z.of_nat (S (length (js s)))) with (Z.succ (Z.of_nat (length (js s))))
    by lia.
  rewrite Z.pow_succ_r by lia.
  pose proof (N.div_mod x 10 ltac:(lia)) as Hdm.
  assert (Z.of_N x = 10 * Z.of_N (x `div` 10) + Z.of_N (x `mod` 10))%Z as ->
    by lia.
  rewrite N2Z.inj_add. change (Z.of_N 48) with 48%Z. lia.
Qed.

Lemma pretty_pos_digits p :
  let ds := js (pretty (N.pos p)) in
  Forall (λ c, isDigit c = true) ds ∧ ds ≠ [] ∧ decimal ds = Z.pos p.
Proof.
  simpl. unfold pretty, pretty_N. rewrite decide_False by done.
  destruct (pretty_N_go_digits (N.pos p) "" ) as [Hd Hv]; [constructor|].
  split_and!; [done| |].
  - intros Hnil. rewrite Hnil in Hv. simpl in Hv. unfold decimal in Hv.
    simpl in Hv. lia.
  - rewrite Hv. simpl. unfold decimal. simpl. lia.
Qed.

Lemma parseInt_negative ds :
  Forall (λ c, isDigit c = true) ds → ds ≠ [] →
  parseInt (chr "-" :: ds) = Some (- decimal ds)%Z.
Proof.
  intros Hds Hne. pose proof (digits_values ds Hds) as Hvals.
  unfold parseInt. cbn [dropWhile].
  assert (isSpace (chr "-") = false) as -> by done.
  rewrite decide_True by done.
  destruct Hds as [|d ds Hd Hds]; [done|].
  assert (match omap (digitValue 10)
             (takeWhile (λ c, bool_decide (is_Some (digitValue 10 c))) (d :: ds))
     with
     | [] => None
     | _ :: _ =>
         Some (-1 * foldl (λ acc d0 : Z, acc * 10 + d0) 0
                 (omap (digitValue 10)
                    (takeWhile (λ c, bool_decide (is_Some (digitValue 10 c)))
                               (d :: ds))))%Z
     end = Some (- decimal (d :: ds))%Z) as Htail.
  { rewrite Hvals. csimpl. f_equal.
    unfold decimal. simpl. rewrite foldl_fmap. lia. }
  destruct ds as [|x ds]; [done|].
  inversion_clear Hds as [|?? Hx _]. pose proof (digit_bounds x Hx).
  assert (oneOf "xX" x = false) as ->; [|by rewrite andb_false_r].
  apply bool_decide_eq_false. intros Hin.
  change (js "xX") with [120%N; 88%N] in Hin.
  repeat (apply elem_of_cons in Hin as [->|Hin]; [lia|]).
  by apply elem_of_nil in Hin.
Qed.

Lemma parseInt_ofNumber n : parseInt (ofNumber n) = Some n.
Proof.
  unfold ofNumber. destruct n as [|p|p].
  - done.
  - change (pretty (Z.pos p)) with (pretty (N.pos p)).
    destruct (pretty_pos_digits p) as (Hd & Hne & Hv).
    by rewrite parseInt_decimal, Hv.
  - change (pretty (Z.neg p)) with (String "-" (pretty (N.pos p))).
    destruct (pretty_pos_digits p) as (Hd & Hne & Hv).
    change (js (String "-" (pretty (N.pos p))))
      with (chr "-" :: js (pretty (N.pos p))).
    by rewrite parseInt_negative, Hv.
Qed.

Lemma ofNumber_digits n :
  (0 ≤ n)%Z → ofNumber n ≠ [] ∧ Forall (λ c, isDigit c = true) (ofNumber n).
Proof.
  intros Hn. unfold ofNumber. destruct n as [|p|p]; [|
    |lia].
  - split; [done|]. by repeat constructor.
  - change (pretty (Z.pos p)) with (pretty (N.pos p)).
    by destruct (pretty_pos_digits p) as (Hd & Hne & _).
Qed.

(** X21: [isNum] holds exactly for the strings that are not empty and are
    made of decimal digits only. *)
Theorem isNum_iff_digits lbl :
  isNum lbl = true ↔ lbl ≠ [] ∧ Forall (λ c, isDigit c = true) lbl.
Proof. apply isNum_digits. Qed.

Lemma isNum_ofNumber n : isNum (ofNumber n) = true ↔ (0 ≤ n)%Z.
Proof.
  rewrite isNum_digits. split.
  - intros [_ Hds]. destruct n as [|p|p]; [done|done|].
    unfold ofNumber in Hds.
    change (pretty (Z.neg p)) with (String "-" (pretty (N.pos p))) in Hds.
    change (js (String "-" (pretty (N.pos p))))
      with (chr "-" :: js (pretty (N.pos p))) in Hds.
    by inversion Hds.
  - apply ofNumber_digits.
Qed.

(** X22: while the counter is safe, the labels [renumberQuestions] writes
    are read back as the numbers they stand for.  For the question row at
    index [i], [parseInt] of the new label, which is what [applyAnswerKey]
    and [findQuestionsWithoutKeys] take for the question number, is
    [startNumber + k], with [k] the number of question rows before it; and
    the label is a number for the validator ([isNum]) exactly when that
    number is not negative. *)
Theorem renumbered_labels_read_back rows startNumber i row :
  safeCounter startNumber rows →
  rows !! i = Some row → type row = question →
  let n := (startNumber + Z.of_nat (questionsBefore i rows))%Z in
  ∃ row', renumberQuestions rows startNumber !! i = Some row' ∧
          parseInt (label row') = Some n ∧
          (isNum (label row') = true ↔ (0 ≤ n)%Z).
Proof.
  intros _ Hi Hq n. eexists. split.
  { unfold renumberQuestions. rewrite (renumberFrom_lookup _ _ _ _ Hi).
    by rewrite decide_True. }
  simpl. split; [apply parseInt_ofNumber|apply isNum_ofNumber].
Qed.

Lemma renumbered_labels_read_back_witness :
  ∃ row', renumberQuestions keyed_questions 10 !! 4 = Some row' ∧
          parseInt (label row') = Some 11%Z ∧
          (isNum (label row') = true ↔ (0 ≤ 11)%Z).
Proof.
  apply (renumbered_labels_read_back keyed_questions 10 4
           (mkRow 5 question (js "2") (js "Q2?") (Some false) false (Some 2%Z)));
    [unfold safeCounter, safeInteger; simpl; lia|reflexivity..].
Defined.

Lemma rep_chars_greedy
    (mr : mstate → (mstate → option mstate) → option mstate)
    (p : N → bool) (k : mstate → option mstate) cs :
  (∀ st k', mr st k' =
     match rest st with
     | c :: cs' =>
         if p c then k' (MState cs' (S (pos st)) (Some c) (caps st)) else None
     | [] => None
     end) →
  Forall (λ c, p c = true) cs →
  ∀ tl i pv cp fuel mn res,
    match tl with c :: _ => p c = false | [] => True end →
    mn ≤ length cs → length cs < fuel →
    k (MState tl (i + length cs) (prevAfter pv cs) cp) = Some res →
    rep mr k fuel mn None (MState (cs ++ tl) i pv cp) = Some res.
Proof.
  intros Hmr.
  induction 1 as [|c cs Hc _ IH]; intros tl i pv cp fuel mn res Htl Hmn Hfuel Hk.
  - destruct fuel as [|fuel]; [simpl in Hfuel; lia|].
    cbn [rep app]. rewrite decide_False by done. rewrite Hmr.
    simpl in *. rewrite Nat.add_0_r in Hk.
    assert (mn = 0) as -> by lia. simpl.
    destruct tl as [|c tl]; simpl; [done|]. by rewrite Htl.
  - destruct fuel as [|fuel]; [simpl in Hfuel; lia|].
    cbn [rep app]. rewrite decide_False by done. rewrite Hmr.
    cbn [rest pos caps]. rewrite Hc.
    rewrite (decide_False (P := mn = 0 ∧ S i = i)) by lia.
    change (Init.Nat.pred <$> None) with (@None nat). rewrite (IH tl (S i) (Some c) cp fuel (pred mn) res); try done.
    + by case_decide.
    + simpl in Hmn. lia.
    + simpl in Hfuel. lia.
    + replace (S i + length cs) with (i + S (length cs)) by lia.
      replace (prevAfter (Some c) cs) with (prevAfter pv (c :: cs)); [done|].
      unfold prevAfter. rewrite last_cons. by destruct (last cs).
Qed.

Lemma m_chars_greedy p k cs tl i pv cp mn res :
  Forall (λ c, p c = true) cs →
  match tl with c :: _ => p c = false | [] => True end →
  mn ≤ length cs →
  k (MState tl (i + length cs) (prevAfter pv cs) cp) = Some res →
  m (Repeat mn None (Char p)) (MState (cs ++ tl) i pv cp) k = Some res.
Proof.
  intros Hcs Htl Hmn Hk.
  change (m (Repeat mn None (Char p)) (MState (cs ++ tl) i pv cp) k)
    with (rep (m (Char p)) k (S (mn + length (cs ++ tl))) mn None
              (MState (cs ++ tl) i pv cp)).
  apply (rep_chars_greedy (m (Char p)) p); try done. rewrite length_app. lia.
Qed.

Lemma scan_first r suffix i before st :
  m r (MState suffix i before (λ _, None)) Some = Some st →
  scan r suffix i before = Some (Matched i (pos st) (caps st)).
Proof. intros Hm. destruct suffix; simpl; by rewrite Hm. Qed.

Lemma keyLine_exec ds seps body :
  Forall (λ c, isDigit c = true) ds → ds ≠ [] →
  Forall (λ c, keySeparator c = true) seps → seps ≠ [] →
  Forall (λ c, keyLetterUnit c = true) body → body ≠ [] →
  (∀ c, head seps = Some c → isDigit c = false) →
  (∀ c, head body = Some c → keySeparator c = false) →
  ∃ mt, exec keyLinePattern (ds ++ seps ++ body) 0 = Some mt ∧
        group (ds ++ seps ++ body) mt 1 = Some ds ∧
        group (ds ++ seps ++ body) mt 2 = Some body.
Proof.
  intros Hds Hds0 Hseps Hseps0 Hbody Hbody0 Hs Hb.
  assert (∃ st,
    m keyLinePattern (MState (ds ++ seps ++ body) 0 None (λ _, None)) Some
      = Some st ∧
    pos st = length ds + length seps + length body ∧
    caps st 1 = Some (0, length ds) ∧
    caps st 2 = Some (length ds + length seps,
                      length ds + length seps + length body))
    as (st & Hm & Hpos & Hc1 & Hc2).
  { eexists. split.
    - unfold keyLinePattern, Seqs, Plus. cbn [foldr].
      change (m (Seq ?r1 ?r2) ?st ?k) with (m r1 st (λ st', m r2 st' k)).
      change (m (Group 1 ?r) ?st ?k)
        with (m r st (λ st', k (set_cap 1 (pos st, pos st') st'))).
      apply m_chars_greedy; [done| |destruct ds; [done|simpl; lia]|].
      { destruct seps as [|c seps]; [done|]. simpl. by apply Hs. }
      cbv beta.
      change (m (Seq ?r1 ?r2) ?st ?k) with (m r1 st (λ st', m r2 st' k)).
      unfold set_cap at 1. cbn [rest pos prev caps].
      apply m_chars_greedy; [done| |destruct seps; [done|simpl; lia]|].
      { destruct body as [|c body]; [done|]. simpl. by apply Hb. }
      cbv beta.
      change (m (Seq ?r1 ?r2) ?st ?k) with (m r1 st (λ st', m r2 st' k)).
      change (m (Group 2 ?r) ?st ?k)
        with (m r st (λ st', k (set_cap 2 (pos st, pos st') st'))).
      rewrite <-(app_nil_r body) at 1.
      apply m_chars_greedy; [done|done|destruct body; [done|simpl; lia]|].
      cbv beta. cbn [m]. reflexivity.
    - cbn [pos caps set_cap rest prev]. split_and!; [lia| |].
      + simpl. done.
      + simpl. do 2 f_equal; lia. }
  exists (Matched 0 (pos st) (caps st)). split_and!.
  - unfold exec. rewrite decide_False by lia. rewrite drop_0.
    by apply scan_first.
  - unfold group. simpl. rewrite Hc1. simpl. unfold substring.
    by rewrite drop_0, Nat.sub_0_r, take_app_length.
  - unfold group. simpl. rewrite Hc2. simpl. unfold substring.
    rewrite app_assoc, drop_app_length'; [|rewrite length_app; lia].
    f_equal. apply take_ge. lia.
Qed.

Lemma letters_inv l : l ∈ letters → ∃ c, l = [c] ∧ range "A" "E" c = true.
Proof.
  unfold letters. intros H.
  repeat (apply elem_of_cons in H as [->|H]; [by eexists|]).
  by apply elem_of_nil in H.
Qed.

Lemma join_cons sep p ps :
  ps ≠ [] → join sep (p :: ps) = p ++ sep ++ join sep ps.
Proof. by destruct ps. Qed.

Lemma capital_facts c :
  range "A" "E" c = true →
  keyLetterUnit c = true ∧ keySeparator c = false ∧ c ≠ 10%N ∧
  (if range "a" "z" c then (c - 32)%N else c) = c.
Proof.
  unfold range. simpl. intros [?%N.leb_le ?%N.leb_le]%andb_prop.
  assert (c = 65 ∨ c = 66 ∨ c = 67 ∨ c = 68 ∨ c = 69)%N
    as [->|[->|[->|[->| ->]]]] by lia; done.
Qed.

Lemma joined_letters ls :
  Forall (λ l, l ∈ letters) ls → ls ≠ [] →
  let body := join (js ", ") ls in
  Forall (λ c, keyLetterUnit c = true) body ∧
  (∃ c tl, body = c :: tl ∧ keySeparator c = false) ∧
  Forall (λ c, c ≠ 10%N) body ∧
  (λ c, [c]) <$> filter (λ c, range "A" "E" c = true) (toUpperCase body) = ls.
Proof.
  induction 1 as [|l ls Hl Hls IH]; [done|]. intros _.
  apply letters_inv in Hl as (c & -> & Hc).
  destruct (capital_facts c Hc) as (Hu & Hsep & Hnl & Hup).
  destruct ls as [|l' ls].
  { simpl. split_and!.
    - by constructor.
    - by eexists _, _.
    - by constructor.
    - unfold toUpperCase. csimpl. rewrite Hup.
      by rewrite filter_cons, decide_True. }
  destruct IH as (Hb & _ & Hn & Hf); [done|].
  rewrite join_cons by done. cbv zeta. split_and!.
  - simpl. constructor; [done|]. by do 2 (constructor; [done|]).
  - by eexists _, _.
  - simpl. constructor; [done|]. by do 2 (constructor; [done|]).
  - change ([c] ++ js ", " ++ join (js ", ") (l' :: ls))
      with (c :: 44%N :: 32%N :: join (js ", ") (l' :: ls)).
    unfold toUpperCase in *. rewrite !fmap_cons, Hup.
    rewrite filter_cons, decide_True by done.
    rewrite filter_cons, decide_False by done.
    rewrite filter_cons, decide_False by done.
    rewrite fmap_cons. f_equal. apply Hf.
Qed.

Lemma separator_not_digit c : keySeparator c = true → isDigit c = false.
Proof.
  unfold keySeparator, either. intros [Hc|Hc]%orb_prop.
  - unfold oneOf in Hc. apply bool_decide_eq_true in Hc.
    change (js ".):") with [46%N; 41%N; 58%N] in Hc.
    repeat (apply elem_of_cons in Hc as [->|Hc]; [done|]).
    by apply elem_of_nil in Hc.
  - destruct (isDigit c) eqn:Hd; [|done].
    apply digit_not_space in Hd. congruence.
Qed.

Lemma keyStep_keyLine answerKey n ls :
  (0 ≤ n)%Z → Forall (λ l, l ∈ letters) ls → ls ≠ [] →
  keyStep answerKey (keyLine n ls) = <[n := ls]> answerKey.
Proof.
  intros Hn Hls Hne.
  destruct (ofNumber_digits n Hn) as [Hds0 Hds].
  destruct (joined_letters ls Hls Hne) as (Hb & (c & tl & Hbody & Hc) & _ & Hf).
  destruct (keyLine_exec (ofNumber n) (js ". ") (join (js ", ") ls))
    as (mt & He & Hg1 & Hg2); try done.
  { by repeat constructor. }
  { by rewrite Hbody. }
  { by intros ? [= <-]. }
  { rewrite Hbody. by intros ? [= <-]. }
  unfold keyStep, keyLine. rewrite He, Hg1, Hg2. cbn [default from_option].
  change (Datatypes.id (ofNumber n)) with (ofNumber n).
  change (Datatypes.id (join (js ", ") ls)) with (join (js ", ") ls).
  assert (truthyStr (Some (ofNumber n)) = true) as ->.
  { simpl. by destruct (ofNumber n). }
  assert (truthyStr (Some (join (js ", ") ls)) = true) as ->
    by by rewrite Hbody.
  cbn [negb orb]. rewrite parseInt_ofNumber.
  set (answersStr := filter _ (toUpperCase _)) in *.
  assert (Forall (λ c, range "A" "E" c = true) answersStr) as Hcaps.
  { apply Forall_forall. intros x. unfold answersStr.
    by intros [? _]%list_elem_of_filter. }
  rewrite decide_False.
  2:{ intros Hlen. destruct answersStr; [|done]. by destruct ls. }
  f_equal. rewrite <-Hf. clear Hf.
  induction Hcaps as [|x xs Hx _ IH]; [done|].
  csimpl. rewrite filter_cons, decide_True by by rewrite test_char.
  by rewrite IH.
Qed.

Lemma split_plain (line : jsstring) :
  Forall (λ c, c ≠ 10%N) line → split 10%N line = [line].
Proof.
  induction 1 as [|c line Hc _ IH]; [done|].
  cbn [split]. by rewrite decide_False, IH.
Qed.

Lemma split_line (line rest : jsstring) :
  Forall (λ c, c ≠ 10%N) line →
  split 10%N (line ++ 10%N :: rest) = line :: split 10%N rest.
Proof.
  induction 1 as [|c line Hc _ IH]; cbn [split app].
  { by rewrite decide_True. }
  by rewrite decide_False, IH.
Qed.

Lemma split_join lines :
  Forall (Forall (λ c, c ≠ 10%N)) lines → lines ≠ [] →
  split 10%N (join nl lines) = lines.
Proof.
  induction 1 as [|line lines Hl Hls IH]; [done|]. intros _.
  destruct lines as [|line' lines].
  { simpl. by apply split_plain. }
  rewrite join_cons by done. unfold nl at 1. simpl.
  rewrite split_line by done. f_equal. by apply IH.
Qed.

Lemma keyLine_plain n ls :
  (0 ≤ n)%Z → Forall (λ l, l ∈ letters) ls → ls ≠ [] →
  Forall (λ c, c ≠ 10%N) (keyLine n ls) ∧ nonEmpty (trim (keyLine n ls)) = true.
Proof.
  intros Hn Hls Hne.
  destruct (ofNumber_digits n Hn) as [Hds0 Hds].
  destruct (joined_letters ls Hls Hne) as (_ & _ & Hnl & _).
  unfold keyLine. split.
  - apply Forall_app. split.
    + eapply Forall_impl; [done|]. intros c Hc%digit_bounds. lia.
    + apply Forall_app. split; [by repeat constructor|done].
  - apply trim_nonEmpty. destruct (ofNumber n) as [|d ds]; [done|].
    exists d. split; [by left|]. apply digit_not_space. by inversion Hds.
Qed.

Lemma emit_lines n gs :
  (0 ≤ n)%Z → Forall (Forall (λ l, l ∈ letters)) gs →
  Forall (λ line, Forall (λ c, c ≠ 10%N) line ∧
                  nonEmpty (trim line) = true) (emit n gs).
Proof.
  intros Hn Hgs. revert n Hn. induction Hgs as [|g gs Hg _ IH]; intros n Hn.
  { constructor. }
  simpl. apply Forall_app. split; [|apply IH; lia].
  case_decide; [constructor|]. constructor; [|constructor].
  by apply keyLine_plain.
Qed.

Lemma foldl_keyStep_emit answerKey n gs :
  (0 ≤ n)%Z → Forall (Forall (λ l, l ∈ letters)) gs →
  foldl keyStep answerKey (emit n gs) = keyed answerKey n gs.
Proof.
  intros Hn Hgs. revert answerKey n Hn.
  induction Hgs as [|g gs Hg _ IH]; intros answerKey n Hn; [done|].
  simpl. rewrite foldl_app. case_decide.
  - simpl. apply IH. lia.
  - simpl. rewrite keyStep_keyLine by done. apply IH. lia.
Qed.

Lemma keyed_lookup_lt answerKey n gs j :
  (j < n)%Z → keyed answerKey n gs !! j = answerKey !! j.
Proof.
  revert answerKey n. induction gs as [|g gs IH]; intros answerKey n Hj; [done|].
  simpl. rewrite IH by lia. case_decide; [done|].
  apply lookup_insert_ne. lia.
Qed.

Lemma keyed_lookup answerKey n gs k g :
  gs !! k = Some g →
  keyed answerKey n gs !! (n + Z.of_nat k)%Z =
  if decide (g = []) then answerKey !! (n + Z.of_nat k)%Z else Some g.
Proof.
  revert answerKey n k. induction gs as [|g0 gs IH]; intros answerKey n k; [done|].
  destruct k as [|k]; cbn [keyed].
  - intros [= ->]. change (Z.of_nat 0) with 0%Z.
    rewrite Z.add_0_r, keyed_lookup_lt by lia.
    case_decide; [done|]. apply lookup_insert_eq.
  - intros Hk. simpl in Hk.
    replace (n + Z.of_nat (S k))%Z with (n + 1 + Z.of_nat k)%Z by lia.
    rewrite (IH _ _ _ Hk). case_decide; [|done].
    case_decide; [done|]. apply lookup_insert_ne. lia.
Qed.

Lemma keyed_dom answerKey n gs j :
  is_Some (keyed answerKey n gs !! j) →
  is_Some (answerKey !! j) ∨ (n ≤ j < n + Z.of_nat (length gs))%Z.
Proof.
  revert answerKey n. induction gs as [|g gs IH]; intros answerKey n; [by left|].
  simpl. intros [H|H]%IH.
  - case_decide; [by left|].
    destruct (decide (j = n)) as [->|Hne]; [right; lia|].
    rewrite lookup_insert_ne in H by done. by left.
  - right. lia.
Qed.

Lemma segments_subset rows seg r :
  seg ∈ segments rows → r ∈ seg → r ∈ rows.
Proof.
  revert seg. induction rows as [|row rows IH]; intros seg; simpl.
  { intros ->%list_elem_of_singleton. by intros ?%elem_of_nil. }
  case_decide.
  - intros [->|Hs]%elem_of_cons Hr; [by apply elem_of_nil in Hr|].
    right. by eapply IH.
  - destruct (segments_cons rows) as (seg0 & segs & Hsegs). rewrite Hsegs in *.
    intros [->|Hs]%elem_of_cons Hr.
    + apply elem_of_cons in Hr as [->|Hr]; [by left|].
      right. apply (IH seg0); [by left|done].
    + right. apply (IH seg); [by right|done].
Qed.

Lemma keyedLetters_letters (rows seg : list ParsedRow) :
  Forall (λ r, type r = answer → truthy (isKey r) = true → label r ∈ letters)
         rows →
  seg ∈ segments rows → Forall (λ l, l ∈ letters) (keyedLetters seg).
Proof.
  intros Hrows Hseg. unfold keyedLetters. apply Forall_fmap, Forall_forall.
  intros r [[Ha Hk] Hr]%list_elem_of_filter. simpl.
  rewrite Forall_forall in Hrows. apply Hrows; [|done|done].
  by eapply segments_subset.
Qed.

Lemma filter_nonblank (lines : list jsstring) :
  Forall (λ line, Forall (λ c, c ≠ 10%N) line ∧
                  nonEmpty (trim line) = true) lines →
  filter (λ line, nonEmpty (trim line) = true) lines = lines.
Proof.
  induction 1 as [|l ls [_ Hl] _ IH]; [done|].
  rewrite filter_cons, decide_True by done. by rewrite IH.
Qed.

(** X23: the answer key, written and read back.  For a start number that
    is not negative and a counter that stays safe, when no keyed answer row
    comes before the first question row and the keyed answer rows are
    labelled A to E, the lines of
    [generateAnswerKey], joined by line feeds as the view copies them, are
    parsed by [parseAnswerKey] into the map that gives, under
    [startNumber + k], the keyed letters of the question with [k] question
    rows before it, for the questions that have some, and nothing else. *)
Theorem answer_key_round_trip rows startNumber :
  (0 ≤ startNumber)%Z → safeCounter startNumber rows →
  keyedLetters (default [] (head (segments rows))) = [] →
  Forall (λ r, type r = answer → truthy (isKey r) = true → label r ∈ letters)
         rows →
  let answerKey := parseAnswerKey (join nl (generateAnswerKey rows startNumber)) in
  (∀ k seg, tail (segments rows) !! k = Some seg →
     answerKey !! (startNumber + Z.of_nat k)%Z =
     if decide (keyedLetters seg = []) then None else Some (keyedLetters seg)) ∧
  (∀ n, is_Some (answerKey !! n) →
     (startNumber ≤ n <
      startNumber + Z.of_nat (length (filter (λ r, type r = question) rows)))%Z).
Proof.
  intros Hstart _ Hhead Hlabels.
  set (gs := keyedLetters <$> tail (segments rows)).
  assert (Forall (Forall (λ l, l ∈ letters)) gs) as Hgs.
  { apply Forall_fmap, Forall_forall. intros seg Hseg. simpl.
    apply (keyedLetters_letters rows); [done|].
    destruct (segments rows); [done|]. by right. }
  assert (generateAnswerKey rows startNumber = emit startNumber gs) as Hlines.
  { rewrite generateAnswerKey_emit. unfold gs.
    destruct (segments rows) as [|seg segs]; [done|]. simpl in Hhead.
    csimpl. rewrite Hhead, decide_True by done. simpl. f_equal. lia. }
  assert (parseAnswerKey (join nl (generateAnswerKey rows startNumber)) =
          keyed ∅ startNumber gs) as ->.
  { rewrite Hlines.
    pose proof (emit_lines startNumber gs Hstart Hgs) as Hplain.
    rewrite <-(foldl_keyStep_emit ∅) by done.
    destruct (emit startNumber gs) as [|line lines] eqn:Hemit; [done|].
    unfold parseAnswerKey.
    assert (nonEmpty (trim (join nl (line :: lines))) = true) as ->.
    { inversion_clear Hplain as [|?? [_ Hline] _].
      apply trim_nonEmpty in Hline as (c & Hc & Hsp).
      apply trim_nonEmpty. exists c. split; [|done].
      destruct lines; simpl; [done|].
      apply elem_of_app. by left. }
    cbn [negb]. rewrite split_join; [|by eapply Forall_impl; [done|]; intros ? [? _]|done].
    f_equal. by apply filter_nonblank. }
  pose proof (segments_length rows) as Hlen.
  split.
  - intros k seg Hk.
    rewrite (keyed_lookup ∅ startNumber gs k (keyedLetters seg)).
    + by rewrite lookup_empty.
    + unfold gs. by rewrite list_lookup_fmap, Hk.
  - intros n [H|H]%keyed_dom.
    + rewrite lookup_empty in H. by destruct H.
    + unfold gs in H. rewrite length_fmap in H.
      destruct (segments rows); simpl in *; lia.
Qed.

Lemma answer_key_round_trip_witness :
  let answerKey := parseAnswerKey (join nl (generateAnswerKey keyed_questions 7)) in
  answerKey !! 7%Z = Some [js "B"] ∧
  answerKey !! 8%Z = Some [js "A"; js "C"].
Proof.
  destruct (answer_key_round_trip keyed_questions 7) as [Hk _].
  - lia.
  - unfold safeCounter, safeInteger. simpl. lia.
  - reflexivity.
  - unfold keyed_questions. repeat constructor; simpl; try done;
      intros _ _; unfold letters; set_solver.
  - split.
    + exact (Hk 0 (take 3 (drop 1 keyed_questions)) eq_refl).
    + exact (Hk 1 (drop 5 keyed_questions) eq_refl).
Defined.

(** ** The fields of parsed rows, and parsing followed by validation *)

Lemma state_at s r st0 st :
  rest st0 = drop (pos st0) s → Matches r st0 st → rest st = drop (pos st) s.
Proof.
  intros H0 (cs & Hr & Hp)%Matches_consumed.
  rewrite Hp, <-drop_drop, <-H0, Hr.
  by rewrite drop_app_length.
Qed.

Lemma captured s a cs tl :
  drop a s = cs ++ tl → substring a (a + length cs) s = cs.
Proof.
  intros H. unfold substring. rewrite H.
  replace (a + length cs - a) with (length cs) by lia.
  by rewrite take_app_length.
Qed.

Lemma answerPattern_letter s lastIndex mt :
  exec answerPattern s lastIndex = Some mt →
  ∃ c, group s mt 2 = Some [c] ∧ letterAE c = true.
Proof.
  intros (_ & _ & _ & pv & st' & HM & _ & Hg)%exec_Some.
  revert HM. unfold answerPattern, Seqs. cbn [foldr].
  intros (st1 & H1 &
          (st2 & H2 &
           (st3 & (st4 & Hc & _ & _ & Hcap & _)%Matches_Group_inv & Htail)
             %Matches_Seq_inv)%Matches_Seq_inv)%Matches_Seq_inv.
  pose proof (Matches_caps 2 _ _ _ Htail eq_refl) as Hcaps.
  assert (rest st2 = drop (pos st2) s) as Hat.
  { eapply state_at; [|exact H2]. eapply state_at; [|exact H1]. done. }
  apply Matches_Char_inv in Hc as (c & Hrc & Hpc & Hposc & _).
  exists c. split; [|done].
  unfold group. rewrite Hg, Hcaps, Hcap. simpl. f_equal.
  rewrite Hposc. replace (S (pos st2)) with (pos st2 + length [c]) by (simpl; lia).
  apply (captured _ _ _ (rest st4)). by rewrite <-Hat.
Qed.

Lemma questionPattern_number s mt :
  exec questionPattern s 0 = Some mt →
  ∃ ds, group s mt 1 = Some ds ∧ Forall (λ c, isDigit c = true) ds ∧
        1 ≤ length ds ≤ 3.
Proof.
  intros (_ & _ & _ & pv & st' & HM & _ & Hg)%exec_Some.
  revert HM. unfold questionPattern, Seqs. cbn [foldr].
  intros (st1 & H1 &
          (st2 & H2 &
           (st3 & (st4 & Hds & _ & _ & Hcap & _)%Matches_Group_inv & Htail)
             %Matches_Seq_inv)%Matches_Seq_inv)%Matches_Seq_inv.
  pose proof (Matches_caps 1 _ _ _ Htail eq_refl) as Hcaps.
  assert (rest st2 = drop (pos st2) s) as Hat.
  { eapply state_at; [|exact H2]. eapply state_at; [|exact H1]. done. }
  destruct (repeat_chars _ _ _ Hds _ _ _ eq_refl)
    as (ds & Hr & Hp & _ & Hall & Hmin & Hmax).
  exists ds. simpl in Hmin. specialize (Hmax 3 eq_refl).
  split_and!; [|done|lia|done].
  unfold group. rewrite Hg, Hcaps, Hcap. simpl. f_equal.
  rewrite Hp. apply (captured _ _ _ (rest st4)). by rewrite <-Hat.
Qed.

Lemma upper_letter c : letterAE c = true → toUpperCase [c] ∈ letters.
Proof.
  unfold letterAE, either, range. simpl.
  intros [[?%N.leb_le ?%N.leb_le]%andb_prop|[?%N.leb_le ?%N.leb_le]%andb_prop]
    %orb_prop.
  - assert (c = 65 ∨ c = 66 ∨ c = 67 ∨ c = 68 ∨ c = 69)%N
      as [->|[->|[->|[->| ->]]]] by lia; unfold letters; set_solver.
  - assert (c = 97 ∨ c = 98 ∨ c = 99 ∨ c = 100 ∨ c = 101)%N
      as [->|[->|[->|[->| ->]]]] by lia; unfold letters; set_solver.
Qed.

Lemma answersLoop_fields fuel answersText lastIndex startId rows rows' :
  answersLoop fuel answersText lastIndex startId rows = Value rows' →
  Forall parsedFields rows → Forall parsedFields rows'.
Proof.
  revert lastIndex rows.
  induction fuel as [|fuel IH]; intros lastIndex rows; [done|].
  cbn [answersLoop].
  destruct (exec answerPattern answersText lastIndex) as [mt|] eqn:He.
  2:{ by intros [= <-]. }
  case_match; [by apply IH|].
  intros Hloop Hrows. eapply IH; [done|].
  apply Forall_app. split; [done|]. constructor; [|done].
  apply answerPattern_letter in He as (c & -> & Hc). simpl.
  apply upper_letter in Hc.
  match goal with
  | |- parsedFields (if ?b then _ else _) => destruct b
  end; (split; [done|]); simpl; split_and!; by eauto.
Qed.

Lemma parseQuestionBlockFlexible_fields block startId rows :
  parseQuestionBlockFlexible block startId = Value rows →
  Forall parsedFields rows.
Proof.
  unfold parseQuestionBlockFlexible.
  destruct (exec questionPattern block 0) as [qm|] eqn:He; [|done].
  case_match; [done|].
  apply questionPattern_number in He as (ds & -> & Hds & Hlen).
  match goal with
  | |- context [let '(_, _) := ?x in _] =>
      destruct x as [questionText answersText]
  end.
  assert (Forall parsedFields
            ([] ++ [createRow (startId + Z.of_nat (@length ParsedRow []) + 1)
                      question (default [] (Some ds)) questionText
                      (parseInt (default [] (Some ds)))])) as Hq.
  { constructor; [|done]. split; [done|]. simpl.
    split_and!; [done|lia|lia|done| |done].
    apply parseInt_decimal; [done|]. destruct ds; [simpl in *; lia|done]. }
  destruct (nonEmpty answersText).
  - intros Hloop. by eapply answersLoop_fields.
  - by intros [= <-].
Qed.

Lemma parsedFields_set_id i r : parsedFields r → parsedFields (set_id i r).
Proof. done. Qed.

Lemma push_Forall (P : ParsedRow → Prop) mk out :
  (∀ i, P (mk i)) → Forall P out.1 → Forall P (push mk out).1.
Proof.
  intros Hmk Hout. unfold push. simpl. apply Forall_app. split; [done|].
  by repeat constructor.
Qed.

Lemma push_rows_Forall (P : ParsedRow → Prop) out rows :
  (∀ i r, r ∈ rows → P (set_id i r)) → Forall P out.1 →
  Forall P (foldl (λ out row, push (λ i, set_id i row) out) out rows).1.
Proof.
  revert out. induction rows as [|row rows IH]; intros out Hrows Hout; [done|].
  cbn [foldl]. apply IH.
  - intros i r Hr. apply Hrows. by right.
  - apply push_Forall; [|done]. intros i. apply Hrows. by left.
Qed.

Lemma parseMcq_fields input :
  ∃ rows, parseMcq input = Value rows ∧ Forall parsedFields rows.
Proof.
  assert (∀ title out, Forall parsedFields out.1 →
            Forall parsedFields (pushSection title out).1) as Hsection.
  { intros title out Hout. unfold pushSection.
    by do 2 (apply push_Forall; [done|]). }
  assert (∀ fuel s lastIndex blocks out blocks' out',
            blocksLoop fuel s lastIndex blocks out = Value (blocks', out') →
            Forall parsedFields out.1 → Forall parsedFields out'.1) as Hloop.
  { intros fuel s. induction fuel as [|fuel IH]; intros lastIndex blocks out
      blocks' out'; [done|].
    simpl. destruct (exec blockStartPattern s lastIndex) as [mt|].
    2:{ by intros [= <- <-]. }
    intros Hl Hout.
    set (out1 := if bool_decide (length blocks = 0) && bool_decide (0 < index mt)
                 then _ else out) in Hl.
    assert (Forall parsedFields out1.1) as Hout1.
    { unfold out1. destruct (_ && _); [|done].
      destruct (nonEmpty _); [|done]. by apply Hsection. }
    destruct (exec blockStartPattern s (stop mt)) as [nm|].
    - by eapply IH.
    - by injection Hl as <- <-. }
  assert (∀ normalized blocks out out',
            foldl (processBlock normalized) (Value out) blocks = Value out' →
            Forall okBlock blocks → Forall parsedFields out.1 →
            Forall parsedFields out'.1) as Hblocks.
  { intros normalized blocks. induction blocks as [|b blocks IH]; intros out out'.
    { by intros [= <-]. }
    cbn [foldl]. intros Hfold Hok Hout. inversion_clear Hok as [|?? Hb Hbs].
    destruct (processBlock_total normalized out b) as [out1 Hout1].
    rewrite Hout1 in Hfold. eapply IH; [done|done|].
    revert Hout1. unfold processBlock. destruct (btype b) eqn:Hbt.
    - specialize (Hb Hbt).
      pose proof (questionLike_not_thrown _ out.2 Hb) as Hnt.
      destruct (parseQuestionBlockFlexible (btext b) out.2) as [rows| |] eqn:Hrows;
        [|done|done].
      intros [= <-]. apply push_Forall; [done|].
      apply push_rows_Forall; [|done].
      intros i r Hr. apply parsedFields_set_id.
      apply parseQuestionBlockFlexible_fields in Hrows.
      rewrite Forall_forall in Hrows. by apply Hrows.
    - intros [= <-]. by apply Hsection. }
  unfold parseMcq. case_match; [by eexists|].
  destruct (blocksLoop_total (S (length (normalize input))) (normalize input)
              0 [] ([], 0%Z)) as [[blocks out] Hl]; [lia|lia|].
  rewrite Hl.
  pose proof (Hloop _ _ _ _ _ _ _ Hl (Forall_nil_2 _)) as Hout.
  apply blocksLoop_ok in Hl as [Hok _]; [|done|done].
  case_decide.
  { case_match; eexists; (split; [done|]); [|done]. by apply Hsection. }
  destruct (processBlocks_total (normalize input) blocks out) as [out' Hfold].
  rewrite Hfold. eexists. split; [done|]. by eapply Hblocks.
Qed.

(** X24: the fields of the rows [parseMcq] returns.  No row is locked.  A
    section row is labelled S; an empty row has an empty label and an empty
    text; a question row is labelled by one to three decimal digits and its
    [originalNumber] is the number they write, which is also [parseInt] of
    the label; an answer row is labelled by one capital letter from A to E;
    and [isKey] is always defined, and false except on answer rows. *)
Theorem parseMcq_row_fields input :
  ∃ rows, parseMcq input = Value rows ∧ Forall parsedFields rows.
Proof. apply parseMcq_fields. Qed.

Lemma parseMcq_numbered input :
  ∃ out, parseMcq input = Value out.1 ∧ numbered out.
Proof.
  unfold parseMcq. case_match; [by exists ([], 0%Z)|].
  destruct (blocksLoop_total (S (length (normalize input))) (normalize input)
              0 [] ([], 0%Z)) as [[blocks out] Hloop]; [lia|lia|].
  rewrite Hloop.
  apply blocksLoop_numbered in Hloop; [|done].
  case_decide.
  { case_match; [|by exists out].
    exists (pushSection (normalize input) out). split; [done|].
    by apply pushSection_numbered. }
  destruct (processBlocks_total (normalize input) blocks out) as [out' Hfold].
  rewrite Hfold. exists out'. split; [done|].
  by eapply processBlocks_numbered.
Qed.

Lemma validatedRows_ids rows :
  id <$> validatedRows (validateParsedMcq rows) = id <$> rows.
Proof.
  apply list_eq. intros i.
  rewrite !list_lookup_fmap, validatedRows_lookup.
  destruct (rows !! i) as [r|]; [|done]. simpl.
  by destruct (validateRow_cases rows i r) as (-> & _).
Qed.

Lemma firstErrorRowId_first rows :
  Forall (λ r, id r ≠ 0%Z) rows →
  firstErrorRowId (validateParsedMcq rows) =
  id <$> head (filter (λ r, type r = error)
                      (validatedRows (validateParsedMcq rows))).
Proof.
  intros Hids. unfold validateParsedMcq. case_decide as Hlen; [done|].
  simpl. rewrite firstError_fold; [done| |done].
  apply Forall_lookup. intros i rb. rewrite list_lookup_imap.
  destruct (rows !! i) as [r|] eqn:Hr; [|done]. intros [= <-].
  destruct (validateRow_cases rows i r) as (-> & ? & _).
  split; [done|]. by eapply Forall_lookup_1 in Hids.
Qed.

(** X25: parsing, then validation, as the import view chains them.  The
    validated rows of what [parseMcq] returns still carry the ids 1, 2,
    ..., n, and [firstErrorRowId] is the id of the first validated row of
    type [error] (no id is 0, so none is skipped); hence the import is
    valid exactly when that id is undefined. *)
Theorem parse_then_validate input :
  ∃ rows, parseMcq input = Value rows ∧
    let res := validateParsedMcq rows in
    id <$> validatedRows res = seqZ 1 (Z.of_nat (length rows)) ∧
    firstErrorRowId res =
      id <$> head (filter (λ r, type r = error) (validatedRows res)) ∧
    (isValid res = true ↔
     head (filter (λ r, type r = error) (validatedRows res)) = None).
Proof.
  destruct (parseMcq_numbered input) as (out & Hrows & Hcount & Hids).
  exists out.1. split; [done|].
  assert (Forall (λ r, id r ≠ 0%Z) out.1) as Hnz.
  { apply Forall_forall. intros r Hr.
    assert (id r ∈ seqZ 1 out.2) as Hin.
    { rewrite <-Hids. by apply list_elem_of_fmap_2. }
    apply elem_of_seqZ in Hin. lia. }
  cbv zeta. rewrite validatedRows_ids, Hids, Hcount.
  pose proof (firstErrorRowId_first out.1 Hnz) as Hfirst.
  split_and!; [done|done|].
  assert (isValid (validateParsedMcq out.1) = true ↔
          firstErrorRowId (validateParsedMcq out.1) = None) as ->.
  { unfold validateParsedMcq. case_decide; simpl; [done|].
    by rewrite bool_decide_eq_true. }
  rewrite Hfirst. by destruct (head _).
Qed.

(** ** What validation accepts *)

Lemma labelAt_out rows i : length rows ≤ i → labelAt rows i = [].
Proof. intros. unfold labelAt. by rewrite lookup_ge_None_2. Qed.

Lemma hasError_misplaced rows i lbl :
  hasError rows i lbl =
  misplaced (if decide (0 < i) then labelAt rows (i - 1) else []) lbl
            (labelAt rows (i + 1)) (labelAt rows (i + 2)).
Proof.
  unfold hasError.
  assert ((if decide (i < length rows - 1) then labelAt rows (i + 1) else [])
          = labelAt rows (i + 1)) as ->.
  { case_decide; [done|]. rewrite labelAt_out; [done|lia]. }
  assert ((if decide (i < length rows - 2) then labelAt rows (i + 2) else [])
          = labelAt rows (i + 2)) as ->.
  { case_decide; [done|]. rewrite labelAt_out; [done|lia]. }
  done.
Qed.

Lemma inPlace_lookup prev labels i lbl :
  inPlace prev labels = true → labels !! i = Some lbl →
  misplaced (if decide (0 < i) then default [] (labels !! (i - 1)) else prev) lbl
            (default [] (labels !! (i + 1))) (default [] (labels !! (i + 2)))
  = false.
Proof.
  revert prev i. induction labels as [|l labels IH]; intros prev i; [done|].
  cbn [inPlace]. intros [Hhere Hrest]%andb_prop. destruct i as [|i].
  - intros [= ->]. simpl. by apply negb_true_iff in Hhere.
  - simpl. intros Hi. specialize (IH l i Hrest Hi).
    rewrite Nat.sub_0_r. destruct i as [|i]; simpl in *; [done|].
    by rewrite Nat.sub_0_r in IH.
Qed.

Ltac has_var t := match t with context [?v] => is_var v end.

Ltac ground t := tryif has_var t then fail else idtac.

Ltac decide_ground :=
  repeat match goal with
  | |- context [bool_decide (?a = ?b)] =>
      ground a; ground b;
      let v := eval vm_compute in (bool_decide (a = b)) in
      change (bool_decide (a = b)) with v
  | |- context [isNum ?a] =>
      ground a;
      let v := eval vm_compute in (isNum a) in change (isNum a) with v
  | |- context [bool_decide (?a ∈ ?l)] =>
      ground a; ground l;
      let v := eval vm_compute in (bool_decide (a ∈ l)) in
      change (bool_decide (a ∈ l)) with v
  end.

Ltac tidy :=
  cbn [andb orb negb]; rewrite ?orb_false_r; try reflexivity.

Lemma num_ne n t : isNum n = true → isNum t = false → bool_decide (n = t) = false.
Proof. intros Hn Ht. apply bool_decide_eq_false. intros ->. congruence. Qed.

Lemma num_not_letter n :
  isNum n = true →
  bool_decide (n ∈ [js "A"; js "B"; js "C"; js "D"; js "E"]) = false.
Proof.
  intros Hn. apply bool_decide_eq_false. intros Hin.
  repeat (apply elem_of_cons in Hin as [->|Hin]; [by vm_compute in Hn|]).
  by apply elem_of_nil in Hin.
Qed.

Lemma placed_section n :
  isNum n = true → misplaced [] (js "S") [] n = false.
Proof. intros Hn. unfold misplaced. rewrite Hn. decide_ground. tidy. Qed.

Lemma placed_section_blank n y :
  isNum n = true → misplaced (js "S") [] n y = false.
Proof.
  intros Hn. unfold misplaced. rewrite (num_not_letter n Hn).
  decide_ground. tidy.
Qed.

Lemma placed_number n y :
  isNum n = true → misplaced [] n (js "A") y = false.
Proof.
  intros Hn. unfold misplaced. rewrite Hn.
  rewrite !(num_ne n _ Hn) by reflexivity. decide_ground. tidy.
Qed.

Lemma placed_A n y :
  isNum n = true → misplaced n (js "A") (js "B") y = false.
Proof. intros Hn. unfold misplaced. rewrite Hn. decide_ground. tidy. Qed.

Lemma placed_letter p l x y :
  (p, l, x) ∈ [ (js "A", js "B", js "C"); (js "A", js "B", js "");
                (js "B", js "C", js "D"); (js "B", js "C", js "");
                (js "C", js "D", js "E"); (js "C", js "D", js "");
                (js "D", js "E", js "") ] →
  misplaced p l x y = false.
Proof.
  intros Hin.
  repeat (apply elem_of_cons in Hin as [[= -> -> ->]|Hin];
          [unfold misplaced; decide_ground; tidy|]).
  by apply elem_of_nil in Hin.
Qed.

Lemma placed_blank p x y :
  p ∈ [js ""; js "B"; js "C"; js "D"; js "E"] →
  x = [] ∨ x = js "S" ∨ isNum x = true →
  misplaced p [] x y = false.
Proof.
  intros Hp Hx.
  assert (bool_decide (x ∈ [js "A"; js "B"; js "C"; js "D"; js "E"]) = false)
    as Hnot.
  { destruct Hx as [-> | [-> | Hx]]; [done|done|by apply num_not_letter]. }
  repeat (apply elem_of_cons in Hp as [->|Hp];
          [unfold misplaced; rewrite Hnot; decide_ground; tidy|]).
  by apply elem_of_nil in Hp.
Qed.

Lemma first_label us :
  wellFormed us →
  let x := default [] (concat (unitLabels <$> us) !! 0) in
  x = [] ∨ x = js "S" ∨ isNum x = true.
Proof.
  destruct us as [|[| |n k] us]; simpl; [by left|by left|by right; left|].
  intros (Hn & _). by right; right.
Qed.

Lemma first_label_blank us :
  match us with [] | blankRow :: _ => True | _ => False end →
  default [] (concat (unitLabels <$> us) !! 0) = [].
Proof. by destruct us as [|[| |n k] us]. Qed.

Ltac placed :=
  cbn [inPlace]; apply andb_true_intro; split; [apply negb_true_iff|].

Lemma inPlace_units us prev :
  wellFormed us →
  prev = [] ∨
  (prev ∈ [js "B"; js "C"; js "D"; js "E"] ∧
   match us with [] | blankRow :: _ => True | _ => False end) →
  inPlace prev (concat (unitLabels <$> us)) = true.
Proof.
  revert prev. induction us as [|u us IH]; intros prev; [done|].
  destruct u as [| |n k].
  - intros Hus Hprev. pose proof (first_label us Hus) as Hx. cbv zeta in Hx.
    specialize (IH [] Hus (or_introl eq_refl)).
    revert IH Hx. cbn [fmap list_fmap concat unitLabels app].
    generalize (concat (unitLabels <$> us)). intros rest IH Hx.
    placed; [|exact IH]. apply placed_blank; [|exact Hx].
    destruct Hprev as [->|[Hp _]]; [repeat constructor|].
    by apply list_elem_of_further.
  - intros [Hq Hus] [->|[_ []]]. specialize (IH [] Hus (or_introl eq_refl)).
    destruct us as [|[| |n k] us]; [done|done|done|]. destruct Hus as (Hn & _).
    revert IH. cbn [fmap list_fmap concat unitLabels app].
    generalize (take k letters). intros ls.
    generalize (concat (unitLabels <$> us)). intros rest IH.
    placed; [exact (placed_section n Hn)|].
    placed; [exact (placed_section_blank n _ Hn)|]. exact IH.
  - intros (Hn & Hk & Hnext & Hus) [->|[_ []]].
    pose proof (first_label_blank us Hnext) as Hx.
    pose proof (λ p Hp, IH p Hus (or_intror (conj Hp Hnext))) as IH'.
    clear IH. revert IH' Hx. cbn [fmap list_fmap concat unitLabels].
    generalize (concat (unitLabels <$> us)). intros rest IH Hx.
    assert (k = 2 ∨ k = 3 ∨ k = 4 ∨ k = 5) as Hks by lia.
    destruct Hks as [-> | [-> | [-> | ->]]].
    + change (inPlace [] (n :: js "A" :: js "B" :: rest) = true).
      placed; [exact (placed_number n _ Hn)|].
      placed; [exact (placed_A n _ Hn)|].
      placed; [rewrite Hx; apply placed_letter; repeat constructor|].
      apply IH. repeat constructor.
    + change (inPlace [] (n :: js "A" :: js "B" :: js "C" :: rest) = true).
      placed; [exact (placed_number n _ Hn)|].
      placed; [exact (placed_A n _ Hn)|].
      placed; [apply placed_letter; repeat constructor|].
      placed; [rewrite Hx; apply placed_letter; repeat constructor|].
      apply IH. repeat constructor.
    + change (inPlace []
        (n :: js "A" :: js "B" :: js "C" :: js "D" :: rest) = true).
      placed; [exact (placed_number n _ Hn)|].
      placed; [exact (placed_A n _ Hn)|].
      placed; [apply placed_letter; repeat constructor|].
      placed; [apply placed_letter; repeat constructor|].
      placed; [rewrite Hx; apply placed_letter; repeat constructor|].
      apply IH. repeat constructor.
    + change (inPlace []
        (n :: js "A" :: js "B" :: js "C" :: js "D" :: js "E" :: rest) = true).
      placed; [exact (placed_number n _ Hn)|].
      placed; [exact (placed_A n _ Hn)|].
      placed; [apply placed_letter; repeat constructor|].
      placed; [apply placed_letter; repeat constructor|].
      placed; [apply placed_letter; repeat constructor|].
      placed; [rewrite Hx; apply placed_letter; repeat constructor|].
      apply IH. repeat constructor.
Qed.

Ltac needs :=
  unfold misplaced; decide_ground; cbn [andb orb negb]; rewrite ?orb_false_r;
  rewrite ?orb_false_iff, ?andb_false_iff, ?negb_false_iff,
          ?bool_decide_eq_true, ?bool_decide_eq_false.

Lemma need_section p x y :
  misplaced p (js "S") x y = false → p = [] ∧ x = [] ∧ isNum y = true.
Proof. needs. tauto. Qed.

Lemma need_number p n x y :
  isNum n = true → misplaced p n x y = false → p = [] ∧ x = js "A".
Proof.
  intros Hn. unfold misplaced. rewrite Hn.
  rewrite !(num_ne n _ Hn) by reflexivity. needs. tauto.
Qed.

Lemma need_A p x y :
  misplaced p (js "A") x y = false → isNum p = true ∧ x = js "B".
Proof. needs. tauto. Qed.

Lemma need_B p x y :
  misplaced p (js "B") x y = false → p = js "A" ∧ (x = js "C" ∨ x = []).
Proof. needs. tauto. Qed.

Lemma need_C p x y :
  misplaced p (js "C") x y = false → p = js "B" ∧ (x = js "D" ∨ x = []).
Proof. needs. tauto. Qed.

Lemma need_D p x y :
  misplaced p (js "D") x y = false → p = js "C" ∧ (x = js "E" ∨ x = []).
Proof. needs. tauto. Qed.

Lemma need_E p x y :
  misplaced p (js "E") x y = false → p = js "D" ∧ x = [].
Proof. needs. tauto. Qed.

Lemma need_blank p x y :
  misplaced p [] x y = false →
  p ≠ js "A" ∧ isNum p = false ∧ x ∉ letters.
Proof. needs. unfold letters. tauto. Qed.

Lemma head_label (l : jsstring) rest :
  default [] (rest !! 0) = l → l ≠ [] → ∃ r, rest = l :: r.
Proof. destruct rest; simpl; [congruence|]. intros -> _. eauto. Qed.

Lemma head_blank (rest : list jsstring) :
  default [] (rest !! 0) = [] → rest = [] ∨ ∃ r, rest = [] :: r.
Proof. destruct rest; simpl; [by left|]. intros ->. right. eauto. Qed.

Lemma inPlace_cons prev l rest :
  inPlace prev (l :: rest) = true →
  misplaced prev l (default [] (rest !! 0)) (default [] (rest !! 1)) = false ∧
  inPlace l rest = true.
Proof.
  cbn [inPlace]. intros [H1 H2]%andb_prop. by apply negb_true_iff in H1.
Qed.

Section units.
Variable m : nat.
Hypothesis IH : ∀ labels, length labels ≤ m → inPlace [] labels = true →
  Forall knownLabel labels → followsPattern labels.

Lemma closing p rest :
  length rest ≤ S m → default [] (rest !! 0) = [] → inPlace p rest = true →
  Forall knownLabel rest →
  ∃ us, wellFormed us ∧ closes us ∧ rest = concat (unitLabels <$> us).
Proof.
  intros Hlen [->|[r ->]]%head_blank Hin Hknown.
  { by exists []. }
  apply inPlace_cons in Hin as [_ Hin]. apply Forall_cons in Hknown as [_ Hr].
  destruct (IH r) as (us & Hus & ->); [simpl in Hlen; lia|done|done|].
  by exists (blankRow :: us).
Qed.

Lemma tail_E rest :
  length rest ≤ S m → inPlace (js "D") (js "E" :: rest) = true →
  Forall knownLabel rest →
  ∃ k us, 2 ≤ k ≤ 5 ∧ wellFormed us ∧ closes us ∧
    js "A" :: js "B" :: js "C" :: js "D" :: js "E" :: rest =
    take k letters ++ concat (unitLabels <$> us).
Proof.
  intros Hlen [[_ Hx]%need_E Hin]%inPlace_cons Hknown.
  destruct (closing _ rest Hlen Hx Hin Hknown) as (us & Hus & Hc & ->).
  exists 5, us. split_and!; [lia|lia|done|done|done].
Qed.

Lemma tail_D rest :
  length rest ≤ S m → inPlace (js "C") (js "D" :: rest) = true →
  Forall knownLabel rest →
  ∃ k us, 2 ≤ k ≤ 5 ∧ wellFormed us ∧ closes us ∧
    js "A" :: js "B" :: js "C" :: js "D" :: rest =
    take k letters ++ concat (unitLabels <$> us).
Proof.
  intros Hlen [[_ [Hx|Hx]]%need_D Hin]%inPlace_cons Hknown.
  - apply head_label in Hx as [r ->]; [|done].
    apply Forall_cons in Hknown as [_ Hknown].
    apply tail_E; [simpl in Hlen; lia|done|done].
  - destruct (closing _ rest Hlen Hx Hin Hknown) as (us & Hus & Hc & ->).
    exists 4, us. split_and!; [lia|lia|done|done|done].
Qed.

Lemma tail_C rest :
  length rest ≤ S m → inPlace (js "B") (js "C" :: rest) = true →
  Forall knownLabel rest →
  ∃ k us, 2 ≤ k ≤ 5 ∧ wellFormed us ∧ closes us ∧
    js "A" :: js "B" :: js "C" :: rest =
    take k letters ++ concat (unitLabels <$> us).
Proof.
  intros Hlen [[_ [Hx|Hx]]%need_C Hin]%inPlace_cons Hknown.
  - apply head_label in Hx as [r ->]; [|done].
    apply Forall_cons in Hknown as [_ Hknown].
    apply tail_D; [simpl in Hlen; lia|done|done].
  - destruct (closing _ rest Hlen Hx Hin Hknown) as (us & Hus & Hc & ->).
    exists 3, us. split_and!; [lia|lia|done|done|done].
Qed.

Lemma tail_B rest :
  length rest ≤ S m → inPlace (js "A") (js "B" :: rest) = true →
  Forall knownLabel rest →
  ∃ k us, 2 ≤ k ≤ 5 ∧ wellFormed us ∧ closes us ∧
    js "A" :: js "B" :: rest =
    take k letters ++ concat (unitLabels <$> us).
Proof.
  intros Hlen [[_ [Hx|Hx]]%need_B Hin]%inPlace_cons Hknown.
  - apply head_label in Hx as [r ->]; [|done].
    apply Forall_cons in Hknown as [_ Hknown].
    apply tail_C; [simpl in Hlen; lia|done|done].
  - destruct (closing _ rest Hlen Hx Hin Hknown) as (us & Hus & Hc & ->).
    exists 2, us. split_and!; [lia|lia|done|done|done].
Qed.

Lemma units_step labels :
  length labels ≤ S m → inPlace [] labels = true →
  Forall knownLabel labels → followsPattern labels.
Proof.
  destruct labels as [|l rest]; [by exists []|].
  intros Hlen [Hl Hin]%inPlace_cons [Hk Hknown]%Forall_cons. simpl in Hlen.
  destruct Hk as [-> | [-> | [Hn | Hk]]].
  - destruct (IH rest) as (us & Hus & ->); [lia|done|done|].
    by exists (blankRow :: us).
  - apply need_section in Hl as (_ & Hx & Hy).
    destruct rest as [|e [|y rest]]; [done|done|]. simpl in Hx, Hy. subst e.
    apply inPlace_cons in Hin as [_ Hin].
    apply Forall_cons in Hknown as [_ Hknown].
    destruct (IH (y :: rest)) as (us & Hus & Heq); [simpl in *; lia|done|done|].
    exists (sectionUnit :: us). split; [|by rewrite Heq].
    split; [|done]. destruct us as [|[| |n k] us]; [done| | |done].
    + injection Heq as -> _. done.
    + injection Heq as -> _. done.
  - apply (need_number _ _ _ _ Hn) in Hl as [_ Hx].
    apply head_label in Hx as [r1 ->]; [|done].
    apply Forall_cons in Hknown as [_ Hknown].
    pose proof Hin as [[_ Hx]%need_A _]%inPlace_cons.
    apply head_label in Hx as [r2 ->]; [|done].
    apply inPlace_cons in Hin as [_ Hin].
    apply Forall_cons in Hknown as [_ Hknown].
    destruct (tail_B r2) as (k & us & Hks & Hus & Hc & Heq);
      [simpl in Hlen; lia|done|done|].
    exists (questionUnit l k :: us). split.
    + split_and!; [done|lia|lia|done|done].
    + simpl. by rewrite Heq.
  - exfalso. unfold letters in Hk.
    repeat (apply elem_of_cons in Hk as [->|Hk]; [|]).
    + by apply need_A in Hl as [? _].
    + by apply need_B in Hl as [? _].
    + by apply need_C in Hl as [? _].
    + by apply need_D in Hl as [? _].
    + by apply need_E in Hl as [? _].
    + by apply elem_of_nil in Hk.
Qed.

End units.

Lemma inPlace_pattern labels :
  inPlace [] labels = true → Forall knownLabel labels → followsPattern labels.
Proof.
  assert (∀ m ls, length ls ≤ m → inPlace [] ls = true →
          Forall knownLabel ls → followsPattern ls) as H.
  { intros m. induction m as [|m IH].
    - intros [|l ls]; [by exists []|simpl; lia].
    - apply units_step, IH. }
  by apply (H (length labels)).
Qed.

Lemma inPlace_all prev labels :
  (∀ i lbl, labels !! i = Some lbl →
     misplaced (if decide (0 < i) then default [] (labels !! (i - 1)) else prev)
               lbl (default [] (labels !! (i + 1)))
               (default [] (labels !! (i + 2))) = false) →
  inPlace prev labels = true.
Proof.
  revert prev. induction labels as [|l labels IH]; intros prev Hall; [done|].
  cbn [inPlace]. apply andb_true_intro. split.
  - apply negb_true_iff. exact (Hall 0 l eq_refl).
  - apply IH. intros i lbl Hi. specialize (Hall (S i) lbl Hi).
    revert Hall. cbn [Nat.add]. simpl. rewrite Nat.sub_0_r.
    destruct i as [|i]; simpl; [done|]. by rewrite Nat.sub_0_r.
Qed.

Lemma labelAt_fmap rows i : labelAt rows i = default [] ((label <$> rows) !! i).
Proof. unfold labelAt. by rewrite list_lookup_fmap. Qed.

Lemma validateRow_clean rows i r :
  (validateRow rows i r).2 = false ↔
  noError r ∧ hasError rows i (label r) = false.
Proof.
  unfold validateRow, noError. destruct (decide (type r = error)) as [Ht|Ht].
  - rewrite bool_decide_eq_true_2 by done. simpl.
    split; [done|by intros [? _]].
  - rewrite bool_decide_eq_false_2 by done. cbn [orb].
    change (label (set_type _ r)) with (label r).
    destruct (hasError _ _ _); simpl; (split; [done|]); [by intros [_ ?]|done].
Qed.

Lemma isValid_noError rows :
  isValid (validateParsedMcq rows) = true ↔
  Forall noError (validatedRows (validateParsedMcq rows)).
Proof.
  unfold validateParsedMcq. case_decide as Hlen; simpl; [done|].
  rewrite bool_decide_eq_true, anyError_fold; [tauto|].
  apply Forall_lookup. intros i rb. rewrite list_lookup_imap.
  destruct (rows !! i) as [r|]; [|done]. intros [= <-].
  by destruct (validateRow_cases rows i r) as (_ & ? & _).
Qed.

Lemma isValid_inPlace rows :
  isValid (validateParsedMcq rows) = true ↔
  Forall noError rows ∧ inPlace [] (label <$> rows) = true.
Proof.
  rewrite isValid_noError.
  assert (Forall noError (validatedRows (validateParsedMcq rows)) ↔
          ∀ i r, rows !! i = Some r →
                 noError r ∧ hasError rows i (label r) = false) as ->.
  { rewrite Forall_lookup. split.
    - intros Hall i r Hr. apply validateRow_clean.
      specialize (Hall i (validateRow rows i r).1).
      rewrite validatedRows_lookup, Hr in Hall. specialize (Hall eq_refl).
      destruct (validateRow_cases rows i r) as (_ & Hflag & _).
      destruct (validateRow rows i r).2; [|done].
      by destruct Hall, Hflag as [Hflag _]; apply Hflag.
    - intros Hall i r'. rewrite validatedRows_lookup.
      destruct (rows !! i) as [r|] eqn:Hr; [|done]. intros [= <-].
      apply Hall, validateRow_clean in Hr.
      destruct (validateRow_cases rows i r) as (_ & Hflag & _).
      intros Herr. apply Hflag in Herr. congruence. }
  split.
  - intros Hall. split.
    { apply Forall_lookup. intros i r Hr. by apply Hall in Hr as [? _]. }
    apply inPlace_all. intros i lbl. rewrite list_lookup_fmap.
    destruct (rows !! i) as [r|] eqn:Hr; [|done]. intros [= <-].
    apply Hall in Hr as [_ Hr]. rewrite hasError_misplaced in Hr.
    by rewrite !labelAt_fmap in Hr.
  - intros [Hno Hin] i r Hr. split; [by eapply Forall_lookup_1 in Hno|].
    rewrite hasError_misplaced, !labelAt_fmap.
    apply (inPlace_lookup _ _ _ _ Hin). by rewrite list_lookup_fmap, Hr.
Qed.

Lemma pattern_known us :
  wellFormed us → Forall knownLabel (concat (unitLabels <$> us)).
Proof.
  induction us as [|[| |n k] us IH]; simpl; [done| | |].
  - intros Hus. constructor; [by left|auto].
  - intros [_ Hus]. constructor; [by right; left|].
    constructor; [by left|auto].
  - intros (Hn & Hk & _ & Hus). constructor; [by right; right; left|].
    apply Forall_app. split; [|auto].
    apply Forall_forall. intros l Hl. right. right. right.
    by eapply subseteq_take.
Qed.

Lemma valid_iff_pattern rows :
  Forall (λ r, knownLabel (label r)) rows →
  isValid (validateParsedMcq rows) = true ↔
  Forall noError rows ∧ followsPattern (label <$> rows).
Proof.
  intros Hknown. rewrite isValid_inPlace.
  split; intros [Hno Hin]; (split; [done|]).
  - apply inPlace_pattern; [done|]. by apply Forall_fmap.
  - destruct Hin as (us & Hus & ->). apply inPlace_units; [done|by left].
Qed.

Lemma parsedFields_known r :
  parsedFields r → noError r ∧ knownLabel (label r).
Proof.
  unfold parsedFields, noError, knownLabel. intros [_ Hr].
  destruct (type r); [split; [done|]..|done].
  - destruct Hr as [-> _]. by right; left.
  - destruct Hr as (Hds & Hlen & _). right; right; left.
    apply isNum_digits. split; [|done]. intros Hnil. rewrite Hnil in Hlen.
    simpl in Hlen. lia.
  - destruct Hr as [Hl _]. by right; right; right.
  - destruct Hr as [-> _]. by left.
Qed.

(** X26: what validation accepts.  When every label is blank, S, a number
    or one of the letters A to E, [isValid] holds exactly when no row has
    the type [error] and the labels are laid out as blank rows, section
    units (S and a blank row, followed by a question unit) and question
    units (a number, then A, B and possibly C, D, E in that order, followed
    by a blank row or by nothing). *)
Theorem validation_accepts_pattern rows :
  Forall (λ r, knownLabel (label r)) rows →
  isValid (validateParsedMcq rows) = true ↔
  Forall noError rows ∧ followsPattern (label <$> rows).
Proof. apply valid_iff_pattern. Qed.

Lemma validation_accepts_pattern_witness :
  isValid (validateParsedMcq one_block) = true ↔
  Forall noError one_block ∧ followsPattern (label <$> one_block).
Proof.
  apply (validation_accepts_pattern one_block).
  unfold one_block. repeat apply Forall_cons_2; [..|apply Forall_nil_2];
    first [ by left | by right; left | by right; right; left; vm_compute
          | right; right; right; unfold letters; by repeat constructor ].
Defined.

(** X27: an import is valid exactly when the labels of the parsed rows
    follow the pattern: the rows [parseMcq] returns carry no other label
    and none has the type [error], so the verdict of validation depends on
    the sequence of labels alone. *)
Theorem import_valid_iff_pattern input :
  ∃ rows, parseMcq input = Value rows ∧
    (isValid (validateParsedMcq rows) = true ↔
     followsPattern (label <$> rows)).
Proof.
  destruct (parseMcq_fields input) as (rows & Hrows & Hfields).
  exists rows. split; [done|].
  assert (Forall noError rows ∧ Forall (λ r, knownLabel (label r)) rows)
    as [Hno Hknown].
  { split; eapply Forall_impl; try exact Hfields;
      intros r Hr; by apply parsedFields_known in Hr as [? ?]. }
  rewrite valid_iff_pattern by done. tauto.
Qed.

(** ** The verdict after an answer key is applied *)

Lemma hasError_labels rows rows' i lbl :
  label <$> rows = label <$> rows' →
  hasError rows i lbl = hasError rows' i lbl.
Proof.
  intros Hlabels. rewrite !hasError_misplaced, !labelAt_fmap. by rewrite Hlabels.
Qed.

Lemma readsAlike_labels rows rows' :
  Forall2 readsAlike rows rows' → label <$> rows = label <$> rows'.
Proof.
  induction 1 as [|r r' rows rows' (_ & _ & Hl) _ IH]; [done|].
  csimpl. by rewrite Hl, IH.
Qed.

Lemma validateRow_alike rows rows' i r r' :
  label <$> rows = label <$> rows' → readsAlike r r' →
  (validateRow rows i r).2 = (validateRow rows' i r').2 ∧
  readsAlike (validateRow rows i r).1 (validateRow rows' i r').1.
Proof.
  intros Hlabels (Hid & Ht & Hl). unfold validateRow, readsAlike.
  destruct r as [i0 t l x k lk o], r' as [i0' t' l' x' k' lk' o'].
  simpl in *. subst i0' t' l'.
  rewrite !(hasError_labels rows rows' i _ Hlabels).
  destruct (bool_decide (t = error)); simpl; [done|].
  by destruct (hasError rows' i l).
Qed.

Lemma noteError_fold_alike (checked checked' : list (ParsedRow * bool)) first :
  Forall2 (λ rb rb', rb.2 = rb'.2 ∧ readsAlike rb.1 rb'.1) checked checked' →
  foldl (λ first (rb : ParsedRow * bool),
           if rb.2 then noteError first (id rb.1) else first) first checked =
  foldl (λ first (rb : ParsedRow * bool),
           if rb.2 then noteError first (id rb.1) else first) first checked'.
Proof.
  intros H. revert first.
  induction H as [|rb rb' checked checked' (Hflag & Hid & _) _ IH];
    intros first; [done|].
  simpl. by rewrite Hflag, Hid, IH.
Qed.

Lemma checked_alike rows rows' :
  Forall2 readsAlike rows rows' →
  Forall2 (λ rb rb', rb.2 = rb'.2 ∧ readsAlike rb.1 rb'.1)
          (imap (validateRow rows) rows) (imap (validateRow rows') rows').
Proof.
  intros Halike. pose proof (readsAlike_labels _ _ Halike) as Hlabels.
  apply Forall2_same_length_lookup. split.
  { rewrite !length_imap. by eapply Forall2_length. }
  intros i rb rb'. rewrite !list_lookup_imap.
  destruct (rows !! i) as [r|] eqn:Hr; [|done].
  destruct (rows' !! i) as [r'|] eqn:Hr'; [|done].
  intros [= <-] [= <-]. apply validateRow_alike; [done|].
  by eapply Forall2_lookup_lr.
Qed.

Lemma validation_alike rows rows' :
  Forall2 readsAlike rows rows' →
  isValid (validateParsedMcq rows) = isValid (validateParsedMcq rows') ∧
  firstErrorRowId (validateParsedMcq rows) =
    firstErrorRowId (validateParsedMcq rows') ∧
  Forall2 readsAlike (validatedRows (validateParsedMcq rows))
                     (validatedRows (validateParsedMcq rows')).
Proof.
  intros Halike. pose proof (Forall2_length _ _ _ Halike) as Hlen.
  pose proof (checked_alike _ _ Halike) as Hchecked.
  unfold validateParsedMcq. rewrite <-Hlen.
  case_decide; simpl; [done|].
  rewrite (noteError_fold_alike _ _ _ Hchecked). split_and!; [done|done|].
  apply Forall2_fmap. eapply Forall2_impl; [exact Hchecked|]. by intros ?? [_ ?].
Qed.

Lemma readRows_alike (h h' : gmap positive ParsedRow) rows :
  keysRewritten h h' → Forall2 readsAlike (readRows h rows) (readRows h' rows).
Proof.
  intros Hkeys. induction rows as [|l rows IH]; [constructor|].
  rewrite !readRows_cons. destruct (Hkeys l) as [r r' [Hsame _]|]; [|done].
  constructor; [|done]. unfold sameButKey in Hsame.
  destruct r, r'. by injection Hsame as -> -> -> _.
Qed.

(** X28: applying an answer key does not change the verdict of validation.
    Validation reads the id, the type and the label of a row, and
    [applyAnswerKey] writes [isKey] only: the rows read after the call are
    valid exactly when those read before are, with the same first error id
    and the same types after validation. *)
Theorem applyAnswerKey_keeps_verdict (h : gmap positive ParsedRow) rows
    answerKey :
  let before := validateParsedMcq (readRows h rows) in
  let after :=
    validateParsedMcq
      (readRows (Store.applyAnswerKey h rows answerKey).1 rows) in
  isValid after = isValid before ∧
  firstErrorRowId after = firstErrorRowId before ∧
  type <$> validatedRows after = type <$> validatedRows before.
Proof.
  cbv zeta. destruct (applied_store h rows answerKey) as [Hkeys _].
  destruct (validation_alike _ _ (readRows_alike _ _ rows Hkeys))
    as (Hv & Hf & Hrows).
  split_and!; [done|done|]. symmetry.
  induction Hrows as [|r r' rs rs' (_ & Ht & _) _ IH]; [done|].
  csimpl. by rewrite Ht, IH.
Qed.

(** ** The lines that an answer key skips *)

Lemma keyLine_holds line mt :
  exec keyLinePattern line 0 = Some mt → holdsKeyShape line.
Proof.
  intros (_ & _ & Hstop & pv & st' & HM & _)%exec_Some.
  revert HM. unfold keyLinePattern, Seqs, Plus. simpl.
  intros (st1 & (st2 & Hds & Hr2 & Hp2 & _)%Matches_Group_inv &
          (st3 & Hseps &
           (st4 & (st5 & Htail & Hr5 & Hp5 & _)%Matches_Group_inv &
            ->%Matches_Empty_inv)%Matches_Seq_inv)%Matches_Seq_inv)
    %Matches_Seq_inv.
  destruct (repeat_chars _ _ _ Hds _ _ _ eq_refl)
    as (ds & Hrds & _ & _ & Hallds & Hminds & _).
  destruct (repeat_chars _ _ _ Hseps _ _ _ eq_refl)
    as (seps & Hrseps & _ & _ & Hallseps & Hminseps & _).
  destruct (repeat_chars _ _ _ Htail _ _ _ eq_refl)
    as (tail & Hrtail & _ & _ & Halltail & Hmintail & _).
  simpl in *.
  exists (take (index mt) line), (ds ++ seps ++ tail), (rest st4).
  split.
  - rewrite <-(take_drop (index mt) line) at 1. f_equal.
    rewrite Hrds, <-Hr2, Hrseps, Hrtail, <-Hr5. by rewrite <-!app_assoc.
  - exists ds, seps, tail. split_and!; try done.
    + intros ->. simpl in *. lia.
    + intros ->. simpl in *. lia.
    + intros ->. simpl in *. lia.
Qed.

Lemma keyStep_skips answerKey line :
  ¬ holdsKeyShape line → keyStep answerKey line = answerKey.
Proof.
  intros Hno. unfold keyStep.
  destruct (exec keyLinePattern line 0) as [mt|] eqn:He; [|done].
  destruct Hno. by eapply keyLine_holds.
Qed.

Lemma holdsKeyShape_digit line :
  holdsKeyShape line → ∃ c, c ∈ line ∧ isDigit c = true.
Proof.
  intros (pre & t & post & -> & ds & seps & tail & -> & Hne & Hds & _).
  destruct Hds as [|d ds Hd _]; [done|]. exists d. split; [|done].
  apply elem_of_app. right. apply elem_of_app. left. by left.
Qed.

Lemma join_elem (lines : list jsstring) line c :
  line ∈ lines → c ∈ line → c ∈ join nl lines.
Proof.
  induction lines as [|l lines IH]; [by intros ?%elem_of_nil|].
  intros Hline Hc. destruct lines as [|l' lines].
  { apply list_elem_of_singleton in Hline as ->. done. }
  rewrite join_cons by done.
  apply elem_of_cons in Hline as [->|Hline].
  - apply elem_of_app. by left.
  - apply elem_of_app. right. apply elem_of_app. right. by apply IH.
Qed.

Lemma parseAnswerKey_join lines :
  Forall (Forall (λ c, c ≠ 10%N)) lines →
  parseAnswerKey (join nl lines) =
  foldl keyStep ∅ (filter (λ line, nonEmpty (trim line) = true) lines).
Proof.
  intros Hplain. unfold parseAnswerKey.
  destruct (nonEmpty (trim (join nl lines))) eqn:Hin; simpl.
  - destruct lines as [|l lines]; [done|]. by rewrite split_join.
  - assert (filter (λ line, nonEmpty (trim line) = true) lines = []) as ->;
      [|done].
    assert (Forall (λ line, ¬ nonEmpty (trim line) = true) lines) as Hblank.
    { apply Forall_forall.
      intros line Hline (c & Hc & Hsp)%trim_nonEmpty.
      assert (nonEmpty (trim (join nl lines)) = true) as Hne;
        [|by rewrite Hne in Hin].
      apply trim_nonEmpty. exists c. split; [|done]. by eapply join_elem. }
    clear Hplain Hin. induction Hblank as [|line lines Hline _ IH]; [done|].
    by rewrite filter_cons, decide_False.
Qed.

Lemma parseAnswerKey_without before line after :
  Forall (Forall (λ c, c ≠ 10%N)) (before ++ line :: after) →
  ¬ holdsKeyShape line →
  parseAnswerKey (join nl (before ++ line :: after)) =
  parseAnswerKey (join nl (before ++ after)).
Proof.
  intros Hplain Hno.
  assert (Forall (Forall (λ c, c ≠ 10%N)) (before ++ after)) as Hplain'.
  { apply Forall_app in Hplain as [? [_ ?]%Forall_cons]. by apply Forall_app. }
  rewrite !parseAnswerKey_join by done.
  rewrite !filter_app, filter_cons, !foldl_app.
  case_decide; [|done]. cbn [foldl]. by rewrite keyStep_skips.
Qed.

(** C8, as stated, fails: a line that does not have the shape, since it
    starts with a word, still sets an entry, because the pattern is searched
    for anywhere in the line. *)
Lemma unanchored_line_sets_a_key :
  ¬ specKeyLine (js "Question 12: abc") ∧
  parseAnswerKey (js "Question 12: abc") =
    {[ 12%Z := [js "A"; js "B"; js "C"] ]}.
Proof.
  split; [|by vm_compute].
  intros (t & post & Hline & ds & seps & tail & -> & Hne & Hds & _).
  destruct Hds as [|d ds Hd _]; [done|]. by injection Hline as <- _.
Qed.

(** C8, amended: the scenario yields the stated mapping; a line in which
    the shape (digits, then [.):] or white space, then [A-Ea-e], commas or
    white space) occurs nowhere contributes nothing: the key map is the one
    of the text without that line; and the shape is looked for anywhere in
    a line, so that a line which only holds it does contribute. *)
Theorem parseAnswerKey_skips_lines_without_shape :
  parseAnswerKey (js "1. B
2) A, C
3 D") = {[ 1%Z := [js "B"]; 2%Z := [js "A"; js "C"]; 3%Z := [js "D"] ]} ∧
  (∀ before line after,
     Forall (Forall (λ c, c ≠ 10%N)) (before ++ line :: after) →
     ¬ holdsKeyShape line →
     parseAnswerKey (join nl (before ++ line :: after)) =
     parseAnswerKey (join nl (before ++ after))) ∧
  (holdsKeyShape (js "Question 12: abc") ∧
   parseAnswerKey (js "Question 12: abc") =
     {[ 12%Z := [js "A"; js "B"; js "C"] ]}).
Proof.
  split_and!; [by vm_compute|apply parseAnswerKey_without| |by vm_compute].
  exists (js "Question "), (js "12: abc"), [].
  split; [done|]. exists (js "12"), (js ": "), (js "abc").
  split_and!; try done; by repeat constructor.
Qed.

Lemma parseAnswerKey_skips_witness :
  parseAnswerKey (js "1. B
no key here
3 D") = parseAnswerKey (js "1. B
3 D").
Proof.
  apply (proj1 (proj2 parseAnswerKey_skips_lines_without_shape)
           [js "1. B"] (js "no key here") [js "3 D"]).
  - apply (bool_decide_unpack _). by vm_compute.
  - intros (c & Hc & Hd)%holdsKeyShape_digit.
    repeat (apply elem_of_cons in Hc as [->|Hc]; [by vm_compute in Hd|]).
    by apply elem_of_nil in Hc.
Defined.

(** ** What each block contributes, and error rows *)

Lemma anonymous_app rows rows' :
  anonymous (rows ++ rows') = anonymous rows ++ anonymous rows'.
Proof. apply fmap_app. Qed.

Lemma answersLoop_anonymous fuel answersText lastIndex s s' rows rows' :
  anonymous rows = anonymous rows' →
  sameOutcome (answersLoop fuel answersText lastIndex s rows)
              (answersLoop fuel answersText lastIndex s' rows').
Proof.
  revert lastIndex rows rows'.
  induction fuel as [|fuel IH]; intros lastIndex rows rows' Hrows; [done|].
  cbn [answersLoop].
  destruct (exec answerPattern answersText lastIndex) as [mt|]; [|done].
  cbv zeta.
  destruct (negb (truthyStr (group answersText mt 2)) ||
            negb (truthyStr (group answersText mt 3))); [by apply IH|].
  apply IH. rewrite !anonymous_app, Hrows. f_equal.
  by destruct (truthyStr _).
Qed.

Lemma parseQuestionBlockFlexible_anonymous block s s' :
  sameOutcome (parseQuestionBlockFlexible block s)
              (parseQuestionBlockFlexible block s').
Proof.
  unfold parseQuestionBlockFlexible.
  destruct (exec questionPattern block 0) as [qm|]; [|done].
  cbv zeta.
  destruct (negb (truthyStr (group block qm 1)) ||
            negb (truthyStr (group block qm 0))); [done|].
  match goal with
  | |- context [let '(_, _) := ?x in _] =>
      destruct x as [questionText answersText]
  end.
  destruct (nonEmpty answersText); [|done].
  by apply answersLoop_anonymous.
Qed.

Lemma push_rows_anonymous out rows :
  ∃ rows',
    foldl (λ out row, push (λ i, set_id i row) out) out rows =
      (out.1 ++ rows', (out.2 + Z.of_nat (length rows'))%Z) ∧
    anonymous rows' = anonymous rows.
Proof.
  revert out. induction rows as [|row rows IH]; intros [rs n].
  { exists []. simpl. by rewrite app_nil_r, Z.add_0_r. }
  cbn [foldl]. destruct (IH (push (λ i, set_id i row) (rs, n)))
    as (rows' & -> & Hrows').
  exists (set_id (n + 1) row :: rows'). unfold push. simpl.
  rewrite <-app_assoc. split.
  { f_equal. rewrite Nat2Z.inj_succ. lia. }
  unfold anonymous in *. csimpl. rewrite Hrows'. by destruct row.
Qed.

Lemma anonymous_elem r rows rows' :
  anonymous rows = anonymous rows' → r ∈ rows →
  ∃ r', r' ∈ rows' ∧ set_id 0 r = set_id 0 r'.
Proof.
  intros Hrows Hr.
  assert (set_id 0 r ∈ anonymous rows') as Hin.
  { rewrite <-Hrows. by apply list_elem_of_fmap_2. }
  apply list_elem_of_fmap in Hin as (r' & Heq & Hr'). by exists r'.
Qed.

Lemma processBlock_part normalized out b :
  ∃ part,
    processBlock normalized (Value out) b =
      Value (out.1 ++ part, (out.2 + Z.of_nat (length part))%Z) ∧
    anonymous part = anonymous (blockRows normalized b) ∧
    (failsToParse b → part = errorRows b out.2) ∧
    (∀ r, r ∈ part → type r = error →
          failsToParse b ∧ label r = js "error" ∧ text r = btext b).
Proof.
  destruct out as [rs n]. unfold blockRows, processBlock, failsToParse.
  cbn [fst snd]. destruct (btype b).
  - pose proof (parseQuestionBlockFlexible_anonymous (btext b) n 0) as Hsame.
    unfold sameOutcome in Hsame.
    destruct (parseQuestionBlockFlexible_total (btext b) n)
      as [Hn|(rows & Hn & Htypes)]; rewrite Hn in *.
    + destruct (parseQuestionBlockFlexible (btext b) 0); [done| |done].
      exists (errorRows b n). split_and!; [|done|done|].
      * unfold push, errorRows. simpl. rewrite <-app_assoc. simpl.
        by replace (n + 1 + 1)%Z with (n + 2)%Z by lia.
      * intros r Hr Herr. unfold errorRows in Hr.
        apply elem_of_cons in Hr as [->|Hr]; [done|].
        apply list_elem_of_singleton in Hr as ->. done.
    + destruct (parseQuestionBlockFlexible (btext b) 0) as [rows0| |];
        [|done|done].
      destruct (push_rows_anonymous (rs, n) rows) as (rows' & -> & Hrows').
      destruct (push_rows_anonymous ([], 0%Z) rows0) as (rows0' & -> & Hrows0').
      exists (rows' ++ [createRow (n + Z.of_nat (length rows') + 1) empty [] []
                          None]).
      unfold push. cbn [fst snd]. split_and!; [| |by intros [_ ?]|].
      * rewrite <-app_assoc, length_app. simpl. do 2 f_equal. lia.
      * simpl. rewrite !anonymous_app, Hrows', Hrows0', Hsame. done.
      * intros r [Hr|Hr]%elem_of_app Herr.
        -- destruct (anonymous_elem r rows' rows Hrows' Hr) as (r' & Hr' & Heq).
           eapply Forall_forall in Htypes; [|exact Hr'].
           assert (type r = type r') as Ht by by destruct r, r'; injection Heq.
           rewrite Ht in Herr. by destruct Htypes as [Hq|Ha]; rewrite ?Hq, ?Ha in Herr.
        -- apply list_elem_of_singleton in Hr as ->. done.
  - unfold pushSection, push. simpl. eexists [_; _]. split_and!.
    + rewrite <-app_assoc. simpl.
      by replace (n + Z.of_nat 2)%Z with (n + 1 + 1)%Z by lia.
    + done.
    + by intros [? _].
    + intros r Hr Herr.
      apply elem_of_cons in Hr as [->|Hr]; [done|].
      apply list_elem_of_singleton in Hr as ->. done.
Qed.

Lemma errorRows_degraded b i :
  ∃ e blank, errorRows b i = [e; blank] ∧ type e = error ∧
             text e = btext b ∧ type blank = empty.
Proof. by eexists _, _. Qed.

Lemma processBlocks_parts normalized blocks out :
  ∃ parts,
    foldl (processBlock normalized) (Value out) blocks =
      Value (out.1 ++ concat parts,
             (out.2 + Z.of_nat (length (concat parts)))%Z) ∧
    Forall2 (contributes normalized) blocks parts ∧
    Forall2 (λ b part, ∀ r, r ∈ part → type r = error →
               failsToParse b ∧ label r = js "error" ∧ text r = btext b)
            blocks parts.
Proof.
  revert out. induction blocks as [|b blocks IH]; intros out.
  { exists []. simpl. rewrite app_nil_r, Z.add_0_r. by destruct out. }
  destruct (processBlock_part normalized out b)
    as (part & Hb & Hpart & Hfail & Herr).
  destruct (IH (out.1 ++ part, (out.2 + Z.of_nat (length part))%Z))
    as (parts & Hbs & Hparts & Herrs).
  exists (part :: parts). split_and!.
  - cbn [foldl]. rewrite Hb. etrans; [exact Hbs|]. cbn [fst snd concat].
    rewrite <-app_assoc, length_app. do 2 f_equal. lia.
  - constructor; [|done]. split; [done|].
    intros Hthrown. rewrite (Hfail Hthrown). apply errorRows_degraded.
  - by constructor.
Qed.

Lemma parseMcq_parts input :
  ∃ rows, parseMcq input = Value rows ∧
    ∀ blocks out,
      cutBlocks (normalize input) = Value (blocks, out) → blocks ≠ [] →
      ∃ parts, rows = out.1 ++ concat parts ∧
               Forall2 (contributes (normalize input)) blocks parts.
Proof.
  destruct (parseMcq_total input) as [rows Hrows]. exists rows.
  split; [done|]. intros blocks out Hcut Hblocks.
  revert Hrows. unfold parseMcq, cutBlocks in *.
  case_match.
  { exfalso. destruct (normalize input); [|done]. simpl in Hcut.
    vm_compute in Hcut. by injection Hcut as <- _. }
  rewrite Hcut. rewrite decide_False by by destruct blocks.
  destruct (processBlocks_parts (normalize input) blocks out)
    as (parts & -> & Hparts & _).
  intros [= <-]. by exists parts.
Qed.


(** C5: [parseMcq] returns a row sequence for every input: it raises
    nothing and its loops stop.  The rows it returns are the rows pushed
    while the blocks were cut, then one part for each block, in order; each
    part is, up to the ids, what the block gives on its own, so a block is
    parsed as usual whatever came before it; and the part of a question
    block that fails to parse is one [error] row holding the text of the
    block, followed by one [empty] row.  The same holds of the loop over
    the blocks for any list of blocks. *)
Theorem parseMcq_total_and_degrades :
  (∀ input,
     ∃ rows, parseMcq input = Value rows ∧
       ∀ blocks out,
         cutBlocks (normalize input) = Value (blocks, out) → blocks ≠ [] →
         ∃ parts, rows = out.1 ++ concat parts ∧
                  Forall2 (contributes (normalize input)) blocks parts) ∧
  (∀ normalized blocks out,
     ∃ parts,
       foldl (processBlock normalized) (Value out) blocks =
         Value (out.1 ++ concat parts,
                (out.2 + Z.of_nat (length (concat parts)))%Z) ∧
       Forall2 (contributes normalized) blocks parts).
Proof.
  split; [apply parseMcq_parts|].
  intros normalized blocks out.
  destruct (processBlocks_parts normalized blocks out) as (parts & ? & ? & _).
  by exists parts.
Qed.

Lemma parseMcq_degrades_witness :
  failsToParse unparsed_block ∧
  ∃ parts,
    foldl (processBlock []) (Value ([], 0%Z)) [unparsed_block; parsed_block] =
      Value ([] ++ concat parts, (0 + Z.of_nat (length (concat parts)))%Z) ∧
    Forall2 (contributes []) [unparsed_block; parsed_block] parts.
Proof.
  split; [by split|].
  apply (proj2 parseMcq_total_and_degrades [] [unparsed_block; parsed_block]
           ([], 0%Z)).
Defined.

(** A block that fails to parse, followed by one that parses: the loop
    pushes the error row and its empty row, then the rows of the second
    block. *)
Example failing_block_then_question :
  foldl (processBlock []) (Value ([], 0%Z)) [unparsed_block; parsed_block] =
  Value ([ createRow 1 error (js "error") (js "abc") None;
           createRow 2 empty [] [] None;
           createRow 3 question (js "2") (js "Q2?") (Some 2%Z);
           createRow 4 answer (js "A") (js "a1") None;
           createRow 5 answer (js "B") (js "a2") None;
           createRow 6 empty [] [] None ], 6%Z).
Proof. by vm_compute. Qed.



